(** * Inventory back end: anomaly-detection engine and stock mutation

    A shallow embedding of [src/index.js] (the Express application with the
    [EnhancedAIAnomalyDetector] class and the stock route), of the Mongoose
    schemas under [src/models/] and of the unmounted validator
    [src/utils/validation.js].

    Conventions of the embedding:
    - stock quantities and timestamps (milliseconds since the epoch) are
      integers ([Z]); prices, rates and confidences are rationals ([Q]);
      the value of a loss, which [detectPotentialTheft] compares with 500,
      is the double nearest to the units lost times the price, as the
      code's product is; the other sums and quotients are exact;
    - [Date.now()] is read once per pass and handed down as [now];
    - store reads never fail; a write fails exactly when Mongoose schema
      validation rejects a document, which raises an exception;
    - the MongoDB collections are kept in insertion order; the product
      collection is keyed by [_id] and listed by ascending [_id];
    - the plain object [userActivity] is the list of its own properties in
      the order of their creation, read through [Object.prototype]; the
      object that counts incidents per product id is a [gmap]. *)

From Stdlib Require Import ZArith QArith Qround Qabs Qpower Ascii String Lia Lqa.
From stdpp Require Import base numbers list strings gmap pretty sorting.

#[local] Open Scope Z_scope.

(** ** Time and number helpers *)

Definition HOUR_MS : Z := 60 * 60 * 1000.
Definition DAY_MS : Z := 24 * HOUR_MS.

Definition Qltb (x y : Q) : bool := negb (Qle_bool y x).

(** [Math.ceil (a / b)] for integers [a] and positive [b]. *)
Definition ceilDiv (a b : Z) : Z := - ((- a) / b).


(** ** Numbers that are no integers: IEEE 754 double precision *)

(** The nearest integer, a tie going to the even one. *)
Definition roundHalfEven (x : Q) : Z :=
  let f := Qfloor x in
  match (x - inject_Z f ?= 1 # 2)%Q with
  | Lt => f
  | Gt => f + 1
  | Eq => if Z.even f then f else f + 1
  end.

(** The binade of a positive rational: the [e] with [2^e <= x < 2^(e+1)]. *)
Definition binade (x : Q) : Z :=
  let e := Z.log2 (Qnum x) - Z.log2 (Zpos (Qden x)) in
  if Qle_bool ((2 # 1) ^ e) x then e else e - 1.

(** The double nearest to a real: 53 significant bits, a tie going to the
    even significand; below [2^-1022] the spacing stays at [2^-1074]. There
    is no infinity here: a real beyond the largest double is rounded like
    any other. *)
Definition toDouble (x : Q) : Q :=
  if Qeq_bool x 0 then 0%Q
  else
    let e := Z.max (binade (Qabs x)) (-1022) in
    let ulp := ((2 # 1) ^ (e - 52))%Q in
    let m := roundHalfEven (Qabs x / ulp) in
    if Qle_bool 0 x then (inject_Z m * ulp)%Q else (- (inject_Z m * ulp))%Q.

(** [a * b] on numbers. *)
Definition jsMul (a b : Q) : Q := toDouble (a * b).

(** [Number.prototype.toFixed]: round to [d] decimals, ties upwards in
    magnitude, and print with exactly [d] fractional digits. *)
Definition padZeros (d : nat) (s : string) : string :=
  String.concat "" (replicate (d - String.length s) "0") +:+ s.

Definition toFixed (d : nat) (x : Q) : string :=
  let scale := 10 ^ Z.of_nat d in
  let n := Qfloor (Qabs x * inject_Z scale + (1 # 2))%Q in
  (if Qltb x (0 # 1) then "-" else "") +:+ pretty (n / scale) +:+
  (if decide (d = 0%nat) then "" else "." +:+ padZeros d (pretty (n mod scale))).

(** [s.replace(/_/g, ' ').toUpperCase()] on ASCII text. *)
Definition upperAscii (c : Ascii.ascii) : Ascii.ascii :=
  let n := Ascii.nat_of_ascii c in
  if (97 <=? n)%nat && (n <=? 122)%nat then Ascii.ascii_of_nat (n - 32) else c.

Fixpoint mapString (f : Ascii.ascii → Ascii.ascii) (s : string) : string :=
  match s with
  | EmptyString => EmptyString
  | String c r => String (f c) (mapString f r)
  end.

Definition underscoreToSpace (c : Ascii.ascii) : Ascii.ascii :=
  if Ascii.eqb c "_"%char then " "%char else c.

Definition titleOfType (ty : string) : string :=
  mapString upperAscii (mapString underscoreToSpace ty).

(** [Array.prototype.join]. *)
Definition joinWith (sep : string) (l : list string) : string := String.concat sep l.

(** ** Data model (src/models) *)

Record Product := mkProduct {
  p_name : string;
  p_category : string;
  p_quantity : Z;
  p_price : Q;
  p_expiryDate : option Z;
  p_minimumStock : Z
}.

Record Transaction := mkTransaction {
  t_id : N;
  t_productId : N;
  t_type : string;
  t_quantity : Z;
  t_previousQuantity : Z;
  t_newQuantity : Z;
  t_reason : option string;
  t_userId : option string;
  t_createdAt : Z
}.

(** Entries of the detector-specific evidence carried in [metadata]. *)
Record Loss := mkLoss {
  l_date : Z;
  l_expectedStock : Z;
  l_actualStock : Z;
  l_discrepancy : Z;
  l_transactionId : option N;
  l_type : option string
}.

Record Pattern := mkPattern {
  pt_type : string;
  pt_userId : option string;
  pt_count : nat;
  pt_description : string
}.

Record Suspicious := mkSuspicious {
  s_productId : N;
  s_productName : string;
  s_discrepancy : Z;
  s_value : Q;
  s_lastTransactionTime : Z
}.

Inductive Metadata : Type :=
  | MetaEmpty
  | MetaLowStock (currentStock minimumStock : Z)
  | MetaExpiry (daysUntilExpiry expiryDate : Z)
  | MetaTheft (totalUnitsLost : Z) (estimatedValue : Q) (discrepancyCount : nat)
      (unexplainedLosses : list Loss)
  | MetaShrinkage (totalShrinkage : Z) (dailyShrinkageRate : Q)
      (expectedStock actualStock totalSales totalRestocks : Z)
  | MetaAccess (patterns : list Pattern) (totalTransactions : nat)
  | MetaOrganized (affectedProducts : nat) (totalValue : Q)
      (suspiciousItems : list Suspicious) (detectionTime : Z).

(** The object literal a detector pushes onto the [anomalies] array. *)
Record Candidate := mkCandidate {
  c_productId : option N;
  c_type : string;
  c_severity : string;
  c_description : string;
  c_aiConfidence : Q;
  c_metadata : Metadata
}.

(** A stored Anomaly document ([timestamps: true] adds [createdAt]). *)
Record Anomaly := mkAnomaly {
  a_id : N;
  a_productId : option N;
  a_type : string;
  a_severity : string;
  a_description : string;
  a_detectedAt : Z;
  a_resolved : bool;
  a_resolvedAt : option Z;
  a_aiConfidence : Q;
  a_metadata : Metadata;
  a_createdAt : Z
}.

(** The object literal [generateTheftAlerts] pushes onto [alerts]. *)
Record AlertDraft := mkAlertDraft {
  ad_type : string;
  ad_title : string;
  ad_message : string;
  ad_severity : string;
  ad_productId : option N;
  ad_anomalyId : N;
  ad_confidence : Q;
  ad_detectionType : string
}.

(** A stored Alert document; the schema has no [metadata] path, so strict
    mode drops that part of the draft. *)
Record Alert := mkAlert {
  al_id : N;
  al_type : string;
  al_title : string;
  al_message : string;
  al_severity : string;
  al_read : bool;
  al_productId : option N;
  al_createdAt : Z
}.

(** ** Schemas *)

Definition ANOMALY_TYPES : list string :=
  ["low_stock"; "unusual_pattern"; "expiry_warning"; "high_variance";
   "stock_discrepancy"; "potential_theft"; "unauthorized_access_pattern";
   "security"].

Definition ANOMALY_SEVERITIES : list string := ["low"; "medium"; "high"; "critical"].

Definition TRANSACTION_TYPES : list string :=
  ["sale"; "restock"; "adjustment"; "expiry"; "damage"; "purchase"].

Definition ALERT_TYPES : list string :=
  ["low_stock"; "expiry"; "anomaly"; "system"; "security"].

Definition ALERT_SEVERITIES : list string := ["info"; "warning"; "error"; "critical"].

(** [required: true] on a String path also rejects the empty string. *)
Definition requiredString (s : string) : bool := negb (String.eqb s "").

Definition anomalySchema (c : Candidate) : bool :=
  bool_decide (is_Some (c_productId c))
  && bool_decide (c_type c ∈ ANOMALY_TYPES)
  && bool_decide (c_severity c ∈ ANOMALY_SEVERITIES)
  && requiredString (c_description c)
  && Qle_bool (0 # 1) (c_aiConfidence c)
  && Qle_bool (c_aiConfidence c) (1 # 1).

Definition transactionSchema (t : Transaction) : bool :=
  bool_decide (t_type t ∈ TRANSACTION_TYPES).

(** [maxlength: n] on a String path; a string is taken as ASCII text, one
    character per code unit. *)
Definition maxlength (n : nat) (s : string) : bool := (String.length s <=? n)%nat.

Definition productSchema (p : Product) : bool :=
  requiredString (p_name p) && maxlength 100 (p_name p)
  && requiredString (p_category p) && maxlength 50 (p_category p)
  && (0 <=? p_quantity p) && Qle_bool (0 # 1) (p_price p).

Definition alertSchema (d : AlertDraft) : bool :=
  bool_decide (ad_type d ∈ ALERT_TYPES)
  && requiredString (ad_title d)
  && requiredString (ad_message d)
  && bool_decide (ad_severity d ∈ ALERT_SEVERITIES).

(** The ten anomaly types the specification lists for the record type. *)
Definition SPEC_ANOMALY_TYPES : list string :=
  ["low_stock"; "expiry_warning"; "unusual_pattern"; "potential_theft";
   "inventory_shrinkage"; "unauthorized_access_pattern";
   "organized_theft_pattern"; "security"; "stock_discrepancy"; "high_variance"].

(** ** The store and the effects of talking to it *)

Record Store := mkStore {
  st_products : gmap N Product;
  st_transactions : list Transaction;
  st_anomalies : list Anomaly;
  st_alerts : list Alert;
  st_nextId : N
}.

(** Filter of [Anomaly.findOne]; an absent key is [None]. *)
Record AnomalyFilter := mkAnomalyFilter {
  f_productId : option N;
  f_type : string;
  f_resolved : option bool;
  f_since : option Z
}.

(** Every call made to the store, in the order made. *)
Inductive Query : Type :=
  | QProductFind
  | QProductFindPriceGt (bound : Q)
  | QProductFindById (id : N)
  | QProductSave (id : N)
  | QTransactionFind (productId : N) (since : Z)
  | QTransactionSave
  | QAnomalyFindOne (flt : AnomalyFilter)
  | QAnomalyFindTypes (types : list string)
  | QAnomalyInsertMany (count : nat)
  | QAlertFindOne (type : string) (productId : option N) (since : Z)
  | QAlertInsertMany (count : nat).

Record World := mkWorld {
  store : Store;
  queries : list Query
}.

Inductive Outcome (A : Type) : Type :=
  | Return (a : A)
  | Throw (message : string).
Arguments Return {A} a.
Arguments Throw {A} message.

(** An [async] computation: it ends in a value or an exception and leaves a
    new world either way. *)
Definition Db (A : Type) : Type := World → Outcome A * World.

#[global] Instance Db_ret : MRet Db := λ A a w, (Return a, w).

#[global] Instance Db_bind : MBind Db := λ A B f m w,
  match m w with
  | (Return a, w') => f a w'
  | (Throw e, w') => (Throw e, w')
  end.

Definition throw {A} (e : string) : Db A := λ w, (Throw e, w).

Definition tryCatch {A} (body : Db A) (handler : string → Db A) : Db A := λ w,
  match body w with
  | (Throw e, w') => handler e w'
  | r => r
  end.

Definition ask (q : Query) : Db Store := λ w,
  (Return (store w), mkWorld (store w) (queries w ++ [q])).

Definition putStore (s : Store) : Db unit := λ w, (Return tt, mkWorld s (queries w)).

(** [for (const x of xs) acc = await body(acc, x)]. *)
Fixpoint forOf {A B} (body : B → A → Db B) (xs : list A) (acc : B) : Db B :=
  match xs with
  | [] => mret acc
  | x :: rest => acc' ← body acc x; forOf body rest acc'
  end.

(** *** Product collection *)

(** A [find] without [sort] walks the collection in the order of insertion;
    [_id]s are handed out in increasing order, so that is ascending [_id]. *)
Fixpoint insertById (d : N * Product) (l : list (N * Product)) : list (N * Product) :=
  match l with
  | [] => [d]
  | e :: rest => if (d.1 <? e.1)%N then d :: e :: rest else e :: insertById d rest
  end.

Definition naturalOrder (products : gmap N Product) : list (N * Product) :=
  foldr insertById [] (map_to_list products).

Definition Product_find : Db (list (N * Product)) :=
  s ← ask QProductFind; mret (naturalOrder (st_products s)).

Definition Product_find_priceGt (bound : Q) : Db (list (N * Product)) :=
  s ← ask (QProductFindPriceGt bound);
  mret (filter (λ d, Qltb bound (p_price d.2) = true) (naturalOrder (st_products s))).

Definition Product_findById (id : N) : Db (option Product) :=
  s ← ask (QProductFindById id); mret (st_products s !! id).

Definition Product_save (id : N) (p : Product) : Db unit :=
  s ← ask (QProductSave id);
  if productSchema p
  then putStore (mkStore (<[id := p]> (st_products s)) (st_transactions s) (st_anomalies s)
                   (st_alerts s) (st_nextId s))
  else throw "Product validation failed".

(** *** Transaction collection *)

Definition inWindow (productId : N) (since : Z) (t : Transaction) : Prop :=
  t_productId t = productId ∧ since ≤ t_createdAt t.

#[global] Instance inWindow_dec productId since t : Decision (inWindow productId since t).
Proof. unfold inWindow. apply _. Defined.

Definition Transaction_find (productId : N) (since : Z) : Db (list Transaction) :=
  s ← ask (QTransactionFind productId since);
  mret (filter (inWindow productId since) (st_transactions s)).

(** [.sort({ createdAt: 1 })]: ascending, equal stamps in collection order. *)
Fixpoint insertByCreatedAt (t : Transaction) (l : list Transaction) : list Transaction :=
  match l with
  | [] => [t]
  | u :: rest =>
      if t_createdAt t <? t_createdAt u then t :: u :: rest
      else u :: insertByCreatedAt t rest
  end.

Definition sortByCreatedAt (l : list Transaction) : list Transaction :=
  foldl (λ acc t, insertByCreatedAt t acc) [] l.

(** [new Transaction({...}).save()]: validation, then insertion with a fresh
    [_id] and [createdAt]. *)
Definition Transaction_save (now : Z) (productId : N) (type : string)
    (quantity previousQuantity newQuantity : Z) (reason userId : option string)
    : Db Transaction :=
  s ← ask QTransactionSave;
  let t := mkTransaction (st_nextId s) productId type quantity previousQuantity
             newQuantity reason userId now in
  if transactionSchema t
  then putStore (mkStore (st_products s) (st_transactions s ++ [t]) (st_anomalies s)
                   (st_alerts s) (N.succ (st_nextId s)));; mret t
  else throw "Transaction validation failed".

(** *** Anomaly collection *)

Definition matchesAnomaly (flt : AnomalyFilter) (a : Anomaly) : Prop :=
  a_productId a = f_productId flt ∧ a_type a = f_type flt
  ∧ match f_resolved flt with Some r => a_resolved a = r | None => True end
  ∧ match f_since flt with Some since => since ≤ a_createdAt a | None => True end.

#[global] Instance matchesAnomaly_dec flt a : Decision (matchesAnomaly flt a).
Proof. unfold matchesAnomaly. destruct (f_resolved flt), (f_since flt); apply _. Defined.

Definition Anomaly_findOne (flt : AnomalyFilter) : Db (option Anomaly) :=
  s ← ask (QAnomalyFindOne flt);
  mret (head (filter (matchesAnomaly flt) (st_anomalies s))).

(** [Anomaly.find({ type: { $in: types } }).populate('productId', ...)]:
    each document comes with the product it references, or [null] when the
    reference does not resolve. *)
Definition populate (s : Store) (a : Anomaly) : Anomaly * option (N * Product) :=
  (a, pid ← a_productId a; p ← st_products s !! pid; Some (pid, p)).

Definition Anomaly_find_typeIn (types : list string)
    : Db (list (Anomaly * option (N * Product))) :=
  s ← ask (QAnomalyFindTypes types);
  mret (populate s <$> filter (λ a, a_type a ∈ types) (st_anomalies s)).

Definition toAnomaly (now : Z) (first : N) (i : nat) (c : Candidate) : Anomaly :=
  mkAnomaly (first + N.of_nat i) (c_productId c) (c_type c) (c_severity c)
    (c_description c) now false None (c_aiConfidence c) (c_metadata c) now.

(** [Anomaly.insertMany(docs)] (ordered): every document is validated first;
    one rejection fails the call and nothing is written. *)
Definition Anomaly_insertMany (now : Z) (docs : list Candidate) : Db unit :=
  s ← ask (QAnomalyInsertMany (length docs));
  if forallb anomalySchema docs
  then putStore (mkStore (st_products s) (st_transactions s)
                   (st_anomalies s ++ imap (toAnomaly now (st_nextId s)) docs)
                   (st_alerts s) (st_nextId s + N.of_nat (length docs))%N)
  else throw "Anomaly validation failed".

(** *** Alert collection *)

Definition matchesAlert (type : string) (productId : option N) (since : Z)
    (al : Alert) : Prop :=
  al_type al = type ∧ al_productId al = productId ∧ since ≤ al_createdAt al.

#[global] Instance matchesAlert_dec type productId since al :
  Decision (matchesAlert type productId since al).
Proof. unfold matchesAlert. apply _. Defined.

Definition Alert_findOne (type : string) (productId : option N) (since : Z)
    : Db (option Alert) :=
  s ← ask (QAlertFindOne type productId since);
  mret (head (filter (matchesAlert type productId since) (st_alerts s))).

Definition toAlert (now : Z) (first : N) (i : nat) (d : AlertDraft) : Alert :=
  mkAlert (first + N.of_nat i) (ad_type d) (ad_title d) (ad_message d)
    (ad_severity d) false (ad_productId d) now.

Definition Alert_insertMany (now : Z) (docs : list AlertDraft) : Db unit :=
  s ← ask (QAlertInsertMany (length docs));
  if forallb alertSchema docs
  then putStore (mkStore (st_products s) (st_transactions s) (st_anomalies s)
                   (st_alerts s ++ imap (toAlert now (st_nextId s)) docs)
                   (st_nextId s + N.of_nat (length docs))%N)
  else throw "Alert validation failed".

(** ** Rule engine: [EnhancedAIAnomalyDetector] *)

Definition detectLowStock (pid : N) (product : Product) (anomalies : list Candidate)
    : Db (list Candidate) :=
  tryCatch
    (if p_quantity product <=? p_minimumStock product then
       existingAnomaly ← Anomaly_findOne
         (mkAnomalyFilter (Some pid) "low_stock" (Some false) None);
       match existingAnomaly with
       | None =>
           mret (anomalies ++ [mkCandidate (Some pid) "low_stock"
             (if p_quantity product =? 0 then "critical" else "high")
             ("Stock critically low: " +:+ pretty (p_quantity product)
                +:+ " units remaining")
             (95 # 100)
             (MetaLowStock (p_quantity product) (p_minimumStock product))])
       | Some _ => mret anomalies
       end
     else mret anomalies)
    (λ _, mret anomalies).

Definition detectExpiryWarnings (now : Z) (pid : N) (product : Product)
    (anomalies : list Candidate) : Db (list Candidate) :=
  tryCatch
    (match p_expiryDate product with
     | Some expiryDate =>
         let daysUntilExpiry := ceilDiv (expiryDate - now) DAY_MS in
         if (daysUntilExpiry <=? 30) && (0 <? daysUntilExpiry) then
           existingAnomaly ← Anomaly_findOne
             (mkAnomalyFilter (Some pid) "expiry_warning" (Some false) None);
           match existingAnomaly with
           | None =>
               mret (anomalies ++ [mkCandidate (Some pid) "expiry_warning"
                 (if daysUntilExpiry <=? 7 then "high" else "medium")
                 ("Product expires in " +:+ pretty daysUntilExpiry +:+ " days")
                 (90 # 100)
                 (MetaExpiry daysUntilExpiry expiryDate)])
           | Some _ => mret anomalies
           end
         else mret anomalies
     | None => mret anomalies
     end)
    (λ _, mret anomalies).

(** One turn of the ledger walk of [detectPotentialTheft]: the state is the
    running [calculatedStock] and the [unexplainedLosses] array. *)
Definition ledgerStep (st : Z * list Loss) (transaction : Transaction) : Z * list Loss :=
  let calculatedStock := st.1 + t_quantity transaction in
  let unexplainedLosses :=
    if 0 <? Z.abs (calculatedStock - t_newQuantity transaction) then
      let discrepancy := t_newQuantity transaction - calculatedStock in
      if discrepancy <? -2 then
        st.2 ++ [mkLoss (t_createdAt transaction) calculatedStock
                   (t_newQuantity transaction) (Z.abs discrepancy)
                   (Some (t_id transaction)) None]
      else st.2
    else st.2 in
  (t_newQuantity transaction, unexplainedLosses).

(** The comparison of the live quantity with the last transaction. *)
Definition currentLoss (now : Z) (product : Product) (lastTransaction : Transaction)
    (unexplainedLosses : list Loss) : list Loss :=
  if p_quantity product <? t_newQuantity lastTransaction then
    let currentDiscrepancy := t_newQuantity lastTransaction - p_quantity product in
    if 2 <? currentDiscrepancy then
      unexplainedLosses ++ [mkLoss now (t_newQuantity lastTransaction)
                              (p_quantity product) currentDiscrepancy None
                              (Some "current_discrepancy")]
    else unexplainedLosses
  else unexplainedLosses.

Definition findLosses (now : Z) (product : Product) (first : Transaction)
    (transactions : list Transaction) : list Loss :=
  let walked := foldl ledgerStep (t_previousQuantity first, []) transactions in
  currentLoss now product (List.last transactions first) walked.2.

Definition sumDiscrepancy (unexplainedLosses : list Loss) : Z :=
  foldl (λ sum loss, sum + l_discrepancy loss) 0 unexplainedLosses.

Definition Qmin2 (x y : Q) : Q := if Qle_bool x y then x else y.

Definition calculateTheftConfidence (now : Z) (unexplainedLosses : list Loss)
    (totalLoss : Z) : Q :=
  let confidence := (5 # 10)%Q in
  let confidence :=
    if (2 <? length unexplainedLosses)%nat then (confidence + (1 # 10))%Q else confidence in
  let confidence :=
    if (5 <? length unexplainedLosses)%nat then (confidence + (1 # 10))%Q else confidence in
  let confidence := if 10 <? totalLoss then (confidence + (1 # 10))%Q else confidence in
  let confidence := if 25 <? totalLoss then (confidence + (1 # 10))%Q else confidence in
  let recentLosses := filter (λ loss, now - 7 * DAY_MS < l_date loss) unexplainedLosses in
  let confidence :=
    if (0 <? length recentLosses)%nat then (confidence + (1 # 10))%Q else confidence in
  Qmin2 confidence (95 # 100).

Definition detectPotentialTheft (now : Z) (pid : N) (product : Product)
    (anomalies : list Candidate) : Db (list Candidate) :=
  tryCatch
    (found ← Transaction_find pid (now - 30 * DAY_MS);
     let transactions := sortByCreatedAt found in
     match transactions with
     | [] => mret anomalies
     | first :: _ =>
         let unexplainedLosses := findLosses now product first transactions in
         if (0 <? length unexplainedLosses)%nat then
           let totalLoss := sumDiscrepancy unexplainedLosses in
           let lossValue := jsMul (inject_Z totalLoss) (p_price product) in
           existingAnomaly ← Anomaly_findOne
             (mkAnomalyFilter (Some pid) "potential_theft" (Some false)
                (Some (now - DAY_MS)));
           if bool_decide (is_Some existingAnomaly) && (3 <? totalLoss) then
             mret (anomalies ++ [mkCandidate (Some pid) "potential_theft"
               (if Qltb (500 # 1) lossValue then "critical"
                else if 10 <? totalLoss then "high" else "medium")
               ("Potential theft detected: " +:+ pretty totalLoss +:+ " units ("
                  +:+ toFixed 2 lossValue +:+ " USD) unaccounted for")
               (calculateTheftConfidence now unexplainedLosses totalLoss)
               (MetaTheft totalLoss lossValue (length unexplainedLosses)
                  (take 5 unexplainedLosses))])
           else mret anomalies
         else mret anomalies
     end)
    (λ _, mret anomalies).

Definition sumAbsQuantity (l : list Transaction) : Z :=
  foldl (λ sum t, sum + Z.abs (t_quantity t)) 0 l.

Definition detectShrinkagePatterns (now : Z) (pid : N) (product : Product)
    (anomalies : list Candidate) : Db (list Candidate) :=
  tryCatch
    (found ← Transaction_find pid (now - 90 * DAY_MS);
     let transactions := sortByCreatedAt found in
     if (length transactions <? 10)%nat then mret anomalies
     else
       let sales := filter (λ t, t_type t = "sale") transactions in
       let restocks :=
         filter (λ t, t_type t = "restock" ∨ t_type t = "purchase") transactions in
       let totalSales := sumAbsQuantity sales in
       let totalRestocks := sumAbsQuantity restocks in
       let expectedCurrentStock :=
         default 0 (t_previousQuantity <$> head transactions)
         + totalRestocks - totalSales in
       let actualCurrentStock := p_quantity product in
       let shrinkage := expectedCurrentStock - actualCurrentStock in
       let shrinkageRate := (inject_Z shrinkage / (90 # 1))%Q in
       if Qltb (5 # 10) shrinkageRate && (5 <? shrinkage) then
         existingAnomaly ← Anomaly_findOne
           (mkAnomalyFilter (Some pid) "inventory_shrinkage" None
              (Some (now - 7 * DAY_MS)));
         match existingAnomaly with
         | None =>
             mret (anomalies ++ [mkCandidate (Some pid) "inventory_shrinkage"
               (if Qltb (2 # 1) shrinkageRate then "high" else "medium")
               ("Inventory shrinkage detected: " +:+ toFixed 1 (inject_Z shrinkage)
                  +:+ " units lost over 90 days (" +:+ toFixed 2 shrinkageRate
                  +:+ " units/day)")
               (80 # 100)
               (MetaShrinkage shrinkage shrinkageRate expectedCurrentStock
                  actualCurrentStock totalSales totalRestocks)])
         | Some _ => mret anomalies
         end
       else mret anomalies)
    (λ _, mret anomalies).

(** [new Date(t).getHours()] on a server whose clock runs [tz] milliseconds
    ahead of UTC. *)
Definition getHours (tz t : Z) : nat := Z.to_nat (((t + tz) / HOUR_MS) mod 24).

(** [userId || 'unknown']: an absent or empty actor is booked as unknown. *)
Definition actorOf (t : Transaction) : string :=
  match t_userId t with
  | Some u => if String.eqb u "" then "unknown" else u
  | None => "unknown"
  end.

(** *** The plain object [userActivity]

    [userActivity] is created as [{}], so it inherits from
    [Object.prototype]. A slot holds a number, or the string that [+ 1]
    makes of an inherited member; such a string is no number, and every
    comparison of it with a number is false. *)
Inductive Slot : Type :=
  | Count (n : nat)
  | Text.

(** The property names every object inherits. *)
Definition OBJECT_PROTOTYPE_KEYS : list string :=
  ["constructor"; "__defineGetter__"; "__defineSetter__"; "hasOwnProperty";
   "__lookupGetter__"; "__lookupSetter__"; "isPrototypeOf";
   "propertyIsEnumerable"; "toString"; "valueOf"; "__proto__"; "toLocaleString"].

(** An object is the list of its own properties, in the order of their
    creation. *)
Fixpoint getOwn (o : list (string * Slot)) (key : string) : option Slot :=
  match o with
  | [] => None
  | e :: rest => if String.eqb e.1 key then Some e.2 else getOwn rest key
  end.

(** Assignment to an own property keeps its place; a new one goes last. *)
Fixpoint setOwn (o : list (string * Slot)) (key : string) (v : Slot)
    : list (string * Slot) :=
  match o with
  | [] => [(key, v)]
  | e :: rest =>
      if String.eqb e.1 key then (key, v) :: rest else e :: setOwn rest key v
  end.

(** [o[key] = (o[key] || 0) + 1]. Read through the prototype chain, an
    inherited name gives a function (or, for [__proto__], the prototype
    itself), which is truthy and turns into a string under [+ 1]; the
    assignment makes that string an own property, except under [__proto__],
    whose setter drops whatever is no object. *)
Definition increment (o : list (string * Slot)) (key : string) : list (string * Slot) :=
  match getOwn o key with
  | Some (Count n) => setOwn o key (Count (n + 1))
  | Some Text => setOwn o key Text
  | None =>
      if bool_decide (key ∈ OBJECT_PROTOTYPE_KEYS) then
        if String.eqb key "__proto__" then o else setOwn o key Text
      else setOwn o key (Count 1)
  end.

(** The value of a string of decimal digits. *)
Fixpoint decimal (s : string) (acc : N) : option N :=
  match s with
  | EmptyString => Some acc
  | String c rest =>
      let d := Ascii.N_of_ascii c in
      if (48 <=? d)%N && (d <=? 57)%N then decimal rest (acc * 10 + (d - 48))%N
      else None
  end.

(** An array index: the canonical decimal form of an integer below
    [2^32 - 1]. *)
Definition arrayIndex (key : string) : option N :=
  match key with
  | EmptyString => None
  | String c rest =>
      if Ascii.eqb c "0" && negb (String.eqb rest "") then None
      else
        match decimal key 0 with
        | Some n => if (n <? 2 ^ 32 - 1)%N then Some n else None
        | None => None
        end
  end.

Fixpoint insertByIndex (e : N * (string * Slot)) (l : list (N * (string * Slot)))
    : list (N * (string * Slot)) :=
  match l with
  | [] => [e]
  | f :: rest => if (e.1 <? f.1)%N then e :: f :: rest else f :: insertByIndex e rest
  end.

(** [Object.entries(o)]: the array indices in ascending order, then the
    other names in the order of their creation. *)
Definition entries (o : list (string * Slot)) : list (string * Slot) :=
  let indexed := omap (λ e, match arrayIndex e.1 with
                            | Some i => Some (i, e)
                            | None => None
                            end) o in
  (snd <$> foldr insertByIndex [] indexed)
  ++ filter (λ e, arrayIndex e.1 = None) o.

(** Body of the [forEach] that fills [hourlyActivity] and [userActivity]. *)
Definition accessStep (tz : Z) (st : list nat * list (string * Slot))
    (transaction : Transaction) : list nat * list (string * Slot) :=
  let hour := getHours tz (t_createdAt transaction) in
  let userId := actorOf transaction in
  (alter S hour st.1, increment st.2 userId).

(** [arr.slice(from, to)]. *)
Definition slice {A} (from to : nat) (l : list A) : list A := take (to - from) (drop from l).

Definition afterHoursPattern (totalNightActivity : nat) : Pattern :=
  mkPattern "after_hours_access" None totalNightActivity
    (pretty totalNightActivity +:+ " transactions during non-business hours").

Definition excessivePattern (userId : string) (count : nat) : Pattern :=
  mkPattern "excessive_user_activity" (Some userId) count
    ("User " +:+ userId +:+ " performed " +:+ pretty count
       +:+ " transactions in 7 days").

(** The [forEach] over [Object.entries(userActivity)]; [count > 10] is false
    of a string that is no number. *)
Definition excessiveUsers (unusualPatterns : list Pattern) (entries : list (string * Slot))
    : list Pattern :=
  foldl (λ acc e,
           match e.2 with
           | Count count =>
               if (10 <? count)%nat && negb (String.eqb e.1 "system")
               then acc ++ [excessivePattern e.1 count] else acc
           | Text => acc
           end)
        unusualPatterns entries.

(** Sum of the night slots of [hourlyActivity]: 23h, then 0h to 5h. *)
Definition night (hourlyActivity : list nat) : nat :=
  let nightTransactions := slice 23 24 hourlyActivity ++ slice 0 6 hourlyActivity in
  foldl Nat.add 0%nat nightTransactions.

Definition findPatterns (tz : Z) (transactions : list Transaction) : list Pattern :=
  let activity := foldl (accessStep tz) (replicate 24 0%nat, []) transactions in
  let hourlyActivity := activity.1 in
  let userActivity := activity.2 in
  let totalNightActivity := night hourlyActivity in
  let unusualPatterns :=
    if (2 <? totalNightActivity)%nat then [afterHoursPattern totalNightActivity]
    else [] in
  excessiveUsers unusualPatterns (entries userActivity).

Definition detectUnauthorizedAccess (tz now : Z) (pid : N) (product : Product)
    (anomalies : list Candidate) : Db (list Candidate) :=
  tryCatch
    (transactions ← Transaction_find pid (now - 7 * DAY_MS);
     let unusualPatterns := findPatterns tz transactions in
     if (0 <? length unusualPatterns)%nat then
       existingAnomaly ← Anomaly_findOne
         (mkAnomalyFilter (Some pid) "unauthorized_access_pattern" None
            (Some (now - DAY_MS)));
       match existingAnomaly with
       | None =>
           mret (anomalies ++ [mkCandidate (Some pid) "unauthorized_access_pattern"
             (if existsb (λ p, String.eqb (pt_type p) "after_hours_access") unusualPatterns
              then "high" else "medium")
             ("Unusual access patterns detected: "
                +:+ joinWith ", " (pt_description <$> unusualPatterns))
             (70 # 100)
             (MetaAccess unusualPatterns (length transactions))])
       | Some _ => mret anomalies
       end
     else mret anomalies)
    (λ _, mret anomalies).

Definition suspiciousStep (oneDayAgo : Z) (suspiciousActivity : list Suspicious)
    (doc : N * Product) : Db (list Suspicious) :=
  recentTransactions ← Transaction_find doc.1 oneDayAgo;
  match last recentTransactions with
  | Some lastTransaction =>
      if p_quantity doc.2 <? t_newQuantity lastTransaction then
        let discrepancy := t_newQuantity lastTransaction - p_quantity doc.2 in
        if 0 <? discrepancy then
          mret (suspiciousActivity ++ [mkSuspicious doc.1 (p_name doc.2) discrepancy
                  (inject_Z discrepancy * p_price doc.2)%Q
                  (t_createdAt lastTransaction)])
        else mret suspiciousActivity
      else mret suspiciousActivity
  | None => mret suspiciousActivity
  end.

Definition detectSystemwideTheftPatterns (now : Z) (anomalies : list Candidate)
    : Db (list Candidate) :=
  tryCatch
    (let oneDayAgo := now - DAY_MS in
     highValueProducts ← Product_find_priceGt (100 # 1);
     suspiciousActivity ← forOf (suspiciousStep oneDayAgo) highValueProducts [];
     if (3 <=? length suspiciousActivity)%nat then
       let totalValue := foldl (λ sum item, sum + s_value item)%Q (0 # 1)%Q suspiciousActivity in
       mret (anomalies ++ [mkCandidate None "organized_theft_pattern" "critical"
         ("Potential organized theft: " +:+ pretty (length suspiciousActivity)
            +:+ " high-value items with discrepancies (total value: "
            +:+ toFixed 2 totalValue +:+ ")")
         (85 # 100)
         (MetaOrganized (length suspiciousActivity) totalValue
            (take 10 suspiciousActivity) now)])
     else mret anomalies)
    (λ _, mret anomalies).

(** The five per-product detectors, in the order of the loop body. *)
Definition detectProduct (tz now : Z) (anomalies : list Candidate) (doc : N * Product)
    : Db (list Candidate) :=
  anomalies ← detectLowStock doc.1 doc.2 anomalies;
  anomalies ← detectExpiryWarnings now doc.1 doc.2 anomalies;
  anomalies ← detectPotentialTheft now doc.1 doc.2 anomalies;
  anomalies ← detectShrinkagePatterns now doc.1 doc.2 anomalies;
  detectUnauthorizedAccess tz now doc.1 doc.2 anomalies.

(** The in-memory part of [detectAnomalies]: the candidate batch. *)
Definition collectAnomalies (tz now : Z) : Db (list Candidate) :=
  products ← Product_find;
  anomalies ← forOf (detectProduct tz now) products [];
  detectSystemwideTheftPatterns now anomalies.

Definition detectAnomalies (tz now : Z) : Db (list Candidate) :=
  tryCatch
    (anomalies ← collectAnomalies tz now;
     (if (0 <? length anomalies)%nat then Anomaly_insertMany now anomalies else mret tt);;
     mret anomalies)
    (λ _, mret []).

(** ** Alert generator *)

Definition THEFT_ALERT_TYPES : list string :=
  ["low_stock"; "unusual_pattern"; "expiry_warning"; "high_variance";
   "stock_discrepancy"; "potential_theft"; "unauthorized_access_pattern";
   "security"].

Definition alertStep (now : Z) (alerts : list AlertDraft)
    (doc : Anomaly * option (N * Product)) : Db (list AlertDraft) :=
  let anomaly := doc.1 in
  let productId := fst <$> doc.2 in
  existingAlert ← Alert_findOne "security" productId (now - 2 * HOUR_MS);
  match existingAlert with
  | None =>
      mret (alerts ++ [mkAlertDraft "security"
        ("🚨 SECURITY ALERT: " +:+ titleOfType (a_type anomaly))
        (match doc.2 with
         | Some p => p_name p.2 +:+ ": " +:+ a_description anomaly
         | None => a_description anomaly
         end)
        "error" productId (a_id anomaly) (a_aiConfidence anomaly)
        "theft_prevention"])
  | Some _ => mret alerts
  end.

Definition generateTheftAlerts (now : Z) : Db (list AlertDraft) :=
  tryCatch
    (theftAnomalies ← Anomaly_find_typeIn THEFT_ALERT_TYPES;
     alerts ← forOf (alertStep now) theftAnomalies [];
     (if (0 <? length alerts)%nat then Alert_insertMany now alerts else mret tt);;
     mret alerts)
    (λ _, mret []).

(** The scheduled job and both detection routes: one detection pass, then one
    alert pass. *)
Definition runDetection (tz now : Z) : Db (list Candidate * list AlertDraft) :=
  anomalies ← detectAnomalies tz now;
  alerts ← generateTheftAlerts now;
  mret (anomalies, alerts).

(** [PUT /api/anomalies/:id/resolve]. *)
Definition resolveAnomaly (now : Z) (id : N) (s : Store) : Store :=
  mkStore (st_products s) (st_transactions s)
    ((λ a, if bool_decide (a_id a = id)
           then mkAnomaly (a_id a) (a_productId a) (a_type a) (a_severity a)
                  (a_description a) (a_detectedAt a) true (Some now)
                  (a_aiConfidence a) (a_metadata a) (a_createdAt a)
           else a) <$> st_anomalies s)
    (st_alerts s) (st_nextId s).

(** ** Stock mutator: [POST /api/products/:id/stock] *)

Inductive Response : Type :=
  | StockRecorded (product : Product) (transaction : Transaction) (message : string)
  | ErrorJson (status : nat) (error : string).


Definition quantityChange (type : string) (quantity : Z) : Z :=
  if bool_decide (type = "sale" ∨ type = "expiry" ∨ type = "damage")
  then - Z.abs quantity else Z.abs quantity.

Definition setQuantity (product : Product) (q : Z) : Product :=
  mkProduct (p_name product) (p_category product) q (p_price product)
    (p_expiryDate product) (p_minimumStock product).

Definition headerOr (header : option string) (fallback : string) : string :=
  match header with
  | Some h => if String.eqb h "" then fallback else h
  | None => fallback
  end.

Definition postStock (now : Z) (productId : N) (quantity : Z) (type : string)
    (reason userIdHeader : option string) : Db Response :=
  tryCatch
    (found ← Product_findById productId;
     match found with
     | None => mret (ErrorJson 404 "Product not found")
     | Some product =>
         let previousQuantity := p_quantity product in
         let quantityChange := quantityChange type quantity in
         let newQuantity := Z.max 0 (previousQuantity + quantityChange) in
         transaction ← Transaction_save now productId type quantityChange
           previousQuantity newQuantity reason (Some (headerOr userIdHeader "system"));
         let product := setQuantity product newQuantity in
         Product_save productId product;;
         mret (StockRecorded product transaction
                 ("Stock " +:+ type +:+ " recorded successfully"))
     end)
    (λ e, mret (ErrorJson 400 e)).

(** The same computation in the unmounted fragment [src/routes/products.js]:
    only a sale decreases. *)
Definition quantityChange_fragment (type : string) (quantity : Z) : Z :=
  if bool_decide (type = "sale") then - Z.abs quantity else Z.abs quantity.

(** [stockUpdateValidation] of [src/utils/validation.js]; no route of
    [src/index.js] mounts it. *)
Definition isSpace (c : Ascii.ascii) : bool :=
  let n := Ascii.nat_of_ascii c in ((9 <=? n)%nat && (n <=? 13)%nat) || (n =? 32)%nat.

Fixpoint trimStart (s : string) : string :=
  match s with
  | String c r => if isSpace c then trimStart r else s
  | EmptyString => EmptyString
  end.

Definition trim (s : string) : string :=
  String.rev (trimStart (String.rev (trimStart s))).

Definition stockUpdateValidation (quantity : Z) (type : string) (reason : option string)
    : bool :=
  (1 <=? quantity)
  && bool_decide (type ∈ ["sale"; "restock"; "adjustment"; "expiry"; "damage"])
  && match reason with
     | Some r => (String.length (trim r) <=? 200)%nat
     | None => true
     end.

(** ** Vocabulary of the properties *)

(** What a detector call added to the array it was handed. *)
Definition pushed {A} (before : list A) (call : Db (list A)) (w : World) : list A :=
  match (call w).1 with
  | Return after => drop (length before) after
  | Throw _ => []
  end.

(** The transactions of a product from [since] on, oldest first. *)
Definition ledgerSince (s : Store) (pid : N) (since : Z) : list Transaction :=
  sortByCreatedAt (filter (inWindow pid since) (st_transactions s)).

(** [totalLoss] as the potential-theft detector computes it over the last 30
    days; no transaction, no loss. *)
Definition totalLoss (s : Store) (now : Z) (pid : N) (product : Product) : Z :=
  match ledgerSince s pid (now - 30 * DAY_MS) with
  | [] => 0
  | first :: rest => sumDiscrepancy (findLosses now product first (first :: rest))
  end.

(** An anomaly of the product and type created at or after [since]. *)
Definition recorded (pid : N) (ty : string) (since : Z) (a : Anomaly) : Prop :=
  a_productId a = Some pid ∧ a_type a = ty ∧ since ≤ a_createdAt a.

Definition isOpen (pid : N) (ty : string) (a : Anomaly) : Prop :=
  a_productId a = Some pid ∧ a_type a = ty ∧ a_resolved a = false.

#[global] Instance isOpen_dec pid ty a : Decision (isOpen pid ty a).
Proof. unfold isOpen. apply _. Defined.

Definition openCount (pid : N) (ty : string) (s : Store) : nat :=
  length (filter (isOpen pid ty) (st_anomalies s)).

Definition isFor (pid : N) (ty : string) (c : Candidate) : Prop :=
  c_productId c = Some pid ∧ c_type c = ty.

#[global] Instance isFor_dec pid ty c : Decision (isFor pid ty c).
Proof. unfold isFor. apply _. Defined.

Definition emittedCount (pid : N) (ty : string) (batch : list Candidate) : nat :=
  length (filter (isFor pid ty) batch).

Definition sumZ (l : list Z) : Z := foldr Z.add 0 l.

(** Sum of the magnitudes of the transactions whose type is listed. *)
Definition magnitudeOf (types : list string) (txs : list Transaction) : Z :=
  sumZ ((λ t, Z.abs (t_quantity t)) <$> filter (λ t, t_type t ∈ types) txs).

(** A product as the Product schema admits it: a name of 1 to 100 and a
    category of 1 to 50 characters, a quantity and a price that are not
    negative. Every product the application writes is one. *)
Definition admissible (p : Product) : Prop :=
  (1 ≤ String.length (p_name p) ≤ 100)%nat
  ∧ (1 ≤ String.length (p_category p) ≤ 50)%nat
  ∧ 0 ≤ p_quantity p
  ∧ (0 <= p_price p)%Q.

(** Expected stock in the specification's words: the first transaction's
    previous quantity, plus restocks and purchases, minus sales. *)
Definition specExpectedStock (first : Transaction) (txs : list Transaction) : Z :=
  t_previousQuantity first + magnitudeOf ["restock"; "purchase"] txs
  - magnitudeOf ["sale"] txs.

(** The hour of the day of a time stamp, in the words of the specification:
    the whole hours since the epoch on the server's clock, modulo 24. *)
Definition hourOfDay (tz t : Z) : Z := ((t + tz) `div` 3600000) `mod` 24.

Definition NIGHT_HOURS : list Z := [23; 0; 1; 2; 3; 4; 5].

(** The transactions booked in the night hours. *)
Definition nightCount (tz : Z) (txs : list Transaction) : nat :=
  length (filter (λ t, hourOfDay tz (t_createdAt t) ∈ NIGHT_HOURS) txs).

(** The actor a transaction counts for: its user, or [unknown] when it
    names none. *)
Definition actsAs (t : Transaction) (u : string) : Prop :=
  (t_userId t = Some u ∧ u ≠ "")
  ∨ (u = "unknown" ∧ (t_userId t = None ∨ t_userId t = Some "")).

#[global] Instance actsAs_dec t u : Decision (actsAs t u).
Proof. unfold actsAs. apply _. Defined.

Definition actorCount (u : string) (txs : list Transaction) : nat :=
  length (filter (λ t, actsAs t u) txs).

(** A computation that only reads at [w]: it returns, leaves the store as it
    was and appends to the query log. *)
Definition readsAt {A} (m : Db A) (w : World) (P : A → Prop) : Prop :=
  ∃ a qs, m w = (Return a, mkWorld (store w) (queries w ++ qs)) ∧ P a.

(** What one detector adds for product [pid]: exactly one candidate of its
    own type and of the given shape when its guard holds, nothing otherwise. *)
Definition emitsIff (pid : N) (ty : string) (guard : Prop) (shape : Candidate → Prop)
    (new : list Candidate) : Prop :=
  (guard ∧ ∃ c, new = [c] ∧ isFor pid ty c ∧ shape c) ∨ (¬ guard ∧ new = []).

(** The guards under which the detectors emit. *)
Definition lowStockGuard (s : Store) (pid : N) (product : Product) : Prop :=
  p_quantity product ≤ p_minimumStock product ∧ openCount pid "low_stock" s = 0%nat.

Definition daysUntilExpiry (now expiryDate : Z) : Z := ceilDiv (expiryDate - now) DAY_MS.

Definition expiryGuard (s : Store) (now : Z) (pid : N) (product : Product) : Prop :=
  (∃ expiryDate, p_expiryDate product = Some expiryDate
     ∧ 0 < daysUntilExpiry now expiryDate ≤ 30)
  ∧ openCount pid "expiry_warning" s = 0%nat.

Definition theftGuard (s : Store) (now : Z) (pid : N) (product : Product) : Prop :=
  3 < totalLoss s now pid product
  ∧ ∃ a, a ∈ st_anomalies s ∧ recorded pid "potential_theft" (now - DAY_MS) a
         ∧ a_resolved a = false.

Definition shrinkageOf (product : Product) (txs : list Transaction) : Z :=
  match txs with
  | [] => 0
  | first :: _ => specExpectedStock first txs - p_quantity product
  end.

Definition dailyRate (shrinkage : Z) : Q := (inject_Z shrinkage / (90 # 1))%Q.

Definition shrinkageGuard (s : Store) (now : Z) (pid : N) (product : Product) : Prop :=
  let txs := ledgerSince s pid (now - 90 * DAY_MS) in
  (10 ≤ length txs)%nat
  ∧ ((1 # 2) < dailyRate (shrinkageOf product txs))%Q
  ∧ 5 < shrinkageOf product txs
  ∧ ∀ a, a ∈ st_anomalies s → ¬ recorded pid "inventory_shrinkage" (now - 7 * DAY_MS) a.

Definition accessWindow (s : Store) (now : Z) (pid : N) : list Transaction :=
  filter (inWindow pid (now - 7 * DAY_MS)) (st_transactions s).

Definition accessGuard (s : Store) (tz now : Z) (pid : N) : Prop :=
  findPatterns tz (accessWindow s now pid) ≠ []
  ∧ ∀ a, a ∈ st_anomalies s
      → ¬ recorded pid "unauthorized_access_pattern" (now - DAY_MS) a.

(** Security alerts of one product stamped inside a window. *)
Definition securityAlertsOf (pid : N) (since : Z) (s : Store) : list Alert :=
  filter (matchesAlert "security" (Some pid) since) (st_alerts s).

(** The two types whose detectors look for an open anomaly before emitting. *)
Definition OPEN_CHECKED : list string := ["low_stock"; "expiry_warning"].

(** What the detectors of one loop turn add for product [pid]: candidates of
    that product only, and of an open-checked type at most one, none when an
    open anomaly of the type exists. *)
Definition productPush (s : Store) (pid : N) (new : list Candidate) : Prop :=
  Forall (λ c, c_productId c = Some pid) new
  ∧ ∀ ty, ty ∈ OPEN_CHECKED →
      (emittedCount pid ty new ≤ 1)%nat
      ∧ ((0 < openCount pid ty s)%nat → emittedCount pid ty new = 0%nat).

(** Order of the ledger: not later than. *)
Definition byCreatedAt (a b : Transaction) : Prop := t_createdAt a ≤ t_createdAt b.

(** ** Concrete stores used in the examples *)

Definition NOW : Z := 200 * DAY_MS.

Definition rice : Product :=
  mkProduct "White Rice 1kg" "Grains" 5 (1200 # 1) (Some (NOW + 10 * DAY_MS)) 20.

Definition soap : Product :=
  mkProduct "Soap Bar" "Personal Care" 50 (300 # 1) None 25.

(** One product, low on stock and close to expiry, nothing recorded yet. *)
Definition riceStore : Store := mkStore {[ 1%N := rice ]} [] [] [] 1000.

(** Ten sales of one unit, one per day, out of a starting stock of 200,
    while the shelf holds 50. *)
Definition soapSale (i : nat) : Transaction :=
  mkTransaction (N.of_nat (100 + i)) 2 "sale" (-1) (200 - Z.of_nat i)
    (199 - Z.of_nat i) None (Some "clerk") (NOW - 20 * DAY_MS + Z.of_nat i * DAY_MS).

Definition soapStore : Store :=
  mkStore {[ 2%N := soap ]} (soapSale <$> seq 0 10) [] [] 1000.

(** Twelve sales booked by one clerk at one in the morning. *)
Definition nightSale (i : nat) : Transaction :=
  mkTransaction (N.of_nat (300 + i)) 2 "sale" (-1) (50 + 12 - Z.of_nat i)
    (50 + 11 - Z.of_nat i) None (Some "clerk")
    (NOW - 2 * DAY_MS + HOUR_MS + Z.of_nat i * 1000).

Definition nightStore : Store :=
  mkStore {[ 2%N := soap ]} (nightSale <$> seq 0 12) [] [] 1000.

(** Eleven sales booked under one user id at ten in the morning. *)
Definition daySale (userId : string) (i : nat) : Transaction :=
  mkTransaction (N.of_nat (700 + i)) 2 "sale" (-1) (50 + 11 - Z.of_nat i)
    (50 + 10 - Z.of_nat i) None (Some userId)
    (NOW - 2 * DAY_MS + 10 * HOUR_MS + Z.of_nat i * 1000).

Definition dayStore (userId : string) : Store :=
  mkStore {[ 2%N := soap ]} (daySale userId <$> seq 0 11) [] [] 1000.

(** A sale on record and a shelf ten units short of it, with a theft anomaly
    of the same product already open since the hour before. *)
Definition priorTheft : Anomaly :=
  mkAnomaly 900 (Some 2%N) "potential_theft" "medium" "Potential theft detected"
    (NOW - HOUR_MS) false None (5 # 10) MetaEmpty (NOW - HOUR_MS).

Definition shortSale : Transaction :=
  mkTransaction 400 2 "sale" (-10) 70 60 None (Some "clerk") (NOW - DAY_MS).

Definition shortStore (prior : list Anomaly) : Store :=
  mkStore {[ 2%N := soap ]} [shortSale] prior [] 1000.

(** Two open anomalies of one product, no alert yet. *)
Definition riceLow : Anomaly :=
  mkAnomaly 901 (Some 1%N) "low_stock" "high" "Stock critically low: 5 units remaining"
    (NOW - HOUR_MS) false None (95 # 100) (MetaLowStock 5 20) (NOW - HOUR_MS).

Definition riceExpiry : Anomaly :=
  mkAnomaly 902 (Some 1%N) "expiry_warning" "medium" "Product expires in 10 days"
    (NOW - HOUR_MS) false None (90 # 100) (MetaExpiry 10 (NOW + 10 * DAY_MS))
    (NOW - HOUR_MS).

Definition twoOpenStore : Store :=
  mkStore {[ 1%N := rice ]} [] [riceLow; riceExpiry] [] 1000.

(** The same low-stock anomaly after it was resolved through the route. *)
Definition resolvedStore : Store :=
  resolveAnomaly (NOW - 60000) 901
    (mkStore {[ 1%N := rice ]} [] [riceLow] [] 1000).

(** Both products together: the rice is low on stock, the soap shrinks. *)
Definition mixedStore : Store :=
  mkStore {[ 1%N := rice; 2%N := soap ]} (soapSale <$> seq 0 10) [] [] 1000.

(** ** Further vocabulary: the rule engine *)

(** What [suspiciousStep] adds for one high-value product: an entry when the
    product has a transaction since [oneDayAgo] and its live quantity lies
    below the last of them. *)
Definition suspiciousOf (s : Store) (oneDayAgo : Z) (doc : N * Product) : list Suspicious :=
  match last (filter (inWindow doc.1 oneDayAgo) (st_transactions s)) with
  | Some lastTransaction =>
      if p_quantity doc.2 <? t_newQuantity lastTransaction then
        [mkSuspicious doc.1 (p_name doc.2)
           (t_newQuantity lastTransaction - p_quantity doc.2)
           (inject_Z (t_newQuantity lastTransaction - p_quantity doc.2) * p_price doc.2)%Q
           (t_createdAt lastTransaction)]
      else []
  | None => []
  end.

(** A product priced above 100 whose live quantity lies below the new
    quantity of its last transaction since [oneDayAgo]. *)
Definition isSuspicious (s : Store) (oneDayAgo : Z) (doc : N * Product) : Prop :=
  (100 # 1 < p_price doc.2)%Q
  ∧ ∃ lastTransaction,
      last (filter (inWindow doc.1 oneDayAgo) (st_transactions s)) = Some lastTransaction
      ∧ p_quantity doc.2 < t_newQuantity lastTransaction.

Definition suspects (s : Store) (now : Z) : list (N * Product) :=
  filter (λ doc, Qltb (100 # 1) (p_price doc.2) = true
                 ∧ suspiciousOf s (now - DAY_MS) doc ≠ [])
    (naturalOrder (st_products s)).

(** The severity ladder of the potential-theft detector. *)
Definition theftSeverity (product : Product) (totalLoss : Z) : string :=
  if Qltb (500 # 1) (jsMul (inject_Z totalLoss) (p_price product)) then "critical"
  else if 10 <? totalLoss then "high" else "medium".

Definition THEFT_TYPES : list string := ["inventory_shrinkage"; "organized_theft_pattern"].

(** A candidate the schema takes, or one of the two types it does not know. *)
Definition storable (c : Candidate) : Prop :=
  anomalySchema c = true ∨ c_type c ∈ THEFT_TYPES.

(** ** Further vocabulary: the alert pass *)

(** The alert [alertStep] makes of an anomaly and the product it points to. *)
Definition securityAlertFor (doc : Anomaly * option (N * Product)) : AlertDraft :=
  mkAlertDraft "security"
    ("🚨 SECURITY ALERT: " +:+ titleOfType (a_type doc.1))
    (match doc.2 with
     | Some p => p_name p.2 +:+ ": " +:+ a_description doc.1
     | None => a_description doc.1
     end)
    "error" (fst <$> doc.2) (a_id doc.1) (a_aiConfidence doc.1) "theft_prevention".

(** The product an anomaly counts under: its [productId] when the product
    still exists, [null] otherwise. *)
Definition alertKey (s : Store) (a : Anomaly) : option N := fst <$> (populate s a).2.

(** A security alert under [key] stamped at or after [since]. *)
Definition cooling (s : Store) (since : Z) (key : option N) : Prop :=
  ∃ al, al ∈ st_alerts s ∧ matchesAlert "security" key since al.

#[global] Instance cooling_dec s since key : Decision (cooling s since key).
Proof.
  unfold cooling.
  destruct (decide (Exists (matchesAlert "security" key since) (st_alerts s))) as [H|H].
  - left. by apply Exists_exists in H.
  - right. intros H'. apply H. by apply Exists_exists.
Defined.

(** The anomalies the alert pass reads: those of a listed type. *)
Definition listedAnomalies (s : Store) : list Anomaly :=
  filter (λ a, a_type a ∈ THEFT_ALERT_TYPES) (st_anomalies s).

(** The alerts one pass at [now] synthesizes. *)
Definition alertsDue (s : Store) (now : Z) : list AlertDraft :=
  (λ a, securityAlertFor (populate s a))
  <$> filter (λ a, ¬ cooling s (now - 2 * HOUR_MS) (alertKey s a)) (listedAnomalies s).

(** What [PUT /api/anomalies/:id/resolve] does to one document. *)
Definition markResolved (t : Z) (id : N) (a : Anomaly) : Anomaly :=
  if bool_decide (a_id a = id)
  then mkAnomaly (a_id a) (a_productId a) (a_type a) (a_severity a)
         (a_description a) (a_detectedAt a) true (Some t)
         (a_aiConfidence a) (a_metadata a) (a_createdAt a)
  else a.

(** ** Further vocabulary: the ledger *)

(** The transactions of one product, in collection order. *)
Definition ledgerOf (s : Store) (pid : N) : list Transaction :=
  filter (λ t, t_productId t = pid) (st_transactions s).

(** A transaction as the stock route writes it. *)
Definition routeShaped (t : Transaction) : Prop :=
  t_newQuantity t = Z.max 0 (t_previousQuantity t + t_quantity t).

(** Each transaction starts from the quantity the one before left. *)
Fixpoint chained (previous : Z) (l : list Transaction) : Prop :=
  match l with
  | [] => True
  | t :: rest =>
      t_previousQuantity t = previous ∧ routeShaped t ∧ chained (t_newQuantity t) rest
  end.

(** A product whose ledger was written by the stock route alone, in time
    order, and whose live quantity is the one the last transaction left. *)
Definition consistent (s : Store) (pid : N) (product : Product) : Prop :=
  st_products s !! pid = Some product
  ∧ StronglySorted byCreatedAt (ledgerOf s pid)
  ∧ match ledgerOf s pid with
    | [] => True
    | first :: rest =>
        chained (t_previousQuantity first) (first :: rest)
        ∧ p_quantity product = t_newQuantity (List.last rest first)
    end.

(** ** The theft route: [POST /api/ai/detect-theft] *)

Record Recommendation := mkRecommendation {
  r_priority : string;
  r_action : string;
  r_product : option N;
  r_details : string
}.

(** One turn of the [forEach] in [generateTheftRecommendations]: the
    [switch] on the anomaly type. *)
Definition recommendationStep (recommendations : list Recommendation)
    (anomaly : Candidate) : list Recommendation :=
  if String.eqb (c_type anomaly) "security" then
    recommendations ++ [mkRecommendation "high"
      "Investigate immediate stock discrepancy" (c_productId anomaly)
      "Check security cameras, verify recent transactions, conduct physical inventory count"]
  else if String.eqb (c_type anomaly) "potential_theft" then
    recommendations ++ [mkRecommendation "high"
      "Investigate immediate stock discrepancy" (c_productId anomaly)
      "Check security cameras, verify recent transactions, conduct physical inventory count"]
  else if String.eqb (c_type anomaly) "inventory_shrinkage" then
    recommendations ++ [mkRecommendation "medium"
      "Implement enhanced inventory controls" (c_productId anomaly)
      "Consider more frequent audits, improve access controls, review handling procedures"]
  else if String.eqb (c_type anomaly) "unauthorized_access_pattern" then
    recommendations ++ [mkRecommendation "high"
      "Review user access and security protocols" (c_productId anomaly)
      "Audit user permissions, check after-hours access logs, enhance authentication"]
  else if String.eqb (c_type anomaly) "organized_theft_pattern" then
    recommendations ++ [mkRecommendation "critical"
      "Alert security/management immediately" None
      "Potential organized theft detected across multiple high-value items - requires immediate investigation"]
  else recommendations.

Definition generateTheftRecommendations (theftAnomalies : list Candidate)
    : list Recommendation :=
  foldl recommendationStep [] theftAnomalies.

Definition REPORTED_THEFT_TYPES : list string :=
  ["potential_theft"; "inventory_shrinkage"; "unauthorized_access_pattern";
   "organized_theft_pattern"].

Record TheftReport := mkTheftReport {
  tr_totalAnomaliesDetected : nat;
  tr_theftAnomaliesDetected : nat;
  tr_alertsGenerated : nat;
  tr_theftAnomalies : list Candidate;
  tr_recommendedActions : list Recommendation
}.

Definition postDetectTheft (tz now : Z) : Db TheftReport :=
  anomalies ← detectAnomalies tz now;
  theftAlerts ← generateTheftAlerts now;
  let theftAnomalies := filter (λ a, c_type a ∈ REPORTED_THEFT_TYPES) anomalies in
  mret (mkTheftReport (length anomalies) (length theftAnomalies) (length theftAlerts)
          theftAnomalies (generateTheftRecommendations theftAnomalies)).

(** ** Theft analytics: [GET /api/analytics/theft] *)

Record HighRisk := mkHighRisk {
  hr_productId : N;
  hr_productName : string;
  hr_incidentCount : nat;
  hr_category : string
}.

Record TheftAnalytics := mkTheftAnalytics {
  ta_totalIncidents : nat;
  ta_resolvedIncidents : nat;
  ta_activeIncidents : Z;
  ta_estimatedLoss : Q;
  ta_highRiskProducts : list HighRisk;
  ta_recentIncidents : list (Anomaly * option (N * Product));
  ta_analysisWindow : string
}.

(** [metadata.estimatedValue || metadata.totalValue || 0]. *)
Definition lossValueOf (m : Metadata) : Q :=
  match m with
  | MetaTheft _ estimatedValue _ _ => estimatedValue
  | MetaOrganized _ totalValue _ _ => totalValue
  | _ => (0 # 1)%Q
  end.

(** The [forEach] that fills [productRisk]. *)
Definition riskStep (productRisk : gmap N nat) (doc : Anomaly * option (N * Product))
    : gmap N nat :=
  match doc.2 with
  | Some p => <[p.1 := (default 0%nat (productRisk !! p.1) + 1)%nat]> productRisk
  | None => productRisk
  end.

(** [Object.entries(productRisk).filter(...).map(...)]. *)
Definition highRiskOf (theftAnomalies : list (Anomaly * option (N * Product)))
    (entry : N * nat) : list HighRisk :=
  if (1 <? entry.2)%nat then
    match head (filter (λ a, fst <$> a.2 = Some entry.1) theftAnomalies) with
    | Some a =>
        match a.2 with
        | Some p => [mkHighRisk entry.1 (p_name p.2) entry.2 (p_category p.2)]
        | None => []
        end
    | None => []
    end
  else [].

(** The handler; [days] is the query parameter read as an integer (30 when
    absent). Its one query is logged with the type list it filters on. *)
Definition getTheftAnalytics (days now : Z) : Db TheftAnalytics :=
  let startDate := now - days * DAY_MS in
  s ← ask (QAnomalyFindTypes THEFT_ALERT_TYPES);
  let theftAnomalies :=
    populate s <$> filter (λ a, a_type a ∈ THEFT_ALERT_TYPES ∧ startDate ≤ a_createdAt a)
                     (st_anomalies s) in
  let totalIncidents := length theftAnomalies in
  let resolvedIncidents := length (filter (λ a, a_resolved a.1 = true) theftAnomalies) in
  let estimatedLoss :=
    foldl (λ total anomaly, total + lossValueOf (a_metadata anomaly.1))%Q (0 # 1)%Q
      theftAnomalies in
  let productRisk := foldl riskStep ∅ theftAnomalies in
  let highRiskProducts := map_to_list productRisk ≫= highRiskOf theftAnomalies in
  mret (mkTheftAnalytics totalIncidents resolvedIncidents
          (Z.of_nat totalIncidents - Z.of_nat resolvedIncidents) estimatedLoss
          highRiskProducts (take 10 theftAnomalies) (pretty days +:+ " days")).

(** The incidents of the window: listed type, created since the start. *)
Definition incidents (s : Store) (since : Z) : list Anomaly :=
  filter (λ a, a_type a ∈ THEFT_ALERT_TYPES ∧ since ≤ a_createdAt a) (st_anomalies s).

(** ** The earlier rule engine: [AIAnomalyDetector.analyzeTransactionPattern]
    ([routes/analytics.js]) *)

Inductive PatternMetadata : Type :=
  | MetaLargeSales (largeSalesCount : nat) (avgSaleQuantity : Q) (maxSaleQuantity : Z)
  | MetaFrequency (transactionCount : nat) (period : string).

(** The verdict object when [isUnusual] is [true]. *)
Record Verdict := mkVerdict {
  vd_severity : string;
  vd_description : string;
  vd_confidence : Q;
  vd_metadata : PatternMetadata
}.

(** [Math.max(...l)] on a list that is not empty. *)
Definition maxOf (l : list Z) : Z :=
  match l with
  | [] => 0
  | x :: l => foldl Z.max x l
  end.

Definition isSale (t : Transaction) : bool := String.eqb (t_type t) "sale".

(** [sales.reduce(...) / sales.length]; over no sales the source divides zero
    by zero and every later comparison with the result is false, as it is
    here with [0 / 0 = 0] over the empty list. *)
Definition avgSaleQuantityOf (sales : list Transaction) : Q :=
  let total := foldl (λ sum t, sum + Z.abs (t_quantity t)) 0 sales in
  (inject_Z total / inject_Z (Z.of_nat (length sales)))%Q.

Definition isLargeSale (avgSaleQuantity : Q) (t : Transaction) : bool :=
  Qltb (avgSaleQuantity * (3 # 1))%Q (inject_Z (Z.abs (t_quantity t))).

(** [None] is the verdict [{ isUnusual: false }]. *)
Definition analyzeTransactionPattern (transactions : list Transaction) : option Verdict :=
  let sales := List.filter isSale transactions in
  let avgSaleQuantity := avgSaleQuantityOf sales in
  let largeSales := List.filter (isLargeSale avgSaleQuantity) sales in
  if (0 <? length largeSales)%nat then
    Some (mkVerdict "medium"
            ("Unusual sales pattern detected: " +:+ pretty (length largeSales)
             +:+ " unusually large transactions")
            (3 # 4)
            (MetaLargeSales (length largeSales) avgSaleQuantity
               (maxOf ((λ t, Z.abs (t_quantity t)) <$> largeSales))))
  else if (10 <? length transactions)%nat then
    Some (mkVerdict "low"
            ("High transaction frequency: " +:+ pretty (length transactions)
             +:+ " transactions in 7 days")
            (3 # 5)
            (MetaFrequency (length transactions) "7 days"))
  else None.

(** ** Further concrete stores used in the examples *)

(** Three products priced above 100, each five units short of what its last
    transaction of the day left. *)
Definition watch (name : string) : Product :=
  mkProduct name "Accessories" 5 (250 # 1) None 2.

Definition watchSale (i : nat) : Transaction :=
  mkTransaction (N.of_nat (500 + i)) (N.of_nat (10 + i)) "sale" (-1) 11 10 None
    (Some "clerk") (NOW - HOUR_MS).

Definition heistStore : Store :=
  mkStore {[ 10%N := watch "Watch A"; 11%N := watch "Watch B"; 12%N := watch "Watch C" ]}
    (watchSale <$> seq 0 3) [] [] 1000.

(** An open anomaly of each of two products; the soap was alerted ninety
    minutes ago, the rice was not. *)
Definition soapLow : Anomaly :=
  mkAnomaly 903 (Some 2%N) "low_stock" "high" "Stock critically low: 50 units remaining"
    (NOW - 2 * HOUR_MS) false None (95 # 100) (MetaLowStock 50 60) (NOW - 2 * HOUR_MS).

Definition soapAlert : Alert :=
  mkAlert 950 "security" "🚨 SECURITY ALERT: LOW STOCK"
    "Soap Bar: Stock critically low: 50 units remaining" "error" false (Some 2%N)
    (NOW - HOUR_MS - 30 * 60000).

Definition staggeredStore : Store :=
  mkStore {[ 1%N := rice; 2%N := soap ]} [] [riceLow; soapLow] [soapAlert] 1000.

(** Three sales of one unit and one of a hundred, with a restock between. *)
Definition fourSales : list Transaction :=
  [mkTransaction 600 2 "sale" (-1) 200 199 None None (NOW - 5 * DAY_MS);
   mkTransaction 601 2 "sale" (-1) 199 198 None None (NOW - 4 * DAY_MS);
   mkTransaction 602 2 "restock" 10 198 208 None None (NOW - 3 * DAY_MS);
   mkTransaction 603 2 "sale" (-1) 208 207 None None (NOW - 2 * DAY_MS);
   mkTransaction 604 2 "sale" (-100) 207 107 None None (NOW - DAY_MS)].

(** A product stored with a name of 101 characters. *)
Definition crate : Product :=
  mkProduct (String.concat "" (replicate 101 "x")) "Grains" 5 (10 # 1) None 2.

Definition crateStore : Store := mkStore {[ 3%N := crate ]} [] [] [] 1000.

(** * Proofs *)

Ltac db_unfold :=
  unfold Product_findById, Product_save, Product_find, Product_find_priceGt,
    Transaction_find, Transaction_save, Anomaly_findOne, Anomaly_find_typeIn,
    Anomaly_insertMany, Alert_findOne, Alert_insertMany,
    tryCatch, throw, ask, putStore, mbind, mret, Db_bind, Db_ret.



Lemma productSchema_setQuantity product q :
  productSchema product = true → 0 ≤ q → productSchema (setQuantity product q) = true.
Proof.
  unfold productSchema, setQuantity. simpl. intros H Hq.
  repeat (apply andb_prop in H as [H ?]).
  repeat (apply andb_true_intro; split); auto. by apply Z.leb_le.
Qed.

Lemma requiredString_length s : requiredString s = true ↔ (1 ≤ String.length s)%nat.
Proof.
  unfold requiredString. destruct s as [|c s]; simpl; [split; [done|lia]|].
  split; [lia|done].
Qed.

(** The Product schema, validator by validator. *)
Lemma productSchema_admissible product :
  productSchema product = true ↔ admissible product.
Proof.
  unfold productSchema, admissible, maxlength.
  rewrite !andb_true_iff, !requiredString_length, !Nat.leb_le, Z.leb_le, Qle_bool_iff.
  tauto.
Qed.


(** * Rounding to double precision *)

Lemma pow2_pos (e : Z) : (0 < (2 # 1) ^ e)%Q.
Proof. by apply Qpower_0_lt. Qed.

Lemma pow2_add (a b : Z) : ((2 # 1) ^ (a + b) == (2 # 1) ^ a * (2 # 1) ^ b)%Q.
Proof. by apply Qpower_plus. Qed.

Lemma pow2_succ (a : Z) : ((2 # 1) ^ (a + 1) == 2 * (2 # 1) ^ a)%Q.
Proof. rewrite pow2_add. change ((2 # 1) ^ 1)%Q with (2 # 1)%Q. ring. Qed.

Lemma pow2_mono (a b : Z) : a ≤ b → ((2 # 1) ^ a <= (2 # 1) ^ b)%Q.
Proof. intros Hab. by apply Qpower_le_compat_l. Qed.

Lemma pow2_Z (k : Z) : 0 ≤ k → ((2 # 1) ^ k == inject_Z (2 ^ k))%Q.
Proof. intros Hk. by rewrite Zpower_Qpower. Qed.

Lemma Qfloor_ge (n : Z) (y : Q) : (inject_Z n <= y)%Q → n ≤ Qfloor y.
Proof. intros H. rewrite <- (Qfloor_Z n). by apply Qfloor_resp_le. Qed.

Lemma Qfloor_lt (n : Z) (y : Q) : (y < inject_Z n)%Q → Qfloor y < n.
Proof.
  intros H. pose proof (Qfloor_le y) as Hf.
  assert (inject_Z (Qfloor y) < inject_Z n)%Q as Hlt by lra.
  by rewrite <- Zlt_Qlt in Hlt.
Qed.

Lemma roundHalfEven_bounds (y : Q) : Qfloor y ≤ roundHalfEven y ≤ Qfloor y + 1.
Proof.
  unfold roundHalfEven. cbv zeta.
  destruct (_ ?= _)%Q; [destruct (Z.even _)|..]; lia.
Qed.

Lemma roundHalfEven_ge (n : Z) (y : Q) : (inject_Z n <= y)%Q → n ≤ roundHalfEven y.
Proof.
  intros H. pose proof (Qfloor_ge n y H). pose proof (roundHalfEven_bounds y). lia.
Qed.

Lemma roundHalfEven_le (n : Z) (y : Q) : (y <= inject_Z n)%Q → roundHalfEven y ≤ n.
Proof.
  intros H. pose proof (roundHalfEven_bounds y) as Hb.
  destruct (Qlt_le_dec y (inject_Z n)) as [Hlt|Hge].
  - pose proof (Qfloor_lt n y Hlt). lia.
  - assert (y == inject_Z n)%Q as Hy by lra.
    assert (Qfloor y = n) as Hf by (rewrite (Qfloor_comp _ _ Hy); apply Qfloor_Z).
    unfold roundHalfEven. cbv zeta. rewrite Hf.
    assert ((y - inject_Z n ?= 1 # 2)%Q = Lt) as -> by (apply (proj1 (Qlt_alt _ _)); lra).
    lia.
Qed.

(** Above an even integer the rounding leaves it only past the half. *)
Lemma roundHalfEven_gt_even (n : Z) (y : Q) :
  Z.even n = true → n < roundHalfEven y ↔ (inject_Z n + (1 # 2) < y)%Q.
Proof.
  intros Heven. pose proof (roundHalfEven_bounds y) as Hb.
  pose proof (Qfloor_le y) as Hlo. pose proof (Qlt_floor y) as Hhi.
  rewrite inject_Z_plus in Hhi. change (inject_Z 1) with 1%Q in Hhi.
  split.
  - intros Hn. destruct (decide (Qfloor y = n)) as [Hf|Hf].
    + revert Hn. unfold roundHalfEven. cbv zeta. rewrite Hf.
      destruct (y - inject_Z n ?= 1 # 2)%Q eqn:Hc.
      * rewrite Heven. lia.
      * lia.
      * intros _. apply (proj2 (Qgt_alt _ _)) in Hc. lra.
    + assert (n + 1 ≤ Qfloor y) as Hge by lia.
      rewrite Zle_Qle, inject_Z_plus in Hge. change (inject_Z 1) with 1%Q in Hge. lra.
  - intros Hy. assert (n ≤ Qfloor y) as Hge by (apply Qfloor_ge; lra).
    destruct (decide (Qfloor y = n)) as [Hf|Hf]; [|lia].
    unfold roundHalfEven. cbv zeta. rewrite Hf.
    assert ((y - inject_Z n ?= 1 # 2)%Q = Gt) as -> by (apply (proj1 (Qgt_alt _ _)); lra).
    lia.
Qed.

Lemma binade_spec (x : Q) :
  (0 < x)%Q → ((2 # 1) ^ binade x <= x)%Q ∧ (x < (2 # 1) ^ (binade x + 1))%Q.
Proof.
  intros Hx. destruct x as [n d]. unfold binade. cbn [Qnum Qden].
  assert (0 < n) as Hn by (unfold Qlt in Hx; simpl in Hx; lia).
  set (ln := Z.log2 n). set (ld := Z.log2 (Z.pos d)).
  destruct (Z.log2_spec n Hn) as [Hn1 Hn2]. fold ln in Hn1, Hn2.
  destruct (Z.log2_spec (Z.pos d) ltac:(lia)) as [Hd1 Hd2]. fold ld in Hd1, Hd2.
  assert (0 ≤ ln) as Hln by apply Z.log2_nonneg.
  assert (0 ≤ ld) as Hld by apply Z.log2_nonneg.
  assert ((2 # 1) ^ ln <= inject_Z n)%Q as Qn1.
  { rewrite pow2_Z by done. by rewrite <- Zle_Qle. }
  assert (inject_Z n < 2 * (2 # 1) ^ ln)%Q as Qn2.
  { rewrite <- pow2_succ, pow2_Z by lia. rewrite <- Zlt_Qlt.
    by replace (ln + 1) with (Z.succ ln) by lia. }
  assert ((2 # 1) ^ ld <= inject_Z (Z.pos d))%Q as Qd1.
  { rewrite pow2_Z by done. by rewrite <- Zle_Qle. }
  assert (inject_Z (Z.pos d) < 2 * (2 # 1) ^ ld)%Q as Qd2.
  { rewrite <- pow2_succ, pow2_Z by lia. rewrite <- Zlt_Qlt.
    by replace (ld + 1) with (Z.succ ld) by lia. }
  set (k := ln - ld).
  assert ((2 # 1) ^ ln == (2 # 1) ^ k * (2 # 1) ^ ld)%Q as Hk.
  { rewrite <- pow2_add. by replace (k + ld) with ln by (unfold k; lia). }
  pose proof (pow2_pos k) as Pk. pose proof (pow2_pos ld) as Pld.
  assert (n # d == inject_Z n / inject_Z (Z.pos d))%Q as Hq by apply Qmake_Qdiv.
  assert (0 < inject_Z (Z.pos d))%Q as Dpos by lra.
  set (P := ((2 # 1) ^ k)%Q) in *. set (B := ((2 # 1) ^ ld)%Q) in *.
  set (A := ((2 # 1) ^ ln)%Q) in *.
  set (N := inject_Z n) in *. set (D := inject_Z (Z.pos d)) in *.
  assert (N == (n # d) * D)%Q as HN.
  { rewrite Hq. field. lra. }
  (* the two outer bounds *)
  assert ((n # d) < 2 * P)%Q as Hup.
  { apply (Qmult_lt_r _ _ D Dpos). rewrite <- HN.
    assert (P * B <= P * D)%Q by (apply Qmult_le_l; lra). lra. }
  assert (P <= 2 * (n # d))%Q as Hdown.
  { apply (Qmult_le_r _ _ D Dpos).
    assert (2 * (n # d) * D == 2 * N)%Q as -> by (rewrite HN; ring).
    assert (P * D < P * (2 * B))%Q by (apply Qmult_lt_l; lra). lra. }
  destruct (Qle_bool P (n # d)) eqn:Hb.
  - apply Qle_bool_iff in Hb. split; [done|]. by rewrite pow2_succ.
  - assert ((n # d) < P)%Q as Hlt.
    { apply Qnot_le_lt. intros Hle. apply Qle_bool_iff in Hle. congruence. }
    assert (P == 2 * (2 # 1) ^ (k - 1))%Q as HP.
    { rewrite <- pow2_succ. unfold P. by replace (k - 1 + 1) with k by lia. }
    split.
    + lra.
    + replace (k - 1 + 1) with k by lia. done.
Qed.

(** What rounds above 500: 500 is a double with an even significand, and
    the doubles next to it are [2^-44] apart. *)
Lemma toDouble_above_500 (x : Q) :
  (500 < toDouble x)%Q ↔ (500 + (1 # 35184372088832) < x)%Q.
Proof.
  unfold toDouble.
  destruct (Qeq_bool x 0) eqn:Hzero.
  { apply Qeq_bool_iff in Hzero. split; intros H; exfalso; lra. }
  assert (¬ x == 0)%Q as Hx0 by (by apply Qeq_bool_neq).
  cbv zeta.
  set (a := Qabs x). set (e0 := binade a). set (e := Z.max e0 (-1022)).
  set (U := ((2 # 1) ^ (e - 52))%Q). set (m := roundHalfEven (a / U)).
  assert (0 < a)%Q as Ha.
  { unfold a. apply Qabs_case; intros Hs.
    - destruct (Qlt_le_dec 0 x) as [?|Hle]; [done|]. exfalso. apply Hx0. lra.
    - destruct (Qlt_le_dec 0 (- x)) as [?|Hle]; [done|]. exfalso. apply Hx0. lra. }
  assert (0 < U)%Q as HU by apply pow2_pos.
  assert (a / U * U == a)%Q as Hy by (field; lra).
  assert (0 ≤ m) as Hm.
  { apply roundHalfEven_ge. change (inject_Z 0) with 0%Q.
    apply Qle_shift_div_l; [done|]. lra. }
  assert (0 <= inject_Z m * U)%Q as Hval.
  { apply Qmult_le_0_compat; [|lra]. change 0%Q with (inject_Z 0).
    by rewrite <- Zle_Qle. }
  destruct (Qle_bool 0 x) eqn:Hsign.
  2:{ assert (x < 0)%Q as Hneg.
      { apply Qnot_le_lt. intros Hle. apply Qle_bool_iff in Hle. congruence. }
      split; intros H; exfalso; lra. }
  apply Qle_bool_iff in Hsign.
  assert (a == x)%Q as Hax by (unfold a; by apply Qabs_pos).
  rewrite <- Hax.
  destruct (binade_spec a Ha) as [Hlo Hhi]. fold e0 in Hlo, Hhi.
  assert ((2 # 1) ^ e == inject_Z 4503599627370496 * U)%Q as He.
  { unfold U. change (inject_Z 4503599627370496) with ((2 # 1) ^ 52)%Q.
    rewrite <- pow2_add. by replace (52 + (e - 52)) with e by lia. }
  destruct (Z_lt_le_dec e0 8) as [Hlow|Hge8].
  - (* below 256 *)
    assert (e ≤ 7) as He7 by (unfold e; lia).
    assert (e0 + 1 ≤ e + 1) as Hee by (unfold e; lia).
    pose proof (pow2_mono _ _ Hee) as Hmono.
    pose proof (pow2_mono (e + 1) 8 ltac:(lia)) as H256.
    change ((2 # 1) ^ 8)%Q with 256%Q in H256.
    pose proof (pow2_succ e) as Hse.
    assert (m ≤ 9007199254740992) as Hmax.
    { apply roundHalfEven_le. apply Qle_shift_div_r; [done|].
      change (inject_Z 9007199254740992) with (2 * inject_Z 4503599627370496)%Q. lra. }
    assert (inject_Z m * U <= inject_Z 9007199254740992 * U)%Q as Hle.
    { apply Qmult_le_compat_r; [by rewrite <- Zle_Qle|lra]. }
    change (inject_Z 9007199254740992) with (2 * inject_Z 4503599627370496)%Q in Hle.
    split; intros H; exfalso; lra.
  - destruct (Z_lt_le_dec 8 e0) as [Hhigh|Hle8].
    + (* from 512 on *)
      assert (e = e0) as Hee by (unfold e; lia).
      pose proof (pow2_mono 9 e0 ltac:(lia)) as H512.
      change ((2 # 1) ^ 9)%Q with 512%Q in H512.
      rewrite <- Hee in Hlo, H512.
      assert (4503599627370496 ≤ m) as Hmin.
      { apply roundHalfEven_ge. apply Qle_shift_div_l; [done|]. lra. }
      assert (inject_Z 4503599627370496 * U <= inject_Z m * U)%Q as Hle.
      { apply Qmult_le_compat_r; [by rewrite <- Zle_Qle|lra]. }
      split; intros _; lra.
    + (* between 256 and 512 *)
      assert (e0 = 8) as He0 by lia.
      assert (U == 1 # 17592186044416)%Q as HUv.
      { unfold U, e. rewrite He0. reflexivity. }
      assert ((500 < inject_Z m * U)%Q ↔ 8796093022208000 < m) as ->.
      { rewrite HUv. rewrite Zlt_Qlt.
        change (inject_Z 8796093022208000) with (500 * 17592186044416)%Q.
        split; intros H; lra. }
      unfold m. rewrite roundHalfEven_gt_even by reflexivity.
      assert (a / U == a * 17592186044416)%Q as -> by (rewrite HUv; field).
      change (inject_Z 8796093022208000) with (500 * 17592186044416)%Q.
      split; intros H; lra.
Qed.

(** The double nearest to 500/7 times 7 is 500. *)
Example jsMul_rounds_to_500 :
  toDouble (500 # 7) = (5026338869833143 # 70368744177664)%Q
  ∧ (jsMul 7 (toDouble (500 # 7)) == 500)%Q
  ∧ (500 < 7 * toDouble (500 # 7))%Q.
Proof. by vm_compute. Qed.

(** ** The ledger order *)

Lemma insertByCreatedAt_Permutation t l : insertByCreatedAt t l ≡ₚ t :: l.
Proof.
  induction l as [|u l IH]; simpl; [done|].
  destruct (t_createdAt t <? t_createdAt u); [done|].
  rewrite IH. apply Permutation_swap.
Qed.

Lemma sortByCreatedAt_from acc l :
  foldl (λ acc t, insertByCreatedAt t acc) acc l ≡ₚ acc ++ l.
Proof.
  revert acc. induction l as [|t l IH]; intros acc; simpl.
  - by rewrite app_nil_r.
  - rewrite IH, insertByCreatedAt_Permutation. simpl. apply Permutation_middle.
Qed.

Lemma sortByCreatedAt_Permutation l : sortByCreatedAt l ≡ₚ l.
Proof. unfold sortByCreatedAt. by rewrite sortByCreatedAt_from. Qed.

Lemma insertByCreatedAt_sorted t l :
  StronglySorted byCreatedAt l → StronglySorted byCreatedAt (insertByCreatedAt t l).
Proof.
  induction 1 as [|u l Hl IH Hu]; simpl.
  - repeat constructor.
  - destruct (Z.ltb_spec (t_createdAt t) (t_createdAt u)) as [Hlt|Hge].
    + constructor; [by constructor|]. constructor; [unfold byCreatedAt; lia|].
      eapply Forall_impl; [exact Hu|]. unfold byCreatedAt. intros; lia.
    + constructor; [done|]. rewrite insertByCreatedAt_Permutation.
      constructor; [done|done].
Qed.

Lemma sortByCreatedAt_sorted l : StronglySorted byCreatedAt (sortByCreatedAt l).
Proof.
  unfold sortByCreatedAt.
  assert (∀ acc, StronglySorted byCreatedAt acc →
            StronglySorted byCreatedAt (foldl (λ acc t, insertByCreatedAt t acc) acc l))
    as Hgen; [|apply Hgen; constructor].
  induction l as [|t l IH]; intros acc Hacc; simpl; [done|].
  apply IH. by apply insertByCreatedAt_sorted.
Qed.

(** The ledger of a window holds the window's transactions, all of them and
    nothing else, oldest first. *)
Lemma ledgerSince_spec s pid since :
  ledgerSince s pid since ≡ₚ filter (inWindow pid since) (st_transactions s)
  ∧ StronglySorted byCreatedAt (ledgerSince s pid since).
Proof.
  unfold ledgerSince. split;
    [apply sortByCreatedAt_Permutation|apply sortByCreatedAt_sorted].
Qed.

(** The natural order lists the collection, each document once. *)
Lemma insertById_Permutation d l : insertById d l ≡ₚ d :: l.
Proof.
  induction l as [|e l IH]; simpl; [done|].
  destruct (d.1 <? e.1)%N; [done|]. rewrite IH. apply Permutation_swap.
Qed.

Lemma naturalOrder_Permutation (products : gmap N Product) :
  naturalOrder products ≡ₚ map_to_list products.
Proof.
  unfold naturalOrder. induction (map_to_list products) as [|d l IH]; simpl; [done|].
  by rewrite insertById_Permutation, IH.
Qed.

Lemma elem_of_naturalOrder (products : gmap N Product) (doc : N * Product) :
  doc ∈ naturalOrder products ↔ products !! doc.1 = Some doc.2.
Proof. by rewrite naturalOrder_Permutation, elem_of_map_to_list'. Qed.

Lemma NoDup_fst_naturalOrder (products : gmap N Product) :
  NoDup (naturalOrder products).*1.
Proof. rewrite naturalOrder_Permutation. apply NoDup_fst_map_to_list. Qed.

Lemma insertById_sorted d l :
  StronglySorted (λ a b, (a.1 ≤ b.1)%N) l →
  StronglySorted (λ a b, (a.1 ≤ b.1)%N) (insertById d l).
Proof.
  induction 1 as [|e l Hl IH He]; simpl; [repeat constructor|].
  destruct (N.ltb_spec d.1 e.1) as [Hlt|Hge].
  - constructor; [by constructor|]. constructor; [lia|].
    eapply Forall_impl; [exact He|]. intros x Hx. simpl in *. lia.
  - constructor; [done|]. rewrite insertById_Permutation. by constructor.
Qed.

Lemma naturalOrder_sorted (products : gmap N Product) :
  StronglySorted (λ a b, (a.1 ≤ b.1)%N) (naturalOrder products).
Proof.
  unfold naturalOrder. induction (map_to_list products) as [|d l IH]; simpl.
  - constructor.
  - by apply insertById_sorted.
Qed.

(** ** Reasoning about read-only computations *)

Lemma readsAt_ret {A} (a : A) (w : World) (P : A → Prop) : P a → readsAt (mret a) w P.
Proof.
  intros HP. exists a, []. split; [|done].
  destruct w. unfold mret, Db_ret. simpl. by rewrite app_nil_r.
Qed.

Lemma readsAt_bind {A B} (m : Db A) (f : A → Db B) (w : World)
    (P : A → Prop) (Q : B → Prop) :
  readsAt m w P →
  (∀ a w', store w' = store w → P a → readsAt (f a) w' Q) →
  readsAt (m ≫= f) w Q.
Proof.
  intros (a & qs & Hm & HP) Hf.
  destruct (Hf a (mkWorld (store w) (queries w ++ qs)) eq_refl HP)
    as (b & qs' & Hb & HQ).
  exists b, (qs ++ qs'). split; [|done].
  unfold mbind, Db_bind. rewrite Hm, Hb. simpl. by rewrite app_assoc.
Qed.

Lemma readsAt_mono {A} (m : Db A) (w : World) (P Q : A → Prop) :
  readsAt m w P → (∀ a, P a → Q a) → readsAt m w Q.
Proof. intros (a & qs & Hm & HP) HPQ. exists a, qs. auto. Qed.

Lemma readsAt_tryCatch {A} (m : Db A) (h : string → Db A) (w : World) (P : A → Prop) :
  readsAt m w P → readsAt (tryCatch m h) w P.
Proof.
  intros (a & qs & Hm & HP). exists a, qs. split; [|done].
  unfold tryCatch. by rewrite Hm.
Qed.

Lemma readsAt_store {A} (m : Db A) (w : World) (P : A → Prop) :
  readsAt m w P → store (m w).2 = store w ∧ ∃ a, (m w).1 = Return a ∧ P a.
Proof. intros (a & qs & Hm & HP). rewrite Hm. simpl. eauto. Qed.

Lemma reads_Anomaly_findOne flt w :
  readsAt (Anomaly_findOne flt) w
    (λ r, r = head (filter (matchesAnomaly flt) (st_anomalies (store w)))).
Proof. by eexists _, [_]. Qed.

Lemma reads_Transaction_find pid since w :
  readsAt (Transaction_find pid since) w
    (λ r, r = filter (inWindow pid since) (st_transactions (store w))).
Proof. by eexists _, [_]. Qed.

Lemma reads_Product_find w :
  readsAt Product_find w (λ r, r = naturalOrder (st_products (store w))).
Proof. by eexists _, [_]. Qed.

Lemma reads_Product_find_priceGt bound w :
  readsAt (Product_find_priceGt bound) w (λ _, True).
Proof. by eexists _, [_]. Qed.

Lemma reads_Alert_findOne type productId since w :
  readsAt (Alert_findOne type productId since) w
    (λ r, r = head (filter (matchesAlert type productId since) (st_alerts (store w)))).
Proof. by eexists _, [_]. Qed.

(** A loop whose body only appends: the result is the start followed by one
    block per element. *)
Lemma readsAt_forOf {A B} (body : list B → A → Db (list B)) (R : A → list B → Prop)
    (xs : list A) (w : World) :
  (∀ acc x w', store w' = store w → x ∈ xs →
     readsAt (body acc x) w' (λ r, ∃ new, r = acc ++ new ∧ R x new)) →
  ∀ acc w', store w' = store w →
    readsAt (forOf body xs acc) w'
      (λ r, ∃ news, r = acc ++ concat news ∧ Forall2 R xs news).
Proof.
  induction xs as [|x xs IH]; intros Hbody acc w' Hw'.
  - simpl. apply readsAt_ret. exists []. simpl. by rewrite app_nil_r.
  - simpl. eapply readsAt_bind.
    + apply Hbody; [done|]. by left.
    + intros r w'' Hw'' (new & -> & HR).
      eapply readsAt_mono.
      * apply IH; [|congruence]. intros. apply Hbody; [done|]. by right.
      * intros r' (news & -> & Hnews). exists (new :: news). simpl.
        split; [by rewrite app_assoc|]. by constructor.
Qed.

(** ** The detectors, one by one *)

Lemma head_filter_None {A} (P : A → Prop) `{∀ x, Decision (P x)} (l : list A) :
  head (filter P l) = None ↔ ∀ x, x ∈ l → ¬ P x.
Proof.
  rewrite head_None. split.
  - intros Hnil x Hx HP.
    assert (x ∈ filter P l) as Hin by (by apply list_elem_of_filter).
    rewrite Hnil in Hin. by apply elem_of_nil in Hin.
  - intros Hall. destruct (filter P l) as [|x r] eqn:E; [done|].
    assert (x ∈ filter P l) as Hin by (rewrite E; by left).
    apply list_elem_of_filter in Hin as [HP Hx]. by destruct (Hall x Hx).
Qed.

Lemma head_filter_is_Some {A} (P : A → Prop) `{∀ x, Decision (P x)} (l : list A) :
  is_Some (head (filter P l)) ↔ ∃ x, x ∈ l ∧ P x.
Proof.
  split.
  - intros [x Hx]. destruct (filter P l) as [|y r] eqn:E; [done|].
    assert (y ∈ filter P l) as Hin by (rewrite E; by left).
    apply list_elem_of_filter in Hin as [HP Hy]. eauto.
  - intros (x & Hx & HP). destruct (head (filter P l)) eqn:E; [eauto|].
    pose proof (proj1 (head_filter_None P l) E) as Hall. by destruct (Hall x Hx).
Qed.

Lemma openCount_zero pid ty s :
  openCount pid ty s = 0%nat ↔ ∀ a, a ∈ st_anomalies s → ¬ isOpen pid ty a.
Proof.
  unfold openCount. rewrite length_zero_iff_nil. rewrite <- head_None.
  apply head_filter_None.
Qed.

Lemma matches_open_filter pid ty a :
  matchesAnomaly (mkAnomalyFilter (Some pid) ty (Some false) None) a ↔ isOpen pid ty a.
Proof. unfold matchesAnomaly, isOpen. simpl. tauto. Qed.

Lemma matches_recent_filter pid ty since a :
  matchesAnomaly (mkAnomalyFilter (Some pid) ty None (Some since)) a
  ↔ recorded pid ty since a.
Proof. unfold matchesAnomaly, recorded. simpl. tauto. Qed.

Lemma findOne_open_None pid ty s :
  head (filter (matchesAnomaly (mkAnomalyFilter (Some pid) ty (Some false) None))
          (st_anomalies s)) = None
  ↔ openCount pid ty s = 0%nat.
Proof.
  rewrite head_filter_None, openCount_zero.
  split; intros Hall a Ha Hm; apply (Hall a Ha); by apply matches_open_filter.
Qed.

Lemma findOne_recent_None pid ty since s :
  head (filter (matchesAnomaly (mkAnomalyFilter (Some pid) ty None (Some since)))
          (st_anomalies s)) = None
  ↔ ∀ a, a ∈ st_anomalies s → ¬ recorded pid ty since a.
Proof.
  rewrite head_filter_None.
  split; intros Hall a Ha Hm; apply (Hall a Ha); by apply matches_recent_filter.
Qed.

Lemma emitsIff_none pid ty (guard : Prop) shape : ¬ guard → emitsIff pid ty guard shape [].
Proof. intros. by right. Qed.

Lemma emitsIff_one pid ty (guard : Prop) (shape : Candidate → Prop) c :
  guard → isFor pid ty c → shape c → emitsIff pid ty guard shape [c].
Proof. intros. left. eauto. Qed.

Ltac ret_none :=
  apply readsAt_ret; exists []; rewrite app_nil_r; split; [done|apply emitsIff_none].
Ltac ret_one :=
  apply readsAt_ret; eexists [_]; split; [done|apply emitsIff_one].

Lemma detectLowStock_reads pid product acc w :
  readsAt (detectLowStock pid product acc) w
    (λ r, ∃ new, r = acc ++ new
       ∧ emitsIff pid "low_stock" (lowStockGuard (store w) pid product)
           (λ c, c_severity c = if p_quantity product =? 0 then "critical" else "high")
           new).
Proof.
  unfold detectLowStock, lowStockGuard. apply readsAt_tryCatch.
  destruct (Z.leb_spec (p_quantity product) (p_minimumStock product)) as [Hq|Hq].
  - eapply readsAt_bind; [apply reads_Anomaly_findOne|].
    intros r w' Hw' ->.
    destruct (head _) eqn:E.
    + ret_none. intros [_ Hopen]. apply findOne_open_None in Hopen. congruence.
    + ret_one; [|done..]. split; [done|]. by apply findOne_open_None.
  - ret_none. lia.
Qed.

Lemma detectExpiryWarnings_reads now pid product acc w :
  readsAt (detectExpiryWarnings now pid product acc) w
    (λ r, ∃ new, r = acc ++ new
       ∧ emitsIff pid "expiry_warning" (expiryGuard (store w) now pid product)
           (λ c, ∃ expiryDate, p_expiryDate product = Some expiryDate
              ∧ c_severity c
                = if daysUntilExpiry now expiryDate <=? 7 then "high" else "medium")
           new).
Proof.
  unfold detectExpiryWarnings, expiryGuard. apply readsAt_tryCatch.
  destruct (p_expiryDate product) as [expiryDate|];
    [|ret_none; by intros [(? & ? & _) _]].
  cbv zeta. fold (daysUntilExpiry now expiryDate).
  destruct (Z.leb_spec (daysUntilExpiry now expiryDate) 30) as [H30|H30];
    destruct (Z.ltb_spec 0 (daysUntilExpiry now expiryDate)) as [H0|H0]; simpl;
    try (ret_none; intros [(e & [= <-] & ?) _]; lia).
  eapply readsAt_bind; [apply reads_Anomaly_findOne|].
  intros r w' Hw' ->.
  destruct (head _) eqn:E.
  - ret_none. intros [_ Hopen]. apply findOne_open_None in Hopen. congruence.
  - ret_one; [|done|by eauto]. split; [by eauto|]. by apply findOne_open_None.
Qed.

Lemma sumDiscrepancy_nil : sumDiscrepancy [] = 0.
Proof. done. Qed.

Lemma matches_open_recent_filter pid ty since a :
  matchesAnomaly (mkAnomalyFilter (Some pid) ty (Some false) (Some since)) a
  ↔ recorded pid ty since a ∧ a_resolved a = false.
Proof. unfold matchesAnomaly, recorded. simpl. tauto. Qed.

Lemma detectPotentialTheft_reads now pid product acc w :
  readsAt (detectPotentialTheft now pid product acc) w
    (λ r, ∃ new, r = acc ++ new
       ∧ emitsIff pid "potential_theft" (theftGuard (store w) now pid product)
           (λ c, ∃ n losses, c_metadata c
                   = MetaTheft (totalLoss (store w) now pid product)
                       (jsMul (inject_Z (totalLoss (store w) now pid product))
                          (p_price product))
                       n losses)
           new).
Proof.
  unfold detectPotentialTheft, theftGuard, totalLoss, ledgerSince.
  apply readsAt_tryCatch.
  eapply readsAt_bind; [apply reads_Transaction_find|].
  intros r w' Hw' ->. cbv zeta.
  destruct (sortByCreatedAt _) as [|first rest] eqn:E; [ret_none; lia|].
  destruct (Nat.ltb_spec 0 (length (findLosses now product first (first :: rest))))
    as [Hlen|Hlen].
  - eapply readsAt_bind; [apply reads_Anomaly_findOne|].
    intros r w'' Hw'' ->. rewrite Hw'.
    destruct (Z.ltb_spec 3 (sumDiscrepancy (findLosses now product first (first :: rest))))
      as [H3|H3]; rewrite ?andb_true_r, ?andb_false_r; [|ret_none; lia].
    case_bool_decide as Hsome.
    + ret_one; [|done|by eauto]. split; [done|].
      apply head_filter_is_Some in Hsome as (a & Ha & Hm).
      apply matches_open_recent_filter in Hm as [? ?]. eauto.
    + ret_none. intros [_ (a & Ha & Hrec & Hres)]. apply Hsome.
      apply head_filter_is_Some. exists a. split; [done|].
      by apply matches_open_recent_filter.
  - ret_none. destruct (findLosses _ _ _ _); [|simpl in Hlen; lia].
    rewrite sumDiscrepancy_nil. lia.
Qed.

Lemma Qltb_lt x y : Qltb x y = true ↔ (x < y)%Q.
Proof.
  unfold Qltb. rewrite negb_true_iff, <- not_true_iff_false, Qle_bool_iff.
  split; [apply Qnot_le_lt|apply Qlt_not_le].
Qed.

Lemma foldl_add_sumZ {A} (f : A → Z) (l : list A) (a : Z) :
  foldl (λ sum x, sum + f x) a l = a + sumZ (f <$> l).
Proof.
  revert a. induction l as [|x l IH]; intros a.
  - unfold sumZ. simpl. lia.
  - rewrite fmap_cons. simpl foldl. rewrite IH. unfold sumZ. cbn [foldr]. lia.
Qed.

Lemma sumAbsQuantity_sumZ l : sumAbsQuantity l = sumZ ((λ t, Z.abs (t_quantity t)) <$> l).
Proof. unfold sumAbsQuantity. rewrite foldl_add_sumZ. lia. Qed.

Lemma sales_magnitude txs :
  sumAbsQuantity (filter (λ t, t_type t = "sale") txs) = magnitudeOf ["sale"] txs.
Proof.
  rewrite sumAbsQuantity_sumZ. unfold magnitudeOf. do 2 f_equal.
  apply list_filter_iff. intros t. rewrite list_elem_of_singleton. done.
Qed.

Lemma restocks_magnitude txs :
  sumAbsQuantity (filter (λ t, t_type t = "restock" ∨ t_type t = "purchase") txs)
  = magnitudeOf ["restock"; "purchase"] txs.
Proof.
  rewrite sumAbsQuantity_sumZ. unfold magnitudeOf. do 2 f_equal.
  apply list_filter_iff. intros t. rewrite !elem_of_cons, elem_of_nil. tauto.
Qed.

Lemma detectShrinkagePatterns_reads now pid product acc w :
  readsAt (detectShrinkagePatterns now pid product acc) w
    (λ r, ∃ new, r = acc ++ new
       ∧ emitsIff pid "inventory_shrinkage" (shrinkageGuard (store w) now pid product)
           (λ c, ∃ first,
              let txs := ledgerSince (store w) pid (now - 90 * DAY_MS) in
              head txs = Some first
              ∧ c_metadata c
                = MetaShrinkage (shrinkageOf product txs)
                    (dailyRate (shrinkageOf product txs))
                    (specExpectedStock first txs) (p_quantity product)
                    (magnitudeOf ["sale"] txs) (magnitudeOf ["restock"; "purchase"] txs))
           new).
Proof.
  unfold detectShrinkagePatterns, shrinkageGuard, ledgerSince.
  apply readsAt_tryCatch.
  eapply readsAt_bind; [apply reads_Transaction_find|].
  intros r w' Hw' ->. cbv zeta.
  destruct (Nat.ltb_spec (length (sortByCreatedAt
    (filter (inWindow pid (now - 90 * DAY_MS)) (st_transactions (store w))))) 10)
    as [Hlen|Hlen]; [ret_none; lia|].
  destruct (sortByCreatedAt _) as [|first rest] eqn:E; [simpl in Hlen; lia|].
  rewrite sales_magnitude, restocks_magnitude. simpl head. simpl default.
  fold (specExpectedStock first (first :: rest)).
  change (shrinkageOf product (first :: rest))
    with (specExpectedStock first (first :: rest) - p_quantity product).
  set (shrinkage := specExpectedStock first (first :: rest) - p_quantity product).
  fold (dailyRate shrinkage).
  destruct (Qltb (5 # 10) (dailyRate shrinkage)) eqn:Hrate; cbn [andb].
  - apply Qltb_lt in Hrate.
    destruct (Z.ltb_spec 5 shrinkage) as [H5|H5]; [|ret_none; lia].
    eapply readsAt_bind; [apply reads_Anomaly_findOne|].
    intros r w'' Hw'' ->. rewrite Hw'.
    destruct (head _) eqn:Hone.
    + ret_none. intros (_ & _ & _ & Hnone).
      apply findOne_recent_None in Hnone. congruence.
    + ret_one; [|done|by eauto].
      split; [done|]. split; [|split; [done|by apply findOne_recent_None]].
      revert Hrate. unfold Qlt. simpl. lia.
  - ret_none. intros (_ & Hr & _). apply not_true_iff_false in Hrate. apply Hrate.
    apply Qltb_lt. revert Hr. unfold Qlt. simpl. lia.
Qed.
(** ** Access patterns: the two counters of [findPatterns] *)

Lemma getHours_lt tz t : (getHours tz t < 24)%nat.
Proof.
  unfold getHours.
  pose proof (Z.mod_pos_bound ((t + tz) / HOUR_MS) 24 ltac:(lia)). lia.
Qed.

Lemma getHours_hourOfDay tz t : Z.of_nat (getHours tz t) = hourOfDay tz t.
Proof.
  unfold getHours, hourOfDay. change HOUR_MS with 3600000.
  pose proof (Z.mod_pos_bound ((t + tz) / 3600000) 24 ltac:(lia)). lia.
Qed.

Lemma night_alter (hourlyActivity : list nat) (hour : nat) :
  length hourlyActivity = 24%nat → (hour < 24)%nat →
  night (alter S hour hourlyActivity)
  = (night hourlyActivity
     + if bool_decide (Z.of_nat hour ∈ NIGHT_HOURS) then 1 else 0)%nat.
Proof.
  intros Hlen Hhour.
  do 24 (destruct hourlyActivity as [|? hourlyActivity]; [discriminate Hlen|]).
  destruct hourlyActivity; [|discriminate Hlen].
  do 24 (destruct hour as [|hour];
         [set (b := bool_decide _); vm_compute in b; subst b;
          unfold night, slice; simpl; lia|]).
  lia.
Qed.

Lemma nightCount_cons tz t txs :
  nightCount tz (t :: txs)
  = ((if bool_decide (hourOfDay tz (t_createdAt t) ∈ NIGHT_HOURS) then 1 else 0)
     + nightCount tz txs)%nat.
Proof.
  unfold nightCount. rewrite filter_cons.
  case_bool_decide as Hn; destruct (decide _) as [Hd|Hd]; done.
Qed.

Lemma foldl_accessStep_cons tz t txs (hourlyActivity : list nat)
    (userActivity : list (string * Slot)) :
  foldl (accessStep tz) (hourlyActivity, userActivity) (t :: txs)
  = foldl (accessStep tz)
      (alter S (getHours tz (t_createdAt t)) hourlyActivity,
       increment userActivity (actorOf t))
      txs.
Proof. reflexivity. Qed.

Lemma hourly_fold tz txs (hourlyActivity : list nat) (userActivity : list (string * Slot)) :
  length hourlyActivity = 24%nat →
  length (foldl (accessStep tz) (hourlyActivity, userActivity) txs).1 = 24%nat
  ∧ night (foldl (accessStep tz) (hourlyActivity, userActivity) txs).1
    = (night hourlyActivity + nightCount tz txs)%nat.
Proof.
  revert hourlyActivity userActivity.
  induction txs as [|t txs IH]; intros hourlyActivity userActivity Hlen.
  - simpl. split; [done|]. unfold nightCount. simpl. lia.
  - rewrite foldl_accessStep_cons.
    destruct (IH (alter S (getHours tz (t_createdAt t)) hourlyActivity)
                (increment userActivity (actorOf t))) as [IH1 IH2].
    { by rewrite length_alter. }
    split; [done|].
    rewrite IH2, night_alter, nightCount_cons, getHours_hourOfDay; [lia|done|].
    apply getHours_lt.
Qed.

(** *** The plain object *)

Lemma getOwn_setOwn_eq o key v : getOwn (setOwn o key v) key = Some v.
Proof.
  induction o as [|e o IH]; simpl.
  - by rewrite String.eqb_refl.
  - destruct (String.eqb_spec e.1 key) as [He|He]; simpl.
    + by rewrite String.eqb_refl.
    + by destruct (String.eqb_spec e.1 key).
Qed.

Lemma getOwn_setOwn_ne o key key' v :
  key ≠ key' → getOwn (setOwn o key v) key' = getOwn o key'.
Proof.
  intros Hne. induction o as [|e o IH]; simpl.
  - by destruct (String.eqb_spec key key').
  - destruct (String.eqb_spec e.1 key) as [He|He]; simpl.
    + destruct (String.eqb_spec key key'); [done|].
      destruct (String.eqb_spec e.1 key'); [congruence|done].
    + by rewrite IH.
Qed.

Lemma getOwn_increment_ne o key key' :
  key ≠ key' → getOwn (increment o key) key' = getOwn o key'.
Proof.
  intros Hne. unfold increment.
  destruct (getOwn o key) as [[n|]|]; try by apply getOwn_setOwn_ne.
  case_bool_decide; [|by apply getOwn_setOwn_ne].
  destruct (String.eqb key "__proto__"); [done|by apply getOwn_setOwn_ne].
Qed.

Lemma setOwn_keys o key v :
  (setOwn o key v).*1 = if bool_decide (key ∈ o.*1) then o.*1 else o.*1 ++ [key].
Proof.
  induction o as [|e o IH]; [done|].
  cbn [setOwn]. rewrite (fmap_cons fst e o).
  destruct (String.eqb_spec e.1 key) as [He|He].
  - rewrite bool_decide_eq_true_2 by (rewrite He; by left).
    rewrite fmap_cons. simpl. by rewrite He.
  - rewrite fmap_cons, IH. case_bool_decide as Hin.
    + by rewrite bool_decide_eq_true_2 by by right.
    + rewrite bool_decide_eq_false_2; [done|].
      rewrite elem_of_cons. intros [?|?]; congruence.
Qed.

Lemma setOwn_NoDup o key v : NoDup o.*1 → NoDup (setOwn o key v).*1.
Proof.
  intros Hnd. rewrite setOwn_keys. case_bool_decide as Hin; [done|].
  apply NoDup_app. split; [done|]. split.
  - intros x Hx Hk. apply list_elem_of_singleton in Hk. by subst.
  - apply NoDup_singleton.
Qed.

Lemma increment_NoDup o key : NoDup o.*1 → NoDup (increment o key).*1.
Proof.
  intros Hnd. unfold increment.
  destruct (getOwn o key) as [[n|]|]; try by apply setOwn_NoDup.
  case_bool_decide; [|by apply setOwn_NoDup].
  destruct (String.eqb key "__proto__"); [done|by apply setOwn_NoDup].
Qed.

Lemma elem_of_getOwn (o : list (string * Slot)) key v :
  NoDup o.*1 → (key, v) ∈ o ↔ getOwn o key = Some v.
Proof.
  induction o as [|e o IH]; simpl; intros Hnd.
  - split; [intros H; by apply elem_of_nil in H|done].
  - apply NoDup_cons in Hnd as [Hfresh Hnd]. rewrite elem_of_cons, IH by done.
    destruct (String.eqb_spec e.1 key) as [He|He].
    + split.
      * intros [Heq|Hin]; [by subst e|].
        exfalso. apply Hfresh. rewrite He.
        apply list_elem_of_fmap. exists (key, v). split; [done|].
        by apply IH.
      * intros [= <-]. left. destruct e. simpl in *. by subst.
    + split; [|by right]. intros [Heq|Hin]; [|done]. subst e. done.
Qed.

(** What a slot holds after [n] increments under [key], starting from the
    empty object. *)
Definition slotAfter (key : string) (n : nat) : option Slot :=
  if decide (n = 0%nat) then None
  else if decide (key ∈ OBJECT_PROTOTYPE_KEYS)
       then if decide (key = "__proto__") then None else Some Text
       else Some (Count n).

Lemma getOwn_increment_eq o u n :
  getOwn o u = slotAfter u n → getOwn (increment o u) u = slotAfter u (n + 1).
Proof.
  unfold increment, slotAfter. intros Ho.
  rewrite (decide_False (P := (n + 1)%nat = 0%nat)) by lia.
  destruct (decide (u ∈ OBJECT_PROTOTYPE_KEYS)) as [Hin|Hin].
  - destruct (decide (u = "__proto__")) as [Hp|Hp].
    + assert (getOwn o u = None) as Hnone by (by destruct (decide (n = 0%nat))).
      rewrite Hnone, bool_decide_eq_true_2 by done.
      by destruct (String.eqb_spec u "__proto__").
    + destruct (decide (n = 0%nat)); rewrite Ho; [|apply getOwn_setOwn_eq].
      rewrite bool_decide_eq_true_2 by done.
      destruct (String.eqb_spec u "__proto__"); [done|apply getOwn_setOwn_eq].
  - destruct (decide (n = 0%nat)) as [->|Hn]; rewrite Ho.
    + rewrite bool_decide_eq_false_2 by done. apply getOwn_setOwn_eq.
    + apply getOwn_setOwn_eq.
Qed.

Lemma increment_fold (keys : list string) (u : string) :
  getOwn (foldl increment [] keys) u
  = slotAfter u (length (filter (λ k, k = u) keys)).
Proof.
  induction keys as [|k keys IH] using rev_ind; [done|].
  rewrite foldl_app, filter_app, length_app. simpl foldl.
  rewrite filter_cons, filter_nil.
  destruct (decide (k = u)) as [->|Hne].
  - simpl length. by apply getOwn_increment_eq.
  - simpl length. rewrite Nat.add_0_r, getOwn_increment_ne by done. exact IH.
Qed.

Lemma increment_fold_NoDup (keys : list string) :
  NoDup (foldl increment [] keys).*1.
Proof.
  induction keys as [|k keys IH] using rev_ind; [constructor|].
  rewrite foldl_app. simpl. by apply increment_NoDup.
Qed.

Lemma users_fold tz txs (hourlyActivity : list nat) (userActivity : list (string * Slot)) :
  (foldl (accessStep tz) (hourlyActivity, userActivity) txs).2
  = foldl increment userActivity (actorOf <$> txs).
Proof.
  revert hourlyActivity userActivity.
  induction txs as [|t txs IH]; intros hourlyActivity userActivity; [done|].
  rewrite foldl_accessStep_cons, IH. done.
Qed.

Lemma actorOf_actsAs t u : actorOf t = u ↔ actsAs t u.
Proof.
  unfold actorOf, actsAs. destruct (t_userId t) as [v|].
  - destruct (String.eqb_spec v "") as [->|Hv].
    + split; [intros <-; right; split; [done|by right]|].
      intros [[[= <-] Hne]|[-> _]]; done.
    + split; [intros <-; by left|].
      intros [[[= <-] _]|[-> [|[= ->]]]]; done.
  - split; [intros <-; right; split; [done|by left]|].
    intros [[? _]|[-> _]]; done.
Qed.

Lemma actorCount_keys u txs :
  length (filter (λ k, k = u) (actorOf <$> txs)) = actorCount u txs.
Proof.
  unfold actorCount. induction txs as [|t txs IH]; [done|].
  rewrite fmap_cons, !filter_cons.
  destruct (decide (actorOf t = u)) as [Hu|Hu].
  - rewrite decide_True by by apply actorOf_actsAs. simpl. by rewrite IH.
  - rewrite decide_False by by rewrite <- actorOf_actsAs. done.
Qed.

(** The slot of an actor after the loop over the window. *)
Lemma userActivity_lookup tz txs u :
  getOwn (foldl (accessStep tz) (replicate 24 0%nat, []) txs).2 u
  = slotAfter u (actorCount u txs).
Proof. by rewrite users_fold, increment_fold, actorCount_keys. Qed.

Lemma userActivity_NoDup tz txs :
  NoDup (foldl (accessStep tz) (replicate 24 0%nat, []) txs).2.*1.
Proof. rewrite users_fold. apply increment_fold_NoDup. Qed.

(** [Object.entries] lists every own property once. *)
Lemma insertByIndex_Permutation e l : insertByIndex e l ≡ₚ e :: l.
Proof.
  induction l as [|f l IH]; simpl; [done|].
  destruct (e.1 <? f.1)%N; [done|]. rewrite IH. apply Permutation_swap.
Qed.

Lemma entries_Permutation (o : list (string * Slot)) : entries o ≡ₚ o.
Proof.
  unfold entries. induction o as [|e o IH]; [done|].
  simpl omap. rewrite filter_cons.
  destruct (arrayIndex e.1) as [i|] eqn:Hi.
  - rewrite decide_False by done. simpl foldr.
    rewrite insertByIndex_Permutation. simpl. by rewrite IH.
  - rewrite decide_True by done.
    rewrite <- Permutation_middle. by rewrite IH.
Qed.

Lemma elem_of_excessiveUsers p unusualPatterns entries :
  p ∈ excessiveUsers unusualPatterns entries
  ↔ p ∈ unusualPatterns
    ∨ ∃ u n, (u, Count n) ∈ entries ∧ (10 < n)%nat ∧ u ≠ "system"
             ∧ p = excessivePattern u n.
Proof.
  unfold excessiveUsers. revert unusualPatterns.
  induction entries as [|[u v] entries IH]; intros unusualPatterns.
  - simpl. split; [by left|]. intros [?|(u & n & Hin & _)]; [done|].
    by apply elem_of_nil in Hin.
  - simpl foldl. rewrite IH. simpl fst. simpl snd. clear IH.
    assert (∀ P : string → nat → Prop,
              (∃ u' n', (u', Count n') ∈ (u, v) :: entries ∧ P u' n')
              ↔ (∃ n, v = Count n ∧ P u n)
                ∨ ∃ u' n', (u', Count n') ∈ entries ∧ P u' n') as Hsplit.
    { intros P. split.
      - intros (u' & n' & Hin & HP). apply elem_of_cons in Hin as [[= -> <-]|Hin].
        + left. by exists n'.
        + right. by exists u', n'.
      - intros [(n & -> & HP)|(u' & n' & Hin & HP)].
        + exists u, n. split; [by left|done].
        + exists u', n'. split; [by right|done]. }
    rewrite Hsplit.
    destruct v as [n|].
    + destruct (Nat.ltb_spec 10 n) as [Hn|Hn];
        destruct (String.eqb_spec u "system") as [Hu|Hu]; simpl.
      * split; [intros [?|?]; auto|].
        intros [?|[(n' & [= <-] & _ & Hne & _)|?]]; auto. done.
      * rewrite elem_of_app, list_elem_of_singleton. split.
        -- intros [[? | ->] | ?]; auto. right. left. by exists n.
        -- intros [?|[(n' & [= <-] & _ & _ & ->)|?]]; auto.
      * split; [intros [?|?]; auto|].
        intros [?|[(n' & [= <-] & ? & _)|?]]; auto. lia.
      * split; [intros [?|?]; auto|].
        intros [?|[(n' & [= <-] & ? & _)|?]]; auto. lia.
    + split; [intros [?|?]; auto|].
      intros [?|[(n' & [=] & _)|?]]; auto.
Qed.
Lemma findPatterns_eq tz txs :
  findPatterns tz txs
  = excessiveUsers
      (if (2 <? nightCount tz txs)%nat then [afterHoursPattern (nightCount tz txs)] else [])
      (entries (foldl (accessStep tz) (replicate 24 0%nat, []) txs).2).
Proof.
  unfold findPatterns. cbv zeta.
  destruct (hourly_fold tz txs (replicate 24 0%nat) [] eq_refl) as [_ ->].
  done.
Qed.

(** A counted entry of [userActivity] is an actor of the window under a
    name no object inherits, with the number of the actor's transactions. *)
Lemma elem_of_userActivity tz txs u n :
  (u, Count n) ∈ entries (foldl (accessStep tz) (replicate 24 0%nat, []) txs).2
  ↔ n = actorCount u txs ∧ (0 < n)%nat ∧ (u ∉ OBJECT_PROTOTYPE_KEYS).
Proof.
  rewrite entries_Permutation, elem_of_getOwn by apply userActivity_NoDup.
  rewrite userActivity_lookup. unfold slotAfter.
  destruct (decide (actorCount u txs = 0%nat)) as [Hz|Hz].
  - split; [done|]. intros (-> & ? & _). lia.
  - destruct (decide (u ∈ OBJECT_PROTOTYPE_KEYS)) as [Hin|Hin].
    + split; [by destruct (decide (u = "__proto__"))|]. by intros (_ & _ & ?).
    + split; [intros [= <-]; split; [done|split; [lia|done]]|].
      by intros (-> & _ & _).
Qed.

Lemma findPatterns_after_hours tz txs :
  (∃ p, p ∈ findPatterns tz txs ∧ pt_type p = "after_hours_access")
  ↔ (2 < nightCount tz txs)%nat.
Proof.
  rewrite findPatterns_eq. split.
  - intros (p & Hp & Hty). apply elem_of_excessiveUsers in Hp as [Hp|Hp].
    + destruct (Nat.ltb_spec 2 (nightCount tz txs)); [done|].
      by apply elem_of_nil in Hp.
    + destruct Hp as (u & n & _ & _ & _ & ->). discriminate Hty.
  - intros Hn. exists (afterHoursPattern (nightCount tz txs)). split; [|done].
    apply elem_of_excessiveUsers. left.
    destruct (Nat.ltb_spec 2 (nightCount tz txs)); [by left|lia].
Qed.

Lemma findPatterns_excessive tz txs u :
  (∃ p, p ∈ findPatterns tz txs ∧ pt_type p = "excessive_user_activity"
        ∧ pt_userId p = Some u)
  ↔ u ≠ "system" ∧ (u ∉ OBJECT_PROTOTYPE_KEYS) ∧ (10 < actorCount u txs)%nat.
Proof.
  rewrite findPatterns_eq. split.
  - intros (p & Hp & Hty & Hu). apply elem_of_excessiveUsers in Hp as [Hp|Hp].
    + destruct (Nat.ltb_spec 2 (nightCount tz txs)).
      * apply list_elem_of_singleton in Hp. subst p. discriminate Hty.
      * by apply elem_of_nil in Hp.
    + destruct Hp as (u' & n & Hin & Hn & Hsys & ->). simpl in Hu.
      injection Hu as ->. apply elem_of_userActivity in Hin as (-> & _ & ?). done.
  - intros (Hsys & Hown & Hn). exists (excessivePattern u (actorCount u txs)).
    split; [|done]. apply elem_of_excessiveUsers. right.
    exists u, (actorCount u txs). split; [|done].
    apply elem_of_userActivity. split; [done|]. split; [lia|done].
Qed.

(** Nothing else ever enters the pattern list. *)
Lemma findPatterns_kinds tz txs p :
  p ∈ findPatterns tz txs →
  p = afterHoursPattern (nightCount tz txs)
  ∨ ∃ u, p = excessivePattern u (actorCount u txs).
Proof.
  rewrite findPatterns_eq. intros Hp.
  apply elem_of_excessiveUsers in Hp as [Hp|Hp].
  - destruct (Nat.ltb_spec 2 (nightCount tz txs)).
    + apply list_elem_of_singleton in Hp. by left.
    + by apply elem_of_nil in Hp.
  - destruct Hp as (u & n & Hin & _ & _ & ->). right. exists u.
    by apply elem_of_userActivity in Hin as (-> & _).
Qed.

Lemma detectUnauthorizedAccess_reads tz now pid product acc w :
  readsAt (detectUnauthorizedAccess tz now pid product acc) w
    (λ r, ∃ new, r = acc ++ new
       ∧ emitsIff pid "unauthorized_access_pattern" (accessGuard (store w) tz now pid)
           (λ c, c_metadata c
                 = MetaAccess (findPatterns tz (accessWindow (store w) now pid))
                     (length (accessWindow (store w) now pid)))
           new).
Proof.
  unfold detectUnauthorizedAccess, accessGuard, accessWindow.
  apply readsAt_tryCatch.
  eapply readsAt_bind; [apply reads_Transaction_find|].
  intros r w' Hw' ->. cbv zeta.
  destruct (findPatterns tz _) as [|p ps] eqn:E; simpl.
  - ret_none. by intros [? _].
  - eapply readsAt_bind; [apply reads_Anomaly_findOne|].
    intros r w'' Hw'' ->. rewrite Hw'.
    destruct (head _) eqn:Hone.
    + ret_none. intros (_ & Hnone). apply findOne_recent_None in Hnone. congruence.
    + ret_one; [|done..]. split; [done|]. by apply findOne_recent_None.
Qed.

(** The walk of [Object.entries]: array indices first, in ascending order,
    then the other names as they were created. *)
Example entries_walk :
  (entries [("zed", Count 1); ("7", Count 2); ("amy", Text); ("10", Count 4);
            ("007", Count 5)]).*1
  = ["7"; "10"; "zed"; "amy"; "007"].
Proof. reflexivity. Qed.

(** Two flagged users are listed in the order of their first transaction. *)
Example findPatterns_order :
  pt_userId <$> findPatterns 0 ((daySale "zed" <$> seq 0 11) ++ (daySale "amy" <$> seq 0 11))
  = [Some "zed"; Some "amy"].
Proof. by vm_compute. Qed.

(** ** From a run to what it pushed *)

Lemma pushed_reads {A} (P : list A → Prop) (before : list A) (call : Db (list A)) w :
  readsAt call w (λ r, ∃ new, r = before ++ new ∧ P new) → P (pushed before call w).
Proof.
  intros (r & qs & Hm & new & -> & HP). unfold pushed. rewrite Hm. simpl.
  by rewrite drop_app_length.
Qed.

Lemma emitsIff_elem pid ty (guard : Prop) shape new c :
  emitsIff pid ty guard shape new → c ∈ new → guard ∧ new = [c] ∧ isFor pid ty c ∧ shape c.
Proof.
  intros [(HG & c' & -> & Hfor & Hshape)|[_ ->]] Hc.
  - apply list_elem_of_singleton in Hc. by subst c'.
  - by apply elem_of_nil in Hc.
Qed.

Lemma emitsIff_guard pid ty (guard : Prop) shape new :
  emitsIff pid ty guard shape new → guard → ∃ c, new = [c] ∧ isFor pid ty c ∧ shape c.
Proof. intros [(_ & Hc)|[Hn _]] HG; [done|by destruct Hn]. Qed.

Lemma emitsIff_length pid ty (guard : Prop) shape new :
  emitsIff pid ty guard shape new → (length new ≤ 1)%nat.
Proof. intros [(_ & c & -> & _)|[_ ->]]; simpl; lia. Qed.

(** ** The claims about single detectors *)

(** C2. The potential-theft detector emits a [potential_theft] anomaly for
    a product exactly when the total loss it computed over the last 30 days
    exceeds 3 and the store already holds an unresolved [potential_theft]
    anomaly of that product created within the last 24 hours; with no prior
    [potential_theft] anomaly of the product in the store it emits nothing. *)
Theorem potential_theft_two_strike (w : World) (now : Z) (pid : N) (product : Product)
    (anomalies : list Candidate) :
  let new := pushed anomalies (detectPotentialTheft now pid product anomalies) w in
  ((∃ c, c ∈ new ∧ c_type c = "potential_theft")
   ↔ 3 < totalLoss (store w) now pid product
     ∧ ∃ a, a ∈ st_anomalies (store w) ∧ a_productId a = Some pid
            ∧ a_type a = "potential_theft" ∧ a_resolved a = false
            ∧ now - DAY_MS ≤ a_createdAt a)
  ∧ ((∀ a, a ∈ st_anomalies (store w)
        → ¬ (a_productId a = Some pid ∧ a_type a = "potential_theft"))
     → new = []).
Proof.
  intros new.
  pose proof (pushed_reads _ _ _ _ (detectPotentialTheft_reads now pid product anomalies w))
    as Hnew.
  fold new in Hnew. split; [split|].
  - intros (c & Hc & _). destruct (emitsIff_elem _ _ _ _ _ _ Hnew Hc) as [[H3 Hprior] _].
    split; [done|]. destruct Hprior as (a & Ha & (? & ? & ?) & ?). eauto 10.
  - intros (H3 & a & Ha & Hpid & Hty & Hres & Hage).
    destruct (emitsIff_guard _ _ _ _ _ Hnew) as (c & -> & [_ Hc] & _).
    + split; [done|]. exists a. by repeat split.
    + exists c. split; [by left|done].
  - intros Hnone. destruct Hnew as [([_ (a & Ha & (? & ? & _) & _)] & _)|[_ ->]]; [|done].
    by destruct (Hnone a Ha).
Qed.

(** C10. For a product without a transaction in the trailing 30 days the
    potential-theft detector returns the array as it got it, whatever the
    live quantity is, and its only call to the store is the transaction
    query: no anomaly lookup is made. *)
Theorem dormant_product_invisible (w : World) (now : Z) (pid : N) (product : Product)
    (anomalies : list Candidate) :
  filter (inWindow pid (now - 30 * DAY_MS)) (st_transactions (store w)) = [] →
  detectPotentialTheft now pid product anomalies w
  = (Return anomalies,
     mkWorld (store w) (queries w ++ [QTransactionFind pid (now - 30 * DAY_MS)]))
  ∧ pushed anomalies (detectPotentialTheft now pid product anomalies) w = []
  ∧ ∀ flt, QAnomalyFindOne flt
           ∉ drop (length (queries w))
               (queries (detectPotentialTheft now pid product anomalies w).2).
Proof.
  intros Hdormant.
  assert (detectPotentialTheft now pid product anomalies w
          = (Return anomalies,
             mkWorld (store w) (queries w ++ [QTransactionFind pid (now - 30 * DAY_MS)])))
    as Hrun.
  { unfold detectPotentialTheft. db_unfold. simpl. by rewrite Hdormant. }
  split; [done|]. unfold pushed. rewrite Hrun. simpl. split.
  - by rewrite drop_all.
  - intros flt. rewrite drop_app_length. intros Hin.
    apply list_elem_of_singleton in Hin. discriminate Hin.
Qed.

(** C7. The shrinkage detector works on the product's transactions of the
    trailing 90 days, oldest first. Whatever it emits is an
    [inventory_shrinkage] anomaly of a product with at least 10 of them,
    whose expected stock is the first transaction's previous quantity plus
    the restock and purchase magnitudes minus the sale magnitudes, whose
    shrinkage exceeds 5 with a daily rate above 0.5, and for which no
    [inventory_shrinkage] anomaly, resolved or not, was recorded in the last
    7 days; under those conditions it does emit, and with fewer than 10
    transactions it never does. *)
Theorem shrinkage_detector_conditions (w : World) (now : Z) (pid : N)
    (product : Product) (anomalies : list Candidate) :
  let txs := ledgerSince (store w) pid (now - 90 * DAY_MS) in
  let new := pushed anomalies (detectShrinkagePatterns now pid product anomalies) w in
  (txs ≡ₚ filter (inWindow pid (now - 90 * DAY_MS)) (st_transactions (store w))
   ∧ StronglySorted byCreatedAt txs)
  ∧ (∀ c, c ∈ new →
     c_type c = "inventory_shrinkage" ∧ c_productId c = Some pid
     ∧ (10 ≤ length txs)%nat
     ∧ (∃ first expectedStock shrinkage,
          head txs = Some first
          ∧ expectedStock
            = t_previousQuantity first + magnitudeOf ["restock"; "purchase"] txs
              - magnitudeOf ["sale"] txs
          ∧ shrinkage = expectedStock - p_quantity product
          ∧ c_metadata c
            = MetaShrinkage shrinkage (dailyRate shrinkage) expectedStock
                (p_quantity product) (magnitudeOf ["sale"] txs)
                (magnitudeOf ["restock"; "purchase"] txs)
          ∧ ((1 # 2) < dailyRate shrinkage)%Q ∧ 5 < shrinkage)
     ∧ ∀ a, a ∈ st_anomalies (store w)
         → ¬ (a_productId a = Some pid ∧ a_type a = "inventory_shrinkage"
              ∧ now - 7 * DAY_MS ≤ a_createdAt a))
  ∧ (shrinkageGuard (store w) now pid product → ∃ c, new = [c])
  ∧ ((length txs < 10)%nat → new = []).
Proof.
  intros txs new.
  pose proof (pushed_reads _ _ _ _
    (detectShrinkagePatterns_reads now pid product anomalies w)) as Hnew.
  fold new in Hnew. split; [apply ledgerSince_spec|]. split; [|split].
  - intros c Hc.
    destruct (emitsIff_elem _ _ _ _ _ _ Hnew Hc)
      as ((Hlen & Hrate & H5 & Hnone) & _ & [Hpid Hty] & first & Hhead & Hmeta).
    fold txs in Hlen, Hrate, H5, Hhead, Hmeta.
    repeat split; try done.
    exists first, (specExpectedStock first txs), (shrinkageOf product txs).
    assert (shrinkageOf product txs = specExpectedStock first txs - p_quantity product)
      as Hsh.
    { destruct txs as [|t txs']; [done|]. by injection Hhead as ->. }
    by repeat split.
  - intros HG. destruct (emitsIff_guard _ _ _ _ _ Hnew HG) as (c & -> & _). eauto.
  - intros Hlen. destruct Hnew as [((Hlen' & _) & _)|[_ ->]]; [|done].
    fold txs in Hlen'. lia.
Qed.

(** X24. Over the product's transactions of the trailing 7 days, the
    unauthorized-access detector flags after-hours access exactly when more
    than 2 of them fall in the hours 23, 0, 1, 2, 3, 4, 5; it flags excessive
    user activity exactly for every actor with more than 10 of them whose
    name is neither 'system' nor a property name every object inherits; it
    flags nothing else; and it emits one combined
    [unauthorized_access_pattern] anomaly carrying all flagged patterns
    exactly when a pattern fired and no anomaly of that type, resolved or
    not, was recorded for the product in the last 24 hours. *)
Theorem unauthorized_access_detector (w : World) (tz now : Z) (pid : N)
    (product : Product) (anomalies : list Candidate) :
  let txs := accessWindow (store w) now pid in
  let patterns := findPatterns tz txs in
  let new := pushed anomalies (detectUnauthorizedAccess tz now pid product anomalies) w in
  ((∃ p, p ∈ patterns ∧ pt_type p = "after_hours_access")
   ↔ (2 < nightCount tz txs)%nat)
  ∧ (∀ u, (∃ p, p ∈ patterns ∧ pt_type p = "excessive_user_activity"
               ∧ pt_userId p = Some u)
          ↔ u ≠ "system" ∧ (u ∉ OBJECT_PROTOTYPE_KEYS)
            ∧ (10 < actorCount u txs)%nat)
  ∧ (∀ p, p ∈ patterns
        → pt_type p = "after_hours_access" ∨ pt_type p = "excessive_user_activity")
  ∧ ((∃ c, new = [c] ∧ c_productId c = Some pid
           ∧ c_type c = "unauthorized_access_pattern"
           ∧ c_metadata c = MetaAccess patterns (length txs))
     ↔ patterns ≠ []
       ∧ ∀ a, a ∈ st_anomalies (store w)
           → ¬ (a_productId a = Some pid ∧ a_type a = "unauthorized_access_pattern"
                ∧ now - DAY_MS ≤ a_createdAt a))
  ∧ (length new ≤ 1)%nat.
Proof.
  intros txs patterns new.
  pose proof (pushed_reads _ _ _ _
    (detectUnauthorizedAccess_reads tz now pid product anomalies w)) as Hnew.
  fold new in Hnew.
  split; [apply findPatterns_after_hours|].
  split; [intros u; apply findPatterns_excessive|].
  split.
  { intros p Hp. destruct (findPatterns_kinds _ _ _ Hp) as [->|[u ->]]; auto. }
  split; [|by eapply emitsIff_length].
  split.
  - intros (c & Hc & _). rewrite Hc in Hnew.
    by destruct (emitsIff_elem _ _ _ _ _ c Hnew ltac:(by left)) as [HG _].
  - intros HG. destruct (emitsIff_guard _ _ _ _ _ Hnew HG) as (c & -> & [? ?] & ?).
    eauto 10.
Qed.

(** ** One detection pass *)

Lemma emittedCount_app pid ty l1 l2 :
  emittedCount pid ty (l1 ++ l2) = (emittedCount pid ty l1 + emittedCount pid ty l2)%nat.
Proof. unfold emittedCount. by rewrite filter_app, length_app. Qed.

Lemma emittedCount_other_product pid pid' ty new :
  Forall (λ c, c_productId c = Some pid') new → pid ≠ pid' →
  emittedCount pid ty new = 0%nat.
Proof.
  intros Hall Hne. unfold emittedCount.
  induction Hall as [|c new Hc _ IH]; [done|].
  rewrite filter_cons_False; [done|]. intros [Hpid _]. congruence.
Qed.

Lemma emittedCount_systemwide pid ty new :
  Forall (λ c, c_productId c = None) new → emittedCount pid ty new = 0%nat.
Proof.
  intros Hall. unfold emittedCount.
  induction Hall as [|c new Hc _ IH]; [done|].
  rewrite filter_cons_False; [done|]. intros [Hpid _]. congruence.
Qed.

Lemma emitsIff_products pid ty (guard : Prop) shape new :
  emitsIff pid ty guard shape new → Forall (λ c, c_productId c = Some pid) new.
Proof.
  intros [(_ & c & -> & [Hpid _] & _)|[_ ->]]; [|constructor].
  by repeat constructor.
Qed.

Lemma emitsIff_count_other pid ty ty' (guard : Prop) shape new :
  emitsIff pid ty guard shape new → ty ≠ ty' → emittedCount pid ty' new = 0%nat.
Proof.
  intros [(_ & c & -> & [_ Hty] & _)|[_ ->]] Hne; [|done].
  unfold emittedCount. rewrite filter_cons_False; [done|]. intros [_ ?]. congruence.
Qed.

Lemma emitsIff_count pid ty (guard : Prop) shape new :
  emitsIff pid ty guard shape new →
  (emittedCount pid ty new ≤ 1)%nat ∧ (¬ guard → emittedCount pid ty new = 0%nat).
Proof.
  intros [(HG & c & -> & Hfor & _)|[_ ->]];
    [|unfold emittedCount; simpl; split; [lia|done]].
  unfold emittedCount. rewrite filter_cons_True by done. simpl. split; [lia|done].
Qed.

Lemma detectProduct_reads tz now acc (doc : N * Product) w :
  readsAt (detectProduct tz now acc doc) w
    (λ r, ∃ new, r = acc ++ new ∧ productPush (store w) doc.1 new).
Proof.
  unfold detectProduct.
  eapply readsAt_bind; [apply detectLowStock_reads|].
  intros r1 w1 Hw1 (n1 & -> & H1).
  eapply readsAt_bind; [apply detectExpiryWarnings_reads|].
  intros r2 w2 Hw2 (n2 & -> & H2). rewrite Hw1 in H2.
  eapply readsAt_bind; [apply detectPotentialTheft_reads|].
  intros r3 w3 Hw3 (n3 & -> & H3).
  eapply readsAt_bind; [apply detectShrinkagePatterns_reads|].
  intros r4 w4 Hw4 (n4 & -> & H4).
  eapply readsAt_mono; [apply detectUnauthorizedAccess_reads|].
  intros r5 (n5 & -> & H5).
  exists (n1 ++ n2 ++ n3 ++ n4 ++ n5). split; [by rewrite <- !app_assoc|].
  split.
  - repeat apply Forall_app_2; by eapply emitsIff_products.
  - intros ty Hty. rewrite !emittedCount_app.
    rewrite (emitsIff_count_other _ _ ty _ _ _ H3),
            (emitsIff_count_other _ _ ty _ _ _ H4),
            (emitsIff_count_other _ _ ty _ _ _ H5).
    2-4: (intros <-; revert Hty; unfold OPEN_CHECKED;
          rewrite !elem_of_cons, elem_of_nil; intros [?|[?|[]]]; discriminate).
    unfold OPEN_CHECKED in Hty. rewrite !elem_of_cons, elem_of_nil in Hty.
    destruct Hty as [->|[->|[]]].
    + rewrite (emitsIff_count_other _ _ "low_stock" _ _ _ H2) by discriminate.
      destruct (emitsIff_count _ _ _ _ _ H1) as [Hle Hzero].
      split; [lia|]. intros Hopen. rewrite Hzero; [done|].
      unfold lowStockGuard. lia.
    + rewrite (emitsIff_count_other _ _ "expiry_warning" _ _ _ H1) by discriminate.
      destruct (emitsIff_count _ _ _ _ _ H2) as [Hle Hzero].
      split; [lia|]. intros Hopen. rewrite Hzero; [done|].
      unfold expiryGuard. lia.
Qed.

Lemma suspiciousStep_reads oneDayAgo acc doc w :
  readsAt (suspiciousStep oneDayAgo acc doc) w (λ r, ∃ new, r = acc ++ new ∧ True).
Proof.
  unfold suspiciousStep.
  eapply readsAt_bind; [apply reads_Transaction_find|].
  intros r w' Hw' ->.
  destruct (last _);
    [|apply readsAt_ret; exists []; by rewrite app_nil_r].
  repeat (destruct (_ <? _));
    apply readsAt_ret; first [by eexists [_]|exists []; by rewrite app_nil_r].
Qed.

Lemma detectSystemwideTheftPatterns_reads now acc w :
  readsAt (detectSystemwideTheftPatterns now acc) w
    (λ r, ∃ new, r = acc ++ new
       ∧ Forall (λ c, c_productId c = None ∧ c_type c = "organized_theft_pattern") new).
Proof.
  unfold detectSystemwideTheftPatterns. apply readsAt_tryCatch. cbv zeta.
  eapply readsAt_bind; [apply reads_Product_find_priceGt|].
  intros highValueProducts w1 Hw1 _.
  eapply readsAt_bind.
  { eapply (readsAt_forOf _ (λ _ _, True) highValueProducts w1); [|done].
    intros. apply suspiciousStep_reads. }
  intros suspiciousActivity w2 Hw2 _.
  destruct (3 <=? length suspiciousActivity)%nat.
  - apply readsAt_ret. eexists [_]. split; [done|]. by repeat constructor.
  - apply readsAt_ret. exists []. rewrite app_nil_r. split; [done|constructor].
Qed.

Lemma concat_count pid ty s docs news :
  ty ∈ OPEN_CHECKED → NoDup docs.*1 →
  Forall2 (λ (doc : N * Product) new, productPush s doc.1 new) docs news →
  (emittedCount pid ty (concat news) ≤ 1)%nat
  ∧ ((0 < openCount pid ty s)%nat → emittedCount pid ty (concat news) = 0%nat)
  ∧ (pid ∉ docs.*1 → emittedCount pid ty (concat news) = 0%nat).
Proof.
  intros Hty Hnd Hall. induction Hall as [|doc new docs news [Hprod Hcnt] _ IH].
  - unfold emittedCount. simpl. repeat split; intros; lia.
  - rewrite fmap_cons in Hnd. apply NoDup_cons in Hnd as [Hfresh Hnd].
    destruct (IH Hnd) as (IH1 & IH2 & IH3). clear IH.
    destruct (Hcnt ty Hty) as [Hle Hzero].
    simpl concat. rewrite emittedCount_app.
    destruct (decide (pid = doc.1)) as [->|Hne].
    + rewrite IH3 by done. split; [lia|]. split; [intros; rewrite Hzero; lia|].
      rewrite fmap_cons. intros Hnot. destruct Hnot. by left.
    + rewrite (emittedCount_other_product _ _ _ _ Hprod Hne).
      split; [done|]. split; [done|]. rewrite fmap_cons. intros Hnot.
      apply IH3. intros Hin. apply Hnot. by right.
Qed.

Lemma collectAnomalies_reads tz now w :
  readsAt (collectAnomalies tz now) w
    (λ batch, ∀ pid ty, ty ∈ OPEN_CHECKED →
       (emittedCount pid ty batch ≤ 1)%nat
       ∧ ((0 < openCount pid ty (store w))%nat → emittedCount pid ty batch = 0%nat)).
Proof.
  unfold collectAnomalies.
  eapply readsAt_bind; [apply reads_Product_find|].
  intros products w1 Hw1 ->.
  eapply readsAt_bind.
  { eapply (readsAt_forOf _ (λ doc new, productPush (store w) doc.1 new) _ w1); [|done].
    intros acc doc w' Hw' _. rewrite <- Hw1, <- Hw'. apply detectProduct_reads. }
  intros r w2 Hw2 (news & -> & Hnews). simpl in Hnews.
  eapply readsAt_mono; [apply detectSystemwideTheftPatterns_reads|].
  intros batch (extra & -> & Hextra) pid ty Hty. rewrite app_nil_l.
  rewrite emittedCount_app, (emittedCount_systemwide pid ty extra).
  2:{ eapply Forall_impl; [exact Hextra|]. by intros c [? _]. }
  destruct (concat_count pid ty (store w) _ news Hty
              (NoDup_fst_naturalOrder _) Hnews) as (H1 & H2 & _).
  split; [lia|]. intros. rewrite H2; [done|lia].
Qed.

Lemma open_imap_count pid ty (g : nat → Candidate → Anomaly) batch :
  (∀ i c, isOpen pid ty (g i c) ↔ isFor pid ty c) →
  length (filter (isOpen pid ty) (imap g batch)) = emittedCount pid ty batch.
Proof.
  revert g. induction batch as [|c batch IH]; intros g Hg; [done|].
  rewrite imap_cons. unfold emittedCount. rewrite !filter_cons.
  destruct (decide (isOpen pid ty (g 0%nat c))) as [Ho|Ho];
    destruct (decide (isFor pid ty c)) as [Hf|Hf].
  - simpl. f_equal. apply IH. intros i c'. apply Hg.
  - by apply Hg in Ho.
  - destruct Ho. by apply Hg.
  - apply IH. intros i c'. apply Hg.
Qed.

Lemma toAnomaly_open pid ty now first i c :
  isOpen pid ty (toAnomaly now first i c) ↔ isFor pid ty c.
Proof. unfold isOpen, isFor, toAnomaly. simpl. tauto. Qed.

(** One pass either stores its whole batch as fresh open anomalies and
    reports it, or stores nothing and reports an empty array. *)
Lemma detectAnomalies_run tz now w :
  let batch := pushed [] (collectAnomalies tz now) w in
  let run := detectAnomalies tz now w in
  (∀ pid ty, ty ∈ OPEN_CHECKED →
     (emittedCount pid ty batch ≤ 1)%nat
     ∧ ((0 < openCount pid ty (store w))%nat → emittedCount pid ty batch = 0%nat))
  ∧ ((run.1 = Return batch
      ∧ st_anomalies (store run.2)
        = st_anomalies (store w) ++ imap (toAnomaly now (st_nextId (store w))) batch)
     ∨ (run.1 = Return [] ∧ store run.2 = store w)).
Proof.
  intros batch run.
  destruct (collectAnomalies_reads tz now w) as (r & qs & Hrun & Hcount).
  assert (batch = r) as ->.
  { unfold batch, pushed. by rewrite Hrun. }
  split; [done|].
  unfold run, detectAnomalies, tryCatch, mbind, Db_bind. rewrite Hrun.
  destruct r as [|c r]; [right; done|].
  change (0 <? length (c :: r))%nat with true. cbv iota.
  unfold Anomaly_insertMany, mbind, Db_bind, ask, putStore, throw, mret, Db_ret.
  cbn [store queries fst snd].
  destruct (forallb anomalySchema (c :: r)); [left|right]; done.
Qed.

Lemma openCount_after_pass tz now w pid ty :
  ty ∈ OPEN_CHECKED →
  (openCount pid ty (store (detectAnomalies tz now w).2)
   ≤ Nat.max 1 (openCount pid ty (store w)))%nat.
Proof.
  intros Hty. destruct (detectAnomalies_run tz now w) as [Hcount [[_ Hst]|[_ Hst]]].
  - unfold openCount at 1. rewrite Hst, filter_app, length_app.
    rewrite (open_imap_count pid ty) by (intros; apply toAnomaly_open).
    fold (openCount pid ty (store w)).
    destruct (Hcount pid ty Hty) as [Hle Hzero].
    destruct (decide (0 < openCount pid ty (store w))%nat) as [Hopen|Hopen].
    + rewrite Hzero by done. lia.
    + lia.
  - rewrite Hst. lia.
Qed.

(** C9. Two detection passes in a row, nothing else touching the store in
    between: for [low_stock] and for [expiry_warning], the passes add an
    open anomaly of a product only where none was open, so a product with at
    most one before has at most one afterwards; the second pass emits none
    for a product that has an open one after the first; and whatever the
    first pass reports for a product is open in the store when the second
    starts, so the second emits no duplicate of it. *)
Theorem detection_idempotent_open_checked (w : World) (tz now1 now2 : Z) (pid : N)
    (ty : string) :
  ty = "low_stock" ∨ ty = "expiry_warning" →
  let run1 := detectAnomalies tz now1 w in
  let run2 := detectAnomalies tz now2 run1.2 in
  let batch2 := pushed [] (collectAnomalies tz now2) run1.2 in
  (openCount pid ty (store run2.2) ≤ Nat.max 1 (openCount pid ty (store w)))%nat
  ∧ ((openCount pid ty (store w) ≤ 1)%nat → (openCount pid ty (store run2.2) ≤ 1)%nat)
  ∧ ((0 < openCount pid ty (store run1.2))%nat → emittedCount pid ty batch2 = 0%nat)
  ∧ (∀ reported, run1.1 = Return reported →
       (0 < emittedCount pid ty reported)%nat →
       (0 < openCount pid ty (store run1.2))%nat
       ∧ emittedCount pid ty batch2 = 0%nat).
Proof.
  intros Hty run1 run2 batch2.
  assert (ty ∈ OPEN_CHECKED) as Hin.
  { unfold OPEN_CHECKED. rewrite !elem_of_cons. tauto. }
  pose proof (openCount_after_pass tz now1 w pid ty Hin) as H1.
  pose proof (openCount_after_pass tz now2 run1.2 pid ty Hin) as H2.
  fold run1 in H1, H2. fold run2 in H2.
  destruct (detectAnomalies_run tz now2 run1.2) as [Hcount2 _].
  fold batch2 in Hcount2. destruct (Hcount2 pid ty Hin) as [_ Hzero2].
  split; [lia|]. split; [lia|]. split; [done|].
  intros reported Hrep Hpos.
  assert (0 < openCount pid ty (store run1.2))%nat as Hopen; [|by auto].
  destruct (detectAnomalies_run tz now1 w) as [_ [[Hr Hst]|[Hr _]]];
    fold run1 in Hr; rewrite Hrep in Hr; injection Hr as ->.
  - fold run1 in Hst. unfold openCount. rewrite Hst, filter_app, length_app.
    rewrite (open_imap_count pid ty) by (intros; apply toAnomaly_open). lia.
  - unfold emittedCount in Hpos. simpl in Hpos. lia.
Qed.

(** ** Where the code leaves the specification *)

Lemma insertMany_rejects now docs w c :
  c ∈ docs → anomalySchema c = false →
  Anomaly_insertMany now docs w
  = (Throw "Anomaly validation failed",
     mkWorld (store w) (queries w ++ [QAnomalyInsertMany (length docs)])).
Proof.
  intros Hc Hbad. unfold Anomaly_insertMany. db_unfold. simpl.
  destruct (forallb anomalySchema docs) eqn:E; [|done].
  rewrite forallb_forall in E. apply list_elem_of_In in Hc.
  rewrite (E c Hc) in Hbad. discriminate.
Qed.

Lemma schema_rejects_theft_types c :
  c_type c = "inventory_shrinkage" ∨ c_type c = "organized_theft_pattern"
  ∨ c_productId c = None →
  anomalySchema c = false.
Proof.
  unfold anomalySchema. intros [-> | [-> | ->]]; [| |done].
  - by destruct (bool_decide (is_Some (c_productId c))).
  - by destruct (bool_decide (is_Some (c_productId c))).
Qed.

(** Whatever the store, a batch with a shrinkage or an organized-theft
    candidate is never written, and the pass reports nothing. *)
Lemma theft_batch_never_persisted tz now w c :
  c ∈ pushed [] (collectAnomalies tz now) w →
  c_type c = "inventory_shrinkage" ∨ c_type c = "organized_theft_pattern" →
  (detectAnomalies tz now w).1 = Return []
  ∧ store (detectAnomalies tz now w).2 = store w.
Proof.
  intros Hc Hty.
  destruct (collectAnomalies_reads tz now w) as (batch & qs & Hrun & _).
  unfold pushed in Hc. rewrite Hrun in Hc. simpl in Hc.
  unfold detectAnomalies, tryCatch, mbind, Db_bind. rewrite Hrun.
  destruct batch as [|c0 batch]; [by apply elem_of_nil in Hc|].
  change (0 <? length (c0 :: batch))%nat with true. cbv iota.
  rewrite (insertMany_rejects now (c0 :: batch) _ c Hc); [done|].
  apply schema_rejects_theft_types. tauto.
Qed.

(** C1. A pass over a store with one product that is low on stock and near
    expiry and one that shrinks collects a [low_stock], an [expiry_warning]
    and an [inventory_shrinkage] candidate. The last type is among the ten
    the specification lists, yet the Anomaly schema rejects the candidate,
    the bulk write raises, nothing is stored (the two valid candidates are
    lost with it) and the pass reports an empty array. *)
Theorem shrinkage_batch_not_persisted :
  let w := mkWorld mixedStore [] in
  let batch := pushed [] (collectAnomalies 0 NOW) w in
  c_type <$> batch = ["low_stock"; "expiry_warning"; "inventory_shrinkage"]
  ∧ "inventory_shrinkage" ∈ SPEC_ANOMALY_TYPES
  ∧ anomalySchema <$> batch = [true; true; false]
  ∧ (Anomaly_insertMany NOW batch w).1 = Throw "Anomaly validation failed"
  ∧ (detectAnomalies 0 NOW w).1 = Return []
  ∧ st_anomalies (store (detectAnomalies 0 NOW w).2) = [].
Proof.
  cbv zeta. split; [by vm_compute|].
  split; [unfold SPEC_ANOMALY_TYPES; rewrite !elem_of_cons; tauto|].
  repeat split; by vm_compute.
Qed.

(** C4. With two open anomalies of one product and no alert in the store,
    one alert pass writes two security alerts for that product, both stamped
    inside the same 2-hour window. *)
Theorem two_alerts_in_one_window :
  let w := mkWorld twoOpenStore [] in
  let after := store (generateTheftAlerts NOW w).2 in
  a_resolved <$> st_anomalies twoOpenStore = [false; false]
  ∧ securityAlertsOf 1 (NOW - 2 * HOUR_MS) twoOpenStore = []
  ∧ length (securityAlertsOf 1 (NOW - 2 * HOUR_MS) after) = 2%nat
  ∧ al_createdAt <$> securityAlertsOf 1 (NOW - 2 * HOUR_MS) after = [NOW; NOW].
Proof. cbv zeta. repeat split; by vm_compute. Qed.

(** C5. An anomaly resolved through the resolve route still gets an alert:
    the alert pass reads every anomaly of the listed types, resolved or not,
    and synthesizes an alert that names the resolved one. *)
Theorem resolved_anomaly_still_alerted :
  let w := mkWorld resolvedStore [] in
  (a_id <$> filter (λ a, a_resolved a = true) (st_anomalies resolvedStore)) = [901%N]
  ∧ pushed [] (generateTheftAlerts NOW) w
    = [mkAlertDraft "security" "🚨 SECURITY ALERT: LOW STOCK"
         "White Rice 1kg: Stock critically low: 5 units remaining" "error"
         (Some 1%N) 901 (95 # 100) "theft_prevention"]
  ∧ length (st_alerts (store (generateTheftAlerts NOW w).2)) = 1%nat.
Proof. cbv zeta. repeat split; by vm_compute. Qed.

Lemma bad_type_rejected w now productId quantity type reason userIdHeader product :
  st_products (store w) !! productId = Some product →
  type ∉ TRANSACTION_TYPES →
  (postStock now productId quantity type reason userIdHeader w).1
  = Return (ErrorJson 400 "Transaction validation failed")
  ∧ store (postStock now productId quantity type reason userIdHeader w).2 = store w.
Proof.
  intros Hp Hty. unfold postStock. db_unfold. simpl. rewrite Hp.
  unfold transactionSchema. simpl. by rewrite bool_decide_eq_false_2.
Qed.

(** C6. A sale with quantity -5, which [stockUpdateValidation] would turn
    down, is answered with success by the mounted route: a transaction with
    delta -5 is inserted and the product goes from 5 to 0. A quantity of 0
    is recorded the same way. *)
Theorem negative_quantity_is_applied :
  let w := mkWorld riceStore [] in
  let run := postStock NOW 1 (-5) "sale" None None w in
  let zero := postStock NOW 1 0 "restock" None None w in
  stockUpdateValidation (-5) "sale" None = false
  ∧ (∃ product transaction message, run.1 = Return (StockRecorded product transaction message))
  ∧ (t_quantity <$> st_transactions (store run.2)) = [-5]
  ∧ (p_quantity <$> st_products (store run.2) !! 1%N) = Some 0
  ∧ stockUpdateValidation 0 "restock" None = false
  ∧ (t_quantity <$> st_transactions (store zero.2)) = [0].
Proof.
  cbv zeta. split; [by vm_compute|]. split; [by eexists _, _, _; vm_compute|].
  repeat split; by vm_compute.
Qed.

(** The fragment in [src/routes/products.js] and the mounted route disagree
    on expiry and damage. *)
Lemma fragment_differs :
  quantityChange_fragment "expiry" 5 = 5 ∧ quantityChange "expiry" 5 = -5
  ∧ quantityChange_fragment "damage" 5 = 5 ∧ quantityChange "damage" 5 = -5.
Proof. by vm_compute. Qed.

(** C8. Eleven transactions of one product within the last two days, all in
    daytime and all by one actor. Booked under the user id [clerk] they make
    the detector flag excessive user activity and emit an
    [unauthorized_access_pattern] anomaly. Booked under [constructor], a
    name the object [userActivity] inherits, the counter turns into a string,
    no pattern is flagged and no anomaly is emitted. *)
Theorem inherited_actor_never_flagged :
  let clerk := accessWindow (dayStore "clerk") NOW 2 in
  let inherited := accessWindow (dayStore "constructor") NOW 2 in
  actorCount "clerk" clerk = 11%nat
  ∧ actorCount "constructor" inherited = 11%nat
  ∧ nightCount 0 clerk = 0%nat
  ∧ nightCount 0 inherited = 0%nat
  ∧ findPatterns 0 clerk = [excessivePattern "clerk" 11]
  ∧ (c_type <$> pushed [] (detectUnauthorizedAccess 0 NOW 2 soap [])
                  (mkWorld (dayStore "clerk") []))
    = ["unauthorized_access_pattern"]
  ∧ findPatterns 0 inherited = []
  ∧ pushed [] (detectUnauthorizedAccess 0 NOW 2 soap [])
      (mkWorld (dayStore "constructor") []) = [].
Proof. cbv zeta. repeat split; by vm_compute. Qed.

(** ** The theorems at work on the example stores *)

Lemma potential_theft_two_strike_witness :
  (∃ c, c ∈ pushed [] (detectPotentialTheft NOW 2 soap [])
                (mkWorld (shortStore [priorTheft]) [])
        ∧ c_type c = "potential_theft")
  ∧ pushed [] (detectPotentialTheft NOW 2 soap []) (mkWorld (shortStore []) []) = [].
Proof.
  split.
  - destruct (potential_theft_two_strike (mkWorld (shortStore [priorTheft]) [])
                NOW 2 soap []) as [Hiff _].
    apply Hiff. split; [by vm_compute|].
    exists priorTheft. split; [by left|]. repeat split. by vm_compute.
  - destruct (potential_theft_two_strike (mkWorld (shortStore []) []) NOW 2 soap [])
      as [_ Hnone].
    apply Hnone. intros a Ha. by apply elem_of_nil in Ha.
Defined.


Lemma shrinkage_detector_conditions_witness :
  (∃ c, pushed [] (detectShrinkagePatterns NOW 2 soap []) (mkWorld soapStore []) = [c])
  ∧ pushed [] (detectShrinkagePatterns NOW 2 soap [])
      (mkWorld (shortStore []) []) = [].
Proof.
  split.
  - destruct (shrinkage_detector_conditions (mkWorld soapStore []) NOW 2 soap [])
      as (_ & _ & Hemit & _).
    apply Hemit. unfold shrinkageGuard. cbv zeta.
    split; [by vm_compute|]. split; [by vm_compute|]. split; [by vm_compute|].
    intros a Ha. by apply elem_of_nil in Ha.
  - destruct (shrinkage_detector_conditions (mkWorld (shortStore []) []) NOW 2 soap [])
      as (_ & _ & _ & Hfew).
    apply Hfew. vm_compute. lia.
Defined.

Lemma unauthorized_access_detector_witness :
  ∃ c, pushed [] (detectUnauthorizedAccess 0 NOW 2 soap []) (mkWorld nightStore []) = [c]
       ∧ c_productId c = Some 2%N
       ∧ c_type c = "unauthorized_access_pattern"
       ∧ c_metadata c
         = MetaAccess (findPatterns 0 (accessWindow nightStore NOW 2))
             (length (accessWindow nightStore NOW 2)).
Proof.
  destruct (unauthorized_access_detector (mkWorld nightStore []) 0 NOW 2 soap [])
    as (_ & _ & _ & Hiff & _).
  apply Hiff. split; [by vm_compute|].
  intros a Ha. by apply elem_of_nil in Ha.
Defined.

Lemma detection_idempotent_open_checked_witness :
  (openCount 1 "low_stock"
     (store (detectAnomalies 0 (NOW + 1000)
               (detectAnomalies 0 NOW (mkWorld riceStore [])).2).2) ≤ 1)%nat
  ∧ ∀ reported, (detectAnomalies 0 NOW (mkWorld riceStore [])).1 = Return reported →
      (0 < emittedCount 1 "low_stock" reported)%nat →
      emittedCount 1 "low_stock"
        (pushed [] (collectAnomalies 0 (NOW + 1000))
           (detectAnomalies 0 NOW (mkWorld riceStore [])).2) = 0%nat.
Proof.
  destruct (detection_idempotent_open_checked (mkWorld riceStore []) 0 NOW (NOW + 1000)
              1 "low_stock" (or_introl eq_refl)) as (_ & Hone & _ & Hrep).
  split; [apply Hone; vm_compute; lia|]. intros reported Hr Hpos. by destruct (Hrep reported Hr Hpos).
Defined.

Lemma dormant_product_invisible_witness :
  pushed [] (detectPotentialTheft (NOW + 60 * DAY_MS) 2 soap []) (mkWorld soapStore [])
  = [].
Proof.
  destruct (dormant_product_invisible (mkWorld soapStore []) (NOW + 60 * DAY_MS) 2 soap [])
    as (_ & Hnone & _); [by vm_compute|exact Hnone].
Defined.

(** * Further properties of the rule engine *)

Lemma readsAt_conj {A} (m : Db A) (w : World) (P Q : A → Prop) :
  readsAt m w P → readsAt m w Q → readsAt m w (λ a, P a ∧ Q a).
Proof.
  intros (a & qs & Hm & HP) (a' & qs' & Hm' & HQ).
  rewrite Hm in Hm'. injection Hm' as <- _. exists a, qs. auto.
Qed.

Lemma readsAt_forOf_exact {A B} (body : list B → A → Db (list B)) (f : A → list B)
    (xs : list A) (w : World) :
  (∀ acc x w', store w' = store w → x ∈ xs →
     readsAt (body acc x) w' (λ r, r = acc ++ f x)) →
  ∀ acc w', store w' = store w →
    readsAt (forOf body xs acc) w' (λ r, r = acc ++ (xs ≫= f)).
Proof.
  intros Hbody acc w' Hw'.
  eapply readsAt_mono.
  - apply (readsAt_forOf body (λ x new, new = f x) xs w); [|done].
    intros acc' x w'' Hw'' Hx. eapply readsAt_mono; [by apply Hbody|].
    intros r ->. eauto.
  - intros r (news & -> & Hnews). f_equal.
    clear -Hnews. induction Hnews as [|x new xs news -> _ IH]; [done|].
    simpl. by rewrite IH.
Qed.

(** X1. [detectLowStock] adds exactly one [low_stock] candidate of the
    product when its quantity is at or below its minimum stock and the store
    holds no unresolved [low_stock] anomaly of it, and only then; the
    candidate is [critical] when the quantity is 0 and [high] otherwise.
    Above the minimum stock nothing is added. *)
Theorem low_stock_rule (w : World) (pid : N) (product : Product)
    (anomalies : list Candidate) :
  let new := pushed anomalies (detectLowStock pid product anomalies) w in
  ((∃ c, new = [c] ∧ c_productId c = Some pid ∧ c_type c = "low_stock"
         ∧ (c_severity c = "critical" ↔ p_quantity product = 0)
         ∧ (c_severity c = "high" ↔ p_quantity product ≠ 0))
   ↔ p_quantity product ≤ p_minimumStock product
     ∧ ∀ a, a ∈ st_anomalies (store w)
         → ¬ (a_productId a = Some pid ∧ a_type a = "low_stock" ∧ a_resolved a = false))
  ∧ (p_minimumStock product < p_quantity product → new = []).
Proof.
  intros new.
  pose proof (pushed_reads _ _ _ _ (detectLowStock_reads pid product anomalies w)) as Hnew.
  fold new in Hnew. unfold lowStockGuard in Hnew. split; [split|].
  - intros (c & Hc & _). rewrite Hc in Hnew.
    destruct (emitsIff_elem _ _ _ _ _ c Hnew ltac:(by left)) as [[Hq Hopen] _].
    split; [done|]. by apply openCount_zero.
  - intros [Hq Hopen].
    destruct (emitsIff_guard _ _ _ _ _ Hnew) as (c & -> & [? ?] & Hsev).
    { split; [done|]. by apply openCount_zero. }
    exists c. repeat split; try done; rewrite Hsev;
      destruct (Z.eqb_spec (p_quantity product) 0); done.
  - intros Hq. destruct Hnew as [([? _] & _)|[_ ->]]; [lia|done].
Qed.

(** X2. [detectExpiryWarnings] adds exactly one [expiry_warning] candidate
    when the product has an expiry date between 1 and 30 days ahead (days
    rounded up) and no unresolved [expiry_warning] anomaly of it is stored,
    and only then; it is [high] up to 7 days and [medium] beyond. A product
    without expiry date, already expired, or expiring later than 30 days
    ahead gets nothing. *)
Theorem expiry_warning_rule (w : World) (now : Z) (pid : N) (product : Product)
    (anomalies : list Candidate) :
  let new := pushed anomalies (detectExpiryWarnings now pid product anomalies) w in
  ((∃ c expiryDate, new = [c] ∧ c_productId c = Some pid ∧ c_type c = "expiry_warning"
         ∧ p_expiryDate product = Some expiryDate
         ∧ (c_severity c = "high" ↔ daysUntilExpiry now expiryDate ≤ 7)
         ∧ (c_severity c = "medium" ↔ 7 < daysUntilExpiry now expiryDate))
   ↔ (∃ expiryDate, p_expiryDate product = Some expiryDate
        ∧ 0 < daysUntilExpiry now expiryDate ≤ 30)
     ∧ ∀ a, a ∈ st_anomalies (store w)
         → ¬ (a_productId a = Some pid ∧ a_type a = "expiry_warning"
              ∧ a_resolved a = false))
  ∧ (p_expiryDate product = None → new = [])
  ∧ (∀ expiryDate, p_expiryDate product = Some expiryDate →
       expiryDate ≤ now ∨ now + 30 * DAY_MS < expiryDate → new = []).
Proof.
  intros new.
  pose proof (pushed_reads _ _ _ _
    (detectExpiryWarnings_reads now pid product anomalies w)) as Hnew.
  fold new in Hnew. unfold expiryGuard in Hnew. split; [split|split].
  - intros (c & e & Hc & _). rewrite Hc in Hnew.
    destruct (emitsIff_elem _ _ _ _ _ c Hnew ltac:(by left)) as [[Hd Hopen] _].
    split; [done|]. by apply openCount_zero.
  - intros [Hd Hopen].
    destruct (emitsIff_guard _ _ _ _ _ Hnew) as (c & -> & [? ?] & e & He & Hsev).
    { split; [done|]. by apply openCount_zero. }
    exists c, e. repeat split; try done; rewrite Hsev;
      destruct (Z.leb_spec (daysUntilExpiry now e) 7); (done || lia).
  - intros Hnone. destruct Hnew as [([(e & He & _) _] & _)|[_ ->]]; [congruence|done].
  - intros e He Hout. destruct Hnew as [([(e' & He' & Hd) _] & _)|[_ ->]]; [|done].
    rewrite He in He'. injection He' as <-. exfalso.
    unfold daysUntilExpiry, ceilDiv, DAY_MS, HOUR_MS in *.
    destruct Hout as [Hout|Hout].
    + assert (0 ≤ (- (e - now)) / (24 * (60 * 60 * 1000))) by (apply Z.div_pos; lia). lia.
    + assert ((- (e - now)) / (24 * (60 * 60 * 1000)) < -30); [|lia].
      apply Z.div_lt_upper_bound; lia.
Qed.

(** ** What the detectors hand to the schema *)

Lemma calculateTheftConfidence_bounds now unexplainedLosses totalLoss :
  ((1 # 2) <= calculateTheftConfidence now unexplainedLosses totalLoss)%Q
  ∧ (calculateTheftConfidence now unexplainedLosses totalLoss <= (95 # 100))%Q.
Proof.
  unfold calculateTheftConfidence. cbv zeta.
  repeat match goal with
         | |- context [if ?b then _ else _] => destruct b
         end; by vm_compute.
Qed.

Lemma Qle_bool_true x y : (x <= y)%Q → Qle_bool x y = true.
Proof. apply Qle_bool_iff. Qed.

Ltac ret_nothing :=
  apply readsAt_ret; exists []; rewrite app_nil_r; split; [done|constructor].
Ltac ret_single :=
  apply readsAt_ret; eexists [_]; split; [done|]; constructor; [|constructor].

Lemma detectLowStock_valid pid product acc w :
  readsAt (detectLowStock pid product acc) w
    (λ r, ∃ new, r = acc ++ new ∧ Forall (λ c, anomalySchema c = true) new).
Proof.
  unfold detectLowStock. apply readsAt_tryCatch.
  destruct (_ <=? _); [|ret_nothing].
  eapply readsAt_bind; [apply reads_Anomaly_findOne|].
  intros r w' _ ->. destruct (head _); [ret_nothing|ret_single].
  by destruct (p_quantity product =? 0).
Qed.

Lemma detectExpiryWarnings_valid now pid product acc w :
  readsAt (detectExpiryWarnings now pid product acc) w
    (λ r, ∃ new, r = acc ++ new ∧ Forall (λ c, anomalySchema c = true) new).
Proof.
  unfold detectExpiryWarnings. apply readsAt_tryCatch.
  destruct (p_expiryDate product) as [expiryDate|]; [|ret_nothing].
  cbv zeta. destruct (_ && _); [|ret_nothing].
  eapply readsAt_bind; [apply reads_Anomaly_findOne|].
  intros r w' _ ->. destruct (head _); [ret_nothing|ret_single].
  by destruct (_ <=? 7).
Qed.

Lemma detectPotentialTheft_valid now pid product acc w :
  readsAt (detectPotentialTheft now pid product acc) w
    (λ r, ∃ new, r = acc ++ new
       ∧ Forall (λ c, anomalySchema c = true
                      ∧ c_severity c
                        = theftSeverity product (totalLoss (store w) now pid product)
                      ∧ ((1 # 2) <= c_aiConfidence c)%Q
                      ∧ (c_aiConfidence c <= (95 # 100))%Q) new).
Proof.
  unfold detectPotentialTheft, totalLoss, ledgerSince. apply readsAt_tryCatch.
  eapply readsAt_bind; [apply reads_Transaction_find|].
  intros r w' _ ->. cbv zeta.
  destruct (sortByCreatedAt _) as [|first rest]; [ret_nothing|].
  destruct (0 <? length _)%nat; [|ret_nothing].
  eapply readsAt_bind; [apply reads_Anomaly_findOne|].
  intros r w'' _ ->. destruct (_ && _); [|ret_nothing]. ret_single.
  set (losses := findLosses now product first (first :: rest)).
  destruct (calculateTheftConfidence_bounds now losses (sumDiscrepancy losses))
    as [Hlo Hhi].
  split; [|done]. unfold anomalySchema. cbn [c_productId c_type c_severity
    c_description c_aiConfidence].
  fold losses.
  rewrite (Qle_bool_true (0 # 1)%Q (calculateTheftConfidence now losses (sumDiscrepancy losses)))
    by (eapply Qle_trans; [|exact Hlo]; by vm_compute).
  rewrite (Qle_bool_true (calculateTheftConfidence now losses (sumDiscrepancy losses)) (1 # 1)%Q)
    by (eapply Qle_trans; [exact Hhi|]; by vm_compute).
  repeat match goal with
         | |- context [if ?b then _ else _] => destruct b
         end; done.
Qed.

Lemma detectShrinkagePatterns_type now pid product acc w :
  readsAt (detectShrinkagePatterns now pid product acc) w
    (λ r, ∃ new, r = acc ++ new ∧ Forall (λ c, c_type c = "inventory_shrinkage") new).
Proof.
  eapply readsAt_mono; [apply detectShrinkagePatterns_reads|].
  intros r (new & -> & Hnew). exists new. split; [done|].
  destruct Hnew as [(_ & c & -> & [_ Hty] & _)|[_ ->]]; by repeat constructor.
Qed.

Lemma detectUnauthorizedAccess_valid tz now pid product acc w :
  readsAt (detectUnauthorizedAccess tz now pid product acc) w
    (λ r, ∃ new, r = acc ++ new ∧ Forall (λ c, anomalySchema c = true) new).
Proof.
  unfold detectUnauthorizedAccess. apply readsAt_tryCatch.
  eapply readsAt_bind; [apply reads_Transaction_find|].
  intros r w' _ ->. cbv zeta.
  destruct (0 <? length _)%nat; [|ret_nothing].
  eapply readsAt_bind; [apply reads_Anomaly_findOne|].
  intros r w'' _ ->. destruct (head _); [ret_nothing|ret_single].
  by destruct (existsb _ _).
Qed.

Lemma collectAnomalies_storable tz now w :
  readsAt (collectAnomalies tz now) w (Forall storable).
Proof.
  unfold collectAnomalies.
  eapply readsAt_bind; [apply reads_Product_find|].
  intros products w1 Hw1 _.
  eapply readsAt_bind.
  { eapply (readsAt_forOf _ (λ _ new, Forall storable new) _ w1); [|done].
    intros acc doc w' Hw' _. unfold detectProduct.
    eapply readsAt_bind; [apply detectLowStock_valid|].
    intros r1 w2 _ (n1 & -> & H1).
    eapply readsAt_bind; [apply detectExpiryWarnings_valid|].
    intros r2 w3 _ (n2 & -> & H2).
    eapply readsAt_bind; [apply detectPotentialTheft_valid|].
    intros r3 w4 _ (n3 & -> & H3).
    eapply readsAt_bind; [apply detectShrinkagePatterns_type|].
    intros r4 w5 _ (n4 & -> & H4).
    eapply readsAt_mono; [apply detectUnauthorizedAccess_valid|].
    intros r5 (n5 & -> & H5).
    exists (n1 ++ n2 ++ n3 ++ n4 ++ n5). split; [by rewrite <- !app_assoc|].
    repeat apply Forall_app_2.
    - eapply Forall_impl; [exact H1|]. by left.
    - eapply Forall_impl; [exact H2|]. by left.
    - eapply Forall_impl; [exact H3|]. intros c [? _]. by left.
    - eapply Forall_impl; [exact H4|]. intros c Hc. right. rewrite Hc.
      unfold THEFT_TYPES. by left.
    - eapply Forall_impl; [exact H5|]. by left. }
  intros r w2 Hw2 (news & -> & Hnews).
  eapply readsAt_mono; [apply detectSystemwideTheftPatterns_reads|].
  intros batch (extra & -> & Hextra). rewrite app_nil_l. apply Forall_app_2.
  - clear -Hnews. induction Hnews as [|x new xs news Hnew _ IH]; [constructor|].
    simpl. by apply Forall_app_2.
  - eapply Forall_impl; [exact Hextra|]. intros c [_ Hc]. right. rewrite Hc.
    unfold THEFT_TYPES. rewrite !elem_of_cons. tauto.
Qed.

(** X3. Every candidate [detectPotentialTheft] adds is graded by the loss it
    computed. The value of the loss is the double nearest to the loss times
    the price, so the candidate is [critical] exactly when that product, as
    a real number, exceeds 500 by more than [2^-45], half the gap between
    500 and the next double; else it is [high] when more than 10 units are
    lost and [medium] otherwise. Its confidence lies between 0.5 and 0.95
    and the Anomaly schema accepts it. *)
Theorem potential_theft_grading (w : World) (now : Z) (pid : N) (product : Product)
    (anomalies : list Candidate) (c : Candidate) :
  c ∈ pushed anomalies (detectPotentialTheft now pid product anomalies) w →
  let loss := totalLoss (store w) now pid product in
  let exact := (inject_Z loss * p_price product)%Q in
  let least := (500 + (1 # 35184372088832))%Q in
  (c_severity c = "critical" ↔ (least < exact)%Q)
  ∧ (c_severity c = "high" ↔ (exact <= least)%Q ∧ 10 < loss)
  ∧ (c_severity c = "medium" ↔ (exact <= least)%Q ∧ loss ≤ 10)
  ∧ ((1 # 2) <= c_aiConfidence c)%Q ∧ (c_aiConfidence c <= (95 # 100))%Q
  ∧ anomalySchema c = true.
Proof.
  intros Hc loss exact least.
  pose proof (pushed_reads _ _ _ _ (detectPotentialTheft_valid now pid product anomalies w))
    as Hall.
  rewrite Forall_forall in Hall. destruct (Hall c Hc) as (Hvalid & Hsev & Hlo & Hhi).
  fold loss in Hsev. unfold theftSeverity, jsMul in Hsev. fold exact in Hsev.
  split; [|split; [|split; [|by repeat split]]]; rewrite Hsev.
  all: destruct (Qltb (500 # 1) (toDouble exact)) eqn:Hq;
    [apply Qltb_lt, toDouble_above_500 in Hq; fold least in Hq
    |apply not_true_iff_false in Hq; rewrite Qltb_lt, toDouble_above_500 in Hq;
     fold least in Hq; apply Qnot_lt_le in Hq];
    destruct (Z.ltb_spec 10 loss); split; try done.
  all: try (intros _; split; [done|lia]).
  all: try (intros [Hle _]; by apply Qle_not_lt in Hle).
  all: try (intros Hlt; by apply Qle_not_lt in Hq).
  all: try (intros [_ ?]; lia).
Qed.

Lemma detectAnomalies_cases tz now w :
  let batch := pushed [] (collectAnomalies tz now) w in
  let run := detectAnomalies tz now w in
  (run.1 = Return batch ∧ forallb anomalySchema batch = true ∧ batch ≠ []
   ∧ store run.2
     = mkStore (st_products (store w)) (st_transactions (store w))
         (st_anomalies (store w) ++ imap (toAnomaly now (st_nextId (store w))) batch)
         (st_alerts (store w)) (st_nextId (store w) + N.of_nat (length batch))%N)
  ∨ (run.1 = Return [] ∧ store run.2 = store w
     ∧ (batch = [] ∨ forallb anomalySchema batch = false)).
Proof.
  intros batch run.
  destruct (collectAnomalies_reads tz now w) as (r & qs & Hrun & _).
  assert (batch = r) as ->.
  { unfold batch, pushed. by rewrite Hrun. }
  unfold run, detectAnomalies, tryCatch, mbind, Db_bind. rewrite Hrun.
  destruct r as [|c r]; [right; auto|].
  change (0 <? length (c :: r))%nat with true. cbv iota.
  unfold Anomaly_insertMany, mbind, Db_bind, ask, putStore, throw, mret, Db_ret.
  cbn [store queries fst snd].
  destruct (forallb anomalySchema (c :: r)) eqn:E; [left|right]; auto.
Qed.

(** X4. A detection pass stores and reports the candidates it collected
    exactly when none of them is of type [inventory_shrinkage] or
    [organized_theft_pattern]: then the anomalies collection grows by the
    batch, in order. One candidate of either type and the pass reports the
    empty array and leaves the store as it was. *)
Theorem pass_persists_iff (w : World) (tz now : Z) :
  let batch := pushed [] (collectAnomalies tz now) w in
  let run := detectAnomalies tz now w in
  ((run.1 = Return batch
    ∧ st_anomalies (store run.2)
      = st_anomalies (store w) ++ imap (toAnomaly now (st_nextId (store w))) batch)
   ↔ ∀ c, c ∈ batch → c_type c ≠ "inventory_shrinkage"
                     ∧ c_type c ≠ "organized_theft_pattern")
  ∧ ((∃ c, c ∈ batch ∧ (c_type c = "inventory_shrinkage"
                        ∨ c_type c = "organized_theft_pattern"))
     → run.1 = Return [] ∧ store run.2 = store w).
Proof.
  intros batch run.
  assert ((∃ c, c ∈ batch ∧ (c_type c = "inventory_shrinkage"
                             ∨ c_type c = "organized_theft_pattern"))
          → run.1 = Return [] ∧ store run.2 = store w) as Hbad.
  { intros (c & Hc & Hty). by eapply theft_batch_never_persisted. }
  split; [|done]. split.
  - intros [Hret _] c Hc.
    destruct (decide (c_type c = "inventory_shrinkage")) as [Hs|Hs];
      [|destruct (decide (c_type c = "organized_theft_pattern")) as [Ho|Ho]; [|done]].
    all: destruct Hbad as [Hnil _]; [eauto|];
      rewrite Hnil in Hret; injection Hret as Hret; rewrite <- Hret in Hc;
      by apply elem_of_nil in Hc.
  - intros Hclean.
    pose proof (detectAnomalies_cases tz now w) as Hcases. cbv zeta in Hcases.
    fold batch in Hcases. fold run in Hcases.
    destruct Hcases as [(Hr & _ & _ & Hst)|(Hr & Hst & Hwhy)].
    + split; [done|]. by rewrite Hst.
    + destruct Hwhy as [Hnil|Hinvalid].
      * rewrite Hnil. split; [done|]. rewrite Hst. simpl. by rewrite app_nil_r.
      * exfalso. apply not_true_iff_false in Hinvalid. apply Hinvalid.
        apply forallb_forall. intros c Hc. apply list_elem_of_In in Hc.
        pose proof (proj2 (readsAt_store _ _ _ (collectAnomalies_storable tz now w)))
          as (r & Hr' & Hall).
        assert (batch = r) as Hb.
        { unfold batch, pushed. by rewrite Hr'. }
        rewrite <- Hb in Hall. rewrite Forall_forall in Hall.
        destruct (Hall c Hc) as [Hv|Hty]; [done|]. exfalso.
        destruct (Hclean c Hc) as [H1 H2]. unfold THEFT_TYPES in Hty.
        rewrite !elem_of_cons, elem_of_nil in Hty. tauto.
Qed.

(** X5. A detection pass never throws and never touches products,
    transactions or alerts; the anomalies it had stay, and it appends one
    unresolved anomaly stamped [now], with a fresh id, for each candidate it
    reports; every reported candidate passes the Anomaly schema. *)
Theorem detection_only_appends (w : World) (tz now : Z) :
  let run := detectAnomalies tz now w in
  st_products (store run.2) = st_products (store w)
  ∧ st_transactions (store run.2) = st_transactions (store w)
  ∧ st_alerts (store run.2) = st_alerts (store w)
  ∧ ∃ reported added,
      run.1 = Return reported
      ∧ st_anomalies (store run.2) = st_anomalies (store w) ++ added
      ∧ length added = length reported
      ∧ Forall (λ a, a_resolved a = false ∧ a_createdAt a = now
                     ∧ (st_nextId (store w) ≤ a_id a)%N) added
      ∧ Forall (λ c, anomalySchema c = true) reported.
Proof.
  intros run.
  pose proof (detectAnomalies_cases tz now w) as Hcases. cbv zeta in Hcases.
  fold run in Hcases.
  destruct Hcases as [(Hr & Hv & _ & Hst)|(Hr & Hst & _)]; rewrite Hst; simpl.
  - do 3 (split; [done|]). eexists _, _. split; [exact Hr|]. split; [done|].
    split; [by rewrite length_imap|]. split.
    + apply Forall_forall. intros a Ha. apply elem_of_lookup_imap in Ha
        as (i & c & -> & _). simpl. repeat split; try done. lia.
    + apply Forall_forall. intros c Hc. rewrite forallb_forall in Hv.
      apply Hv. by apply list_elem_of_In.
  - do 3 (split; [done|]). exists [], []. rewrite app_nil_r.
    split; [done|]. split; [done|]. split; [done|]. split; constructor.
Qed.

(** ** The system-wide pass *)

Lemma suspiciousStep_exact oneDayAgo acc doc w :
  readsAt (suspiciousStep oneDayAgo acc doc) w
    (λ r, r = acc ++ suspiciousOf (store w) oneDayAgo doc).
Proof.
  unfold suspiciousStep, suspiciousOf.
  eapply readsAt_bind; [apply reads_Transaction_find|].
  intros r w' _ ->.
  destruct (last _) as [lastTransaction|]; [|apply readsAt_ret; by rewrite app_nil_r].
  destruct (Z.ltb_spec (p_quantity doc.2) (t_newQuantity lastTransaction)) as [Hlt|Hge];
    [|apply readsAt_ret; by rewrite app_nil_r].
  destruct (Z.ltb_spec 0 (t_newQuantity lastTransaction - p_quantity doc.2)); [|lia].
  by apply readsAt_ret.
Qed.

Lemma suspiciousOf_length s oneDayAgo doc : (length (suspiciousOf s oneDayAgo doc) ≤ 1)%nat.
Proof.
  unfold suspiciousOf. destruct (last _); [|simpl; lia].
  destruct (_ <? _); simpl; lia.
Qed.

Lemma bind_length_filter {A B} (f : A → list B) (l : list A) :
  (∀ x, length (f x) ≤ 1)%nat →
  length (l ≫= f) = length (filter (λ x, f x ≠ []) l).
Proof.
  intros Hf. induction l as [|x l IH]; [done|].
  rewrite bind_cons, length_app, IH, filter_cons.
  specialize (Hf x). case_decide as Hd.
  - destruct (f x) as [|b [|b' r]]; simpl in *; [done|done|lia].
  - rewrite Hd. done.
Qed.

Lemma suspiciousOf_nonempty s oneDayAgo doc :
  suspiciousOf s oneDayAgo doc ≠ []
  ↔ ∃ lastTransaction,
      last (filter (inWindow doc.1 oneDayAgo) (st_transactions s)) = Some lastTransaction
      ∧ p_quantity doc.2 < t_newQuantity lastTransaction.
Proof.
  unfold suspiciousOf. destruct (last _) as [t|]; [|split; [done|by intros (? & ? & _)]].
  destruct (Z.ltb_spec (p_quantity doc.2) (t_newQuantity t)); split; try done.
  - eauto.
  - intros (t' & [= <-] & ?). lia.
Qed.

Lemma elem_of_suspects s now doc :
  doc ∈ suspects s now
  ↔ st_products s !! doc.1 = Some doc.2 ∧ isSuspicious s (now - DAY_MS) doc.
Proof.
  unfold suspects, isSuspicious.
  rewrite list_elem_of_filter, elem_of_naturalOrder, Qltb_lt, suspiciousOf_nonempty.
  tauto.
Qed.

Lemma reads_Product_find_priceGt_exact bound w :
  readsAt (Product_find_priceGt bound) w
    (λ r, r = filter (λ d, Qltb bound (p_price d.2) = true)
                (naturalOrder (st_products (store w)))).
Proof. by eexists _, [_]. Qed.

Lemma detectSystemwideTheftPatterns_exact now acc w :
  let n := length (suspects (store w) now) in
  readsAt (detectSystemwideTheftPatterns now acc) w
    (λ r, ∃ new, r = acc ++ new
       ∧ (((3 ≤ n)%nat
           ∧ ∃ c totalValue items, new = [c] ∧ c_productId c = None
               ∧ c_type c = "organized_theft_pattern" ∧ c_severity c = "critical"
               ∧ c_metadata c = MetaOrganized n totalValue items now
               ∧ length items = Nat.min 10 n)
          ∨ ((n < 3)%nat ∧ new = []))).
Proof.
  intros n. unfold detectSystemwideTheftPatterns. apply readsAt_tryCatch. cbv zeta.
  eapply readsAt_bind; [apply reads_Product_find_priceGt_exact|].
  intros highValueProducts w1 Hw1 ->.
  eapply readsAt_bind.
  { eapply (readsAt_forOf_exact _ (suspiciousOf (store w) (now - DAY_MS)) _ w);
      [|done]. intros acc' doc w' Hw' _. rewrite <- Hw'. apply suspiciousStep_exact. }
  intros suspiciousActivity w2 Hw2 ->. rewrite app_nil_l.
  rewrite (bind_length_filter _ _ (suspiciousOf_length _ _)), list_filter_filter.
  assert (length (filter (λ x, suspiciousOf (store w) (now - DAY_MS) x ≠ []
                               ∧ Qltb (100 # 1) (p_price x.2) = true)
                    (naturalOrder (st_products (store w)))) = n) as ->.
  { unfold n, suspects. f_equal. apply list_filter_iff. intros doc. tauto. }
  destruct (Nat.leb_spec 3 n) as [Hn|Hn]; apply readsAt_ret.
  - eexists [_]. split; [done|]. left. split; [done|].
    eexists _, _, _. repeat split. rewrite length_take.
    rewrite (bind_length_filter _ _ (suspiciousOf_length _ _)), list_filter_filter.
    f_equal. unfold n, suspects. f_equal. apply list_filter_iff. intros doc. tauto.
  - exists []. rewrite app_nil_r. split; [done|]. by right.
Qed.

(** X6. [detectSystemwideTheftPatterns] counts the products priced above
    100 whose live quantity lies below the new quantity of their last
    transaction of the past 24 hours. With three or more of them it adds one
    [critical] [organized_theft_pattern] candidate without product, carrying
    their number and at most ten of them, which the Anomaly schema rejects;
    with fewer than three it adds nothing. *)
Theorem organized_theft_threshold (w : World) (now : Z) (anomalies : list Candidate) :
  let n := length (suspects (store w) now) in
  let new := pushed anomalies (detectSystemwideTheftPatterns now anomalies) w in
  (∀ doc, doc ∈ suspects (store w) now
          ↔ st_products (store w) !! doc.1 = Some doc.2
            ∧ isSuspicious (store w) (now - DAY_MS) doc)
  ∧ ((3 ≤ n)%nat →
     ∃ c totalValue items,
       new = [c] ∧ c_productId c = None ∧ c_type c = "organized_theft_pattern"
       ∧ c_severity c = "critical"
       ∧ c_metadata c = MetaOrganized n totalValue items now
       ∧ length items = Nat.min 10 n
       ∧ anomalySchema c = false)
  ∧ ((n < 3)%nat → new = []).
Proof.
  intros n new. split; [apply elem_of_suspects|].
  pose proof (pushed_reads _ _ _ _ (detectSystemwideTheftPatterns_exact now anomalies w))
    as Hnew. cbv zeta in Hnew. fold new in Hnew. fold n in Hnew.
  split.
  - intros Hn. destruct Hnew as [(_ & c & v & items & Hc)|[? _]]; [|lia].
    exists c, v, items. destruct Hc as (? & Hpid & ? & ? & ? & ?).
    repeat split; try done. apply schema_rejects_theft_types. tauto.
  - intros Hn. destruct Hnew as [(? & _)|[_ ?]]; [lia|done].
Qed.

(** ** Grading of the access anomaly *)

Lemma detectUnauthorizedAccess_severity tz now pid product acc w :
  readsAt (detectUnauthorizedAccess tz now pid product acc) w
    (λ r, ∃ new, r = acc ++ new
       ∧ Forall (λ c, c_severity c
                      = if existsb (λ p, String.eqb (pt_type p) "after_hours_access")
                             (findPatterns tz (accessWindow (store w) now pid))
                        then "high" else "medium") new).
Proof.
  unfold detectUnauthorizedAccess, accessWindow. apply readsAt_tryCatch.
  eapply readsAt_bind; [apply reads_Transaction_find|].
  intros r w' _ ->. cbv zeta.
  destruct (0 <? length _)%nat; [|ret_nothing].
  eapply readsAt_bind; [apply reads_Anomaly_findOne|].
  intros r w'' _ ->. destruct (head _); [ret_nothing|ret_single]. done.
Qed.

(** X7. A candidate added by [detectUnauthorizedAccess] is [high] when more
    than two transactions of the product's last 7 days were booked in the
    hours 23 or 0 to 5 of the server's clock and [medium] otherwise; the
    after-hours pattern carries that number, and a pattern naming a user
    carries the number of transactions of the window booked under that user
    ([unknown] standing for a transaction that names none). *)
Theorem access_anomaly_grading (w : World) (tz now : Z) (pid : N) (product : Product)
    (anomalies : list Candidate) (c : Candidate) :
  c ∈ pushed anomalies (detectUnauthorizedAccess tz now pid product anomalies) w →
  let txs := accessWindow (store w) now pid in
  (c_severity c = "high" ↔ (2 < nightCount tz txs)%nat)
  ∧ (c_severity c = "medium" ↔ (nightCount tz txs ≤ 2)%nat)
  ∧ ∀ p, p ∈ findPatterns tz txs →
      (pt_type p = "after_hours_access" → pt_count p = nightCount tz txs)
      ∧ ∀ u, pt_userId p = Some u → pt_count p = actorCount u txs.
Proof.
  intros Hc txs.
  pose proof (pushed_reads _ _ _ _
    (detectUnauthorizedAccess_severity tz now pid product anomalies w)) as Hall.
  rewrite Forall_forall in Hall. specialize (Hall c Hc). fold txs in Hall.
  assert (existsb (λ p, String.eqb (pt_type p) "after_hours_access")
            (findPatterns tz txs) = true ↔ (2 < nightCount tz txs)%nat) as Hex.
  { rewrite <- findPatterns_after_hours, existsb_exists.
    split; intros (p & Hp & Hty); exists p.
    - apply list_elem_of_In in Hp. by apply String.eqb_eq in Hty.
    - split; [by apply list_elem_of_In|by apply String.eqb_eq]. }
  split; [|split].
  - rewrite Hall. destruct (existsb _ _); split; try done.
    + intros _. by apply Hex.
    + intros Hn. apply Hex in Hn. done.
  - rewrite Hall. destruct (existsb _ _) eqn:E; split; try done.
    + intros Hn. assert (2 < nightCount tz txs)%nat by by apply Hex. lia.
    + intros _. destruct (decide (2 < nightCount tz txs)%nat) as [Hn|Hn]; [|lia].
      apply Hex in Hn. done.
  - intros p Hp. destruct (findPatterns_kinds _ _ _ Hp) as [->|[u ->]]; split; try done.
    intros u' [= <-]. done.
Qed.

(** * The alert pass *)

Lemma findOne_alert_None s since key :
  head (filter (matchesAlert "security" key since) (st_alerts s)) = None
  ↔ ¬ cooling s since key.
Proof.
  rewrite head_filter_None. unfold cooling. split.
  - intros Hall (al & Hal & Hm). by apply (Hall al).
  - intros Hnone al Hal Hm. apply Hnone. eauto.
Qed.

Lemma alertStep_exact now alerts doc w :
  readsAt (alertStep now alerts doc) w
    (λ r, r = alerts ++ if decide (cooling (store w) (now - 2 * HOUR_MS) (fst <$> doc.2))
                        then [] else [securityAlertFor doc]).
Proof.
  unfold alertStep. cbv zeta.
  eapply readsAt_bind; [apply reads_Alert_findOne|].
  intros r w' _ ->. destruct (head _) eqn:E; apply readsAt_ret.
  - rewrite decide_True; [by rewrite app_nil_r|].
    destruct (decide (cooling (store w) (now - 2 * HOUR_MS) (fst <$> doc.2))); [done|].
    apply findOne_alert_None in n. congruence.
  - rewrite decide_False; [done|]. by apply findOne_alert_None.
Qed.

Lemma bind_if_filter {A B} (P : A → Prop) `{∀ x, Decision (P x)} (f : A → B) (l : list A) :
  l ≫= (λ x, if decide (P x) then [] else [f x]) = f <$> filter (λ x, ¬ P x) l.
Proof.
  induction l as [|x l IH]; [done|].
  rewrite bind_cons, IH, filter_cons. destruct (decide (P x)) as [HP|HP].
  - rewrite decide_False by tauto. done.
  - rewrite decide_True by done. done.
Qed.

Lemma filter_fmap_comm {A B} (P : B → Prop) `{∀ y, Decision (P y)} (f : A → B)
    (l : list A) :
  filter P (f <$> l) = f <$> filter (λ x, P (f x)) l.
Proof.
  induction l as [|x l IH]; [done|].
  rewrite fmap_cons, !filter_cons, IH. by destruct (decide (P (f x))).
Qed.

Lemma alertsDue_reads now w :
  readsAt (theftAnomalies ← Anomaly_find_typeIn THEFT_ALERT_TYPES;
           forOf (alertStep now) theftAnomalies []) w
    (λ r, r = alertsDue (store w) now).
Proof.
  eapply readsAt_bind.
  { instantiate (1 := λ r, r = populate (store w) <$> listedAnomalies (store w)).
    by eexists _, [_]. }
  intros docs w1 Hw1 ->.
  eapply readsAt_mono.
  - eapply (readsAt_forOf_exact _
      (λ doc, if decide (cooling (store w) (now - 2 * HOUR_MS) (fst <$> doc.2))
              then [] else [securityAlertFor doc]) _ w); [|done].
    intros acc doc w' Hw' _. rewrite <- Hw'. apply alertStep_exact.
  - intros r ->. rewrite app_nil_l, bind_if_filter. unfold alertsDue.
    rewrite filter_fmap_comm, <- list_fmap_compose. done.
Qed.

Lemma generateTheftAlerts_cases now w :
  let due := alertsDue (store w) now in
  let run := generateTheftAlerts now w in
  (run.1 = Return due ∧ forallb alertSchema due = true ∧ due ≠ []
   ∧ store run.2
     = mkStore (st_products (store w)) (st_transactions (store w))
         (st_anomalies (store w))
         (st_alerts (store w) ++ imap (toAlert now (st_nextId (store w))) due)
         (st_nextId (store w) + N.of_nat (length due))%N)
  ∨ (run.1 = Return [] ∧ store run.2 = store w
     ∧ (due = [] ∨ forallb alertSchema due = false)).
Proof.
  intros due run.
  destruct (alertsDue_reads now w) as (r & qs & Hrun & ->). fold due in Hrun.
  unfold run, generateTheftAlerts, tryCatch.
  unfold mbind, Db_bind in *.
  destruct (Anomaly_find_typeIn THEFT_ALERT_TYPES w) as [[docs|e] w1] eqn:Hfind;
    [|discriminate Hrun].
  rewrite Hrun.
  destruct due as [|d due']; [right; auto|].
  change (0 <? length (d :: due'))%nat with true. cbv iota.
  unfold Alert_insertMany, mbind, Db_bind, ask, putStore, throw, mret, Db_ret.
  cbn [store queries fst snd].
  destruct (forallb alertSchema (d :: due')) eqn:E; [left|right]; auto.
Qed.

Lemma elem_of_alertsDue s now d :
  d ∈ alertsDue s now
  ↔ ∃ a, a ∈ st_anomalies s ∧ a_type a ∈ THEFT_ALERT_TYPES
         ∧ ¬ cooling s (now - 2 * HOUR_MS) (alertKey s a)
         ∧ d = securityAlertFor (populate s a).
Proof.
  unfold alertsDue, listedAnomalies. rewrite list_elem_of_fmap. split.
  - intros (a & -> & Ha). apply list_elem_of_filter in Ha as [Hcool Ha].
    apply list_elem_of_filter in Ha as [Hty Ha]. eauto.
  - intros (a & Ha & Hty & Hcool & ->). exists a. split; [done|].
    apply list_elem_of_filter. split; [done|]. by apply list_elem_of_filter.
Qed.

Lemma generateTheftAlerts_result now w :
  (generateTheftAlerts now w).1
  = Return (if forallb alertSchema (alertsDue (store w) now)
            then alertsDue (store w) now else []).
Proof.
  destruct (generateTheftAlerts_cases now w) as [(-> & -> & _)|(-> & _ & [-> | ->])]; done.
Qed.

(** X8. [generateTheftAlerts] never throws and never touches products,
    transactions or anomalies; the alerts it had stay, and it appends one
    unread alert of type [security] and severity [error], stamped [now], for
    each alert it reports. *)
Theorem alert_pass_only_appends (w : World) (now : Z) :
  let run := generateTheftAlerts now w in
  st_products (store run.2) = st_products (store w)
  ∧ st_transactions (store run.2) = st_transactions (store w)
  ∧ st_anomalies (store run.2) = st_anomalies (store w)
  ∧ ∃ reported added,
      run.1 = Return reported
      ∧ st_alerts (store run.2) = st_alerts (store w) ++ added
      ∧ length added = length reported
      ∧ Forall (λ al, al_type al = "security" ∧ al_severity al = "error"
                      ∧ al_read al = false ∧ al_createdAt al = now) added.
Proof.
  intros run.
  pose proof (generateTheftAlerts_cases now w) as Hcases. cbv zeta in Hcases.
  fold run in Hcases.
  destruct Hcases as [(Hr & _ & _ & Hst)|(Hr & Hst & _)]; rewrite Hst; simpl.
  - do 3 (split; [done|]). eexists _, _. split; [exact Hr|]. split; [done|].
    split; [by rewrite length_imap|].
    apply Forall_forall. intros al Hal.
    apply elem_of_lookup_imap in Hal as (i & d & -> & Hd).
    apply list_elem_of_lookup_2, elem_of_alertsDue in Hd as (a & _ & _ & _ & ->).
    done.
  - do 3 (split; [done|]). exists [], []. rewrite app_nil_r.
    split; [done|]. split; [done|]. split; [done|constructor].
Qed.

Lemma append_nonempty (s1 s2 : string) : s2 ≠ "" → s1 +:+ s2 ≠ "".
Proof. intros Hs. destruct s1; [done|]. simpl. discriminate. Qed.

Lemma alertsDue_valid s now :
  Forall (λ a, a_description a ≠ "") (st_anomalies s) →
  forallb alertSchema (alertsDue s now) = true.
Proof.
  intros Hdesc. apply forallb_forall. intros d Hd.
  apply list_elem_of_In, elem_of_alertsDue in Hd as (a & Ha & _ & _ & ->).
  rewrite Forall_forall in Hdesc. specialize (Hdesc a Ha).
  unfold alertSchema, securityAlertFor.
  cbn [ad_type ad_title ad_message ad_severity].
  assert (requiredString
            (match (populate s a).2 with
             | Some p => p_name p.2 +:+ ": " +:+ a_description (populate s a).1
             | None => a_description (populate s a).1
             end) = true) as ->; [|done].
  unfold requiredString. apply negb_true_iff, String.eqb_neq.
  destruct ((populate s a).2); [by apply append_nonempty|done].
Qed.

Lemma count_by_key {A K} `{EqDecision K} (k : A → K) (C : K → Prop)
    `{∀ y, Decision (C y)} (key : K) (l : list A) :
  length (filter (λ x, k x = key ∧ ¬ C (k x)) l)
  = if decide (C key) then 0%nat else length (filter (λ x, k x = key) l).
Proof.
  induction l as [|x l IH]; [by destruct (decide (C key))|].
  rewrite !filter_cons. destruct (decide (C key)) as [Hc|Hc].
  - rewrite decide_False; [done|]. intros [<- ?]. done.
  - destruct (decide (k x = key)) as [<-|Hk].
    + rewrite decide_True by done. simpl. by rewrite IH.
    + rewrite decide_False by tauto. done.
Qed.

(** X9. When no stored anomaly has an empty description, one alert pass
    reports exactly the alerts of the anomalies of a listed type whose
    product has no security alert of the last 2 hours, one per anomaly: a
    product with such an alert gets none, any other gets as many as it has
    listed anomalies, resolved or not. *)
Theorem alert_pass_per_anomaly (w : World) (now : Z) :
  Forall (λ a, a_description a ≠ "") (st_anomalies (store w)) →
  ∃ reported,
    (generateTheftAlerts now w).1 = Return reported
    ∧ (∀ d, d ∈ reported
            ↔ ∃ a, a ∈ st_anomalies (store w) ∧ a_type a ∈ THEFT_ALERT_TYPES
                   ∧ ¬ cooling (store w) (now - 2 * HOUR_MS) (alertKey (store w) a)
                   ∧ d = securityAlertFor (populate (store w) a))
    ∧ ∀ key,
        length (filter (λ d, ad_productId d = key) reported)
        = if decide (cooling (store w) (now - 2 * HOUR_MS) key) then 0%nat
          else length (filter (λ a, alertKey (store w) a = key)
                         (listedAnomalies (store w))).
Proof.
  intros Hdesc. exists (alertsDue (store w) now).
  split; [by rewrite generateTheftAlerts_result, alertsDue_valid|].
  split; [apply elem_of_alertsDue|].
  intros key. unfold alertsDue.
  rewrite filter_fmap_comm, length_fmap, list_filter_filter.
  apply (count_by_key (alertKey (store w)) (cooling (store w) (now - 2 * HOUR_MS))).
Qed.

(** X10. Across passes the cooldown holds: when a pass at [now1] reports an
    alert for a product, a pass started no more than 2 hours later on the
    store the first one left reports no alert for that product. *)
Theorem alert_cooldown_across_passes (w : World) (now1 now2 : Z) (d d2 : AlertDraft)
    (reported reported2 : list AlertDraft) :
  now2 - 2 * HOUR_MS ≤ now1 →
  (generateTheftAlerts now1 w).1 = Return reported →
  d ∈ reported →
  (generateTheftAlerts now2 (generateTheftAlerts now1 w).2).1 = Return reported2 →
  d2 ∈ reported2 →
  ad_productId d2 ≠ ad_productId d.
Proof.
  intros Hnow Hr1 Hd Hr2 Hd2 Hsame.
  pose proof (generateTheftAlerts_cases now1 w) as Hcases. cbv zeta in Hcases.
  destruct Hcases as [(Hr & _ & _ & Hst)|(Hr & _ & _)]; rewrite Hr in Hr1;
    injection Hr1 as <-; [|by apply elem_of_nil in Hd].
  set (w1 := (generateTheftAlerts now1 w).2) in *.
  rewrite generateTheftAlerts_result in Hr2. injection Hr2 as <-.
  destruct (forallb alertSchema (alertsDue (store w1) now2));
    [|by apply elem_of_nil in Hd2].
  apply elem_of_alertsDue in Hd2 as (a & _ & _ & Hcool & ->). apply Hcool.
  change (ad_productId (securityAlertFor (populate (store w1) a)))
    with (alertKey (store w1) a) in Hsame. rewrite Hsame.
  apply list_elem_of_lookup in Hd as [i Hi].
  exists (toAlert now1 (st_nextId (store w)) i d). split.
  - rewrite Hst. simpl. apply elem_of_app. right.
    apply elem_of_lookup_imap. eauto.
  - apply list_elem_of_lookup_2, elem_of_alertsDue in Hi as (a' & _ & _ & _ & ->).
    unfold matchesAlert, toAlert. simpl. done.
Qed.

Lemma fmap_filter_marked {A B} (g : A → A) (F F' : A → B) (T P P' : A → Prop)
    `{∀ x, Decision (T x)} `{∀ x, Decision (P x)} `{∀ x, Decision (P' x)} (l : list A) :
  (∀ a, T (g a) ↔ T a) → (∀ a, P' (g a) ↔ P a) → (∀ a, F' (g a) = F a) →
  F' <$> filter P' (filter T (g <$> l)) = F <$> filter P (filter T l).
Proof.
  intros HT HP HF. induction l as [|a l IH]; [done|].
  rewrite fmap_cons, !(filter_cons T).
  destruct (decide (T (g a))) as [Ht|Ht]; destruct (decide (T a)) as [Ht'|Ht'];
    [|exfalso; by apply Ht', HT|exfalso; by apply Ht, HT|done].
  rewrite !filter_cons.
  destruct (decide (P' (g a))) as [Hp|Hp]; destruct (decide (P a)) as [Hp'|Hp'];
    [|exfalso; by apply Hp', HP|exfalso; by apply Hp, HP|done].
  rewrite !fmap_cons, IH, HF. done.
Qed.

Lemma alertsDue_resolve s now t id :
  alertsDue (resolveAnomaly t id s) now = alertsDue s now.
Proof.
  unfold alertsDue, listedAnomalies, resolveAnomaly. cbn [st_anomalies].
  apply (fmap_filter_marked (markResolved t id)).
  - intros a. unfold markResolved. by case_bool_decide.
  - intros a. unfold markResolved, alertKey, populate, cooling. cbn [st_alerts st_products snd].
    by case_bool_decide.
  - intros a. unfold markResolved, securityAlertFor, populate. cbn [st_products fst snd].
    by case_bool_decide.
Qed.

(** X11. Resolving an anomaly through the resolve route changes nothing in
    what the next alert pass reports: the pass does not read [resolved]. *)
Theorem resolve_does_not_silence_alerts (s : Store) (qs : list Query) (now t : Z) (id : N) :
  (generateTheftAlerts now (mkWorld (resolveAnomaly t id s) qs)).1
  = (generateTheftAlerts now (mkWorld s qs)).1.
Proof.
  rewrite !generateTheftAlerts_result. cbn [store]. by rewrite alertsDue_resolve.
Qed.

(** * The stock route *)

(** X12. A stock change for an id that names no product is answered with
    404 "Product not found" after the one lookup; nothing is written. *)
Theorem stock_change_unknown_product (w : World) (now : Z) (productId : N)
    (quantity : Z) (type : string) (reason userIdHeader : option string) :
  st_products (store w) !! productId = None →
  postStock now productId quantity type reason userIdHeader w
  = (Return (ErrorJson 404 "Product not found"),
     mkWorld (store w) (queries w ++ [QProductFindById productId])).
Proof.
  intros Hnone. unfold postStock. db_unfold. simpl. by rewrite Hnone.
Qed.

(** X13. A stock change of an existing product with a type outside the
    Transaction schema's enumeration fails when the transaction is saved:
    the answer is 400 (the message stands for the one Mongoose composes) and
    neither a transaction nor the product's quantity is written. *)
Theorem stock_change_unknown_type (w : World) (now : Z) (productId : N)
    (quantity : Z) (type : string) (reason userIdHeader : option string)
    (product : Product) :
  st_products (store w) !! productId = Some product →
  type ∉ TRANSACTION_TYPES →
  postStock now productId quantity type reason userIdHeader w
  = (Return (ErrorJson 400 "Transaction validation failed"),
     mkWorld (store w) (queries w ++ [QProductFindById productId; QTransactionSave])).
Proof.
  intros Hp Hty. unfold postStock. db_unfold. simpl. rewrite Hp.
  unfold transactionSchema. simpl. rewrite bool_decide_eq_false_2 by done.
  by rewrite <- app_assoc.
Qed.

(** X14. Whatever its arguments and its answer, a stock change leaves
    anomalies, alerts and every other product alone; it appends at most one
    transaction, of the product named, stamped [now], whose new quantity is
    its previous quantity plus its delta, floored at 0; and a product it
    wrote has a quantity of 0 or more. *)
Theorem stock_change_frame (w : World) (now : Z) (productId : N) (quantity : Z)
    (type : string) (reason userIdHeader : option string) :
  let after := store (postStock now productId quantity type reason userIdHeader w).2 in
  st_anomalies after = st_anomalies (store w)
  ∧ st_alerts after = st_alerts (store w)
  ∧ (∀ other, other ≠ productId →
       st_products after !! other = st_products (store w) !! other)
  ∧ (st_transactions after = st_transactions (store w)
     ∨ ∃ t, st_transactions after = st_transactions (store w) ++ [t]
            ∧ t_productId t = productId ∧ t_createdAt t = now
            ∧ t_id t = st_nextId (store w)
            ∧ routeShaped t)
  ∧ (∀ p, st_products after !! productId = Some p → 0 ≤ p_quantity p
          ∨ st_products (store w) !! productId = Some p).
Proof.
  unfold postStock. db_unfold. simpl.
  destruct (st_products (store w) !! productId) as [product|] eqn:Hp; simpl;
    [|do 4 (split; [by auto|]); intros p; by rewrite Hp].
  unfold transactionSchema. simpl. case_bool_decide as Hty; simpl;
    [|do 4 (split; [by auto|]); intros p Hp'; right; by rewrite <- Hp'].
  destruct (productSchema (setQuantity product _)) eqn:Hvalid; simpl.
  - split; [done|]. split; [done|]. split.
    { intros other Hne. by rewrite lookup_insert_ne. }
    split.
    { right. eexists. split; [done|]. by repeat split. }
    intros p. rewrite lookup_insert_eq. intros [= <-]. left. simpl. lia.
  - split; [done|]. split; [done|]. split; [done|]. split.
    { right. eexists. split; [done|]. by repeat split. }
    intros p Hp'. right. by rewrite <- Hp'.
Qed.

(** X15. A request that [stockUpdateValidation] accepts, for an existing
    product that the Product schema admits (a name of 1 to 100 and a
    category of 1 to 50 characters, quantity and price not negative), is
    recorded by the route: the transaction's delta is the quantity, signed,
    and not 0; its type is not [purchase]; its user is the [user-id] header
    or [system]; and the product is saved with the old quantity plus the
    delta, floored at 0. *)
Theorem validated_stock_change_succeeds (w : World) (now : Z) (productId : N)
    (quantity : Z) (type : string) (reason userIdHeader : option string)
    (product : Product) :
  stockUpdateValidation quantity type reason = true →
  st_products (store w) !! productId = Some product →
  admissible product →
  ∃ transaction product' message w',
    postStock now productId quantity type reason userIdHeader w
    = (Return (StockRecorded product' transaction message), w')
    ∧ Z.abs (t_quantity transaction) = quantity
    ∧ t_quantity transaction ≠ 0
    ∧ t_type transaction ≠ "purchase"
    ∧ t_userId transaction = Some (headerOr userIdHeader "system")
    ∧ st_products (store w') !! productId = Some product'
    ∧ p_quantity product' = Z.max 0 (p_quantity product + t_quantity transaction).
Proof.
  unfold stockUpdateValidation. intros Hv Hp Hvalid.
  apply productSchema_admissible in Hvalid.
  apply andb_prop in Hv as [Hv _]. apply andb_prop in Hv as [Hq Hty].
  apply Z.leb_le in Hq. apply bool_decide_eq_true in Hty.
  assert (type ∈ TRANSACTION_TYPES) as Hty'.
  { unfold TRANSACTION_TYPES. rewrite !elem_of_cons in *. tauto. }
  assert (type ≠ "purchase") as Hnp.
  { intros ->. rewrite !elem_of_cons, elem_of_nil in Hty.
    destruct Hty as [?|[?|[?|[?|[?|[]]]]]]; discriminate. }
  unfold postStock. db_unfold. simpl. rewrite Hp.
  unfold transactionSchema. simpl. rewrite bool_decide_eq_true_2 by done. simpl.
  rewrite productSchema_setQuantity by (done || lia). simpl.
  eexists _, _, _, _. split; [reflexivity|]. simpl.
  unfold quantityChange. repeat split; try done.
  - case_bool_decide; lia.
  - case_bool_decide; lia.
  - by rewrite lookup_insert_eq.
Qed.

(** X25. The stock route writes in two steps. For a stored product that
    fails a validator of the Product schema other than the quantity's (an
    empty or over-long name or category, a negative price), a change of a
    known type writes the transaction and then fails on the product: the
    answer is 400 (the message stands for the one Mongoose composes), the
    ledger holds the new transaction and the products are as they were. *)
Theorem stock_change_partial_write (w : World) (now : Z) (productId : N)
    (quantity : Z) (type : string) (reason userIdHeader : option string)
    (product : Product) :
  st_products (store w) !! productId = Some product →
  type ∈ TRANSACTION_TYPES →
  p_name product = "" ∨ (100 < String.length (p_name product))%nat
  ∨ p_category product = "" ∨ (50 < String.length (p_category product))%nat
  ∨ (p_price product < 0)%Q →
  ∃ transaction w',
    postStock now productId quantity type reason userIdHeader w
    = (Return (ErrorJson 400 "Product validation failed"), w')
    ∧ st_transactions (store w') = st_transactions (store w) ++ [transaction]
    ∧ t_productId transaction = productId
    ∧ t_quantity transaction = quantityChange type quantity
    ∧ t_previousQuantity transaction = p_quantity product
    ∧ st_products (store w') = st_products (store w).
Proof.
  intros Hp Hty Hbad.
  unfold postStock. db_unfold. simpl. rewrite Hp.
  unfold transactionSchema. simpl. rewrite bool_decide_eq_true_2 by done. simpl.
  destruct (productSchema (setQuantity product _)) eqn:Hvalid; simpl.
  - exfalso. apply productSchema_admissible in Hvalid.
    destruct Hvalid as ([Hn1 Hn2] & [Hc1 Hc2] & _ & Hprice). simpl in *.
    destruct Hbad as [H|[H|[H|[H|H]]]].
    + rewrite H in Hn1. simpl in Hn1. lia.
    + lia.
    + rewrite H in Hc1. simpl in Hc1. lia.
    + lia.
    + by apply Qlt_not_le in H.
  - eexists _, _. split; [reflexivity|]. simpl. done.
Qed.

(** * The ledger the stock route writes *)

Lemma ledgerStep_route previous acc t :
  t_previousQuantity t = previous → routeShaped t →
  ledgerStep (previous, acc) t = (t_newQuantity t, acc).
Proof.
  unfold ledgerStep, routeShaped. cbn [fst snd]. intros <- Hshape. f_equal.
  destruct (0 <? _); [|done].
  destruct (Z.ltb_spec (t_newQuantity t - (t_previousQuantity t + t_quantity t)) (-2));
    [lia|done].
Qed.

Lemma walk_chained previous acc l :
  chained previous l → (foldl ledgerStep (previous, acc) l).2 = acc.
Proof.
  revert previous. induction l as [|t l IH]; intros previous; [done|].
  intros (Hprev & Hshape & Hrest). simpl foldl.
  rewrite ledgerStep_route by done. by apply IH.
Qed.

Lemma last_cons_shift (u d : Transaction) l : List.last (u :: l) d = List.last l u.
Proof.
  revert u d. induction l as [|v l IH]; intros u d; [done|].
  change (List.last (u :: v :: l) d) with (List.last (v :: l) d).
  by rewrite (IH v d), (IH v u).
Qed.

Lemma last_cons_default (first : Transaction) rest :
  List.last (first :: rest) first = List.last rest first.
Proof. apply last_cons_shift. Qed.

Lemma findLosses_chained now product first rest :
  chained (t_previousQuantity first) (first :: rest) →
  p_quantity product = t_newQuantity (List.last rest first) →
  findLosses now product first (first :: rest) = [].
Proof.
  intros Hchain Hlive. unfold findLosses. cbv zeta.
  rewrite walk_chained by done. rewrite last_cons_default.
  unfold currentLoss. destruct (Z.ltb_spec (p_quantity product)
    (t_newQuantity (List.last rest first))); [lia|done].
Qed.

Lemma insertByCreatedAt_end t l :
  Forall (λ u, byCreatedAt u t) l → insertByCreatedAt t l = l ++ [t].
Proof.
  induction 1 as [|u l Hu _ IH]; [done|]. simpl.
  unfold byCreatedAt in Hu.
  destruct (Z.ltb_spec (t_createdAt t) (t_createdAt u)); [lia|]. by rewrite IH.
Qed.

Lemma StronglySorted_snoc l t :
  StronglySorted byCreatedAt (l ++ [t])
  ↔ StronglySorted byCreatedAt l ∧ Forall (λ u, byCreatedAt u t) l.
Proof.
  rewrite StronglySorted_app, Forall_forall. split.
  - intros (Hle & Hl & _). split; [done|]. intros u Hu. apply Hle; [done|by left].
  - intros [Hl Hle]. split; [|split; [done|repeat constructor]].
    intros u t' Hu Ht'. apply list_elem_of_singleton in Ht' as ->. by apply Hle.
Qed.

Lemma sortByCreatedAt_sorted_id l :
  StronglySorted byCreatedAt l → sortByCreatedAt l = l.
Proof.
  unfold sortByCreatedAt.
  assert (∀ acc, StronglySorted byCreatedAt (acc ++ l) →
            foldl (λ acc t, insertByCreatedAt t acc) acc l = acc ++ l) as Hgen.
  { induction l as [|t l IH]; intros acc Hs; simpl; [by rewrite app_nil_r|].
    rewrite (cons_middle t acc l), app_assoc in Hs |- *.
    rewrite insertByCreatedAt_end; [by apply IH|].
    apply StronglySorted_app_1_l in Hs. by apply StronglySorted_snoc in Hs as [_ ?]. }
  intros Hs. by apply (Hgen []).
Qed.

Lemma filter_all {A} (P : A → Prop) `{∀ x, Decision (P x)} (l : list A) :
  Forall P l → filter P l = l.
Proof.
  induction 1 as [|x l Hx _ IH]; [done|]. by rewrite filter_cons_True, IH.
Qed.

Lemma filter_sorted_suffix since l :
  StronglySorted byCreatedAt l →
  ∃ k, filter (λ t, since ≤ t_createdAt t) l = drop k l.
Proof.
  induction 1 as [|t l Hl [k IH] Ht]; [by exists 0%nat|].
  destruct (decide (since ≤ t_createdAt t)) as [Hin|Hout].
  - exists 0%nat. simpl. apply filter_all. constructor; [done|].
    eapply Forall_impl; [exact Ht|]. unfold byCreatedAt. intros; lia.
  - exists (S k). by rewrite filter_cons_False.
Qed.

Lemma chained_drop previous l k t rest :
  chained previous l → drop k l = t :: rest →
  chained (t_previousQuantity t) (t :: rest).
Proof.
  revert previous k. induction l as [|u l IH]; intros previous k Hchain Hdrop.
  - by destruct k.
  - destruct k as [|k].
    + simpl in Hdrop. injection Hdrop as -> ->.
      destruct Hchain as (_ & ? & ?). by repeat split.
    + destruct Hchain as (_ & _ & Hrest). by eapply IH.
Qed.

Lemma last_drop (first : Transaction) l k t rest :
  drop k (first :: l) = t :: rest → List.last rest t = List.last l first.
Proof.
  revert first k. induction l as [|u l IH]; intros first k Hdrop.
  - destruct k as [|k]; simpl in Hdrop; [by injection Hdrop as <- <-|].
    by destruct k.
  - destruct k as [|k].
    + simpl in Hdrop. by injection Hdrop as <- <-.
    + simpl in Hdrop. rewrite (IH u k Hdrop). by rewrite last_cons_shift.
Qed.

Lemma window_of_ledger s pid since :
  filter (inWindow pid since) (st_transactions s)
  = filter (λ t, since ≤ t_createdAt t) (ledgerOf s pid).
Proof.
  unfold ledgerOf. rewrite list_filter_filter. apply list_filter_iff.
  intros t. unfold inWindow. tauto.
Qed.

Lemma totalLoss_consistent s now pid product :
  consistent s pid product → totalLoss s now pid product = 0.
Proof.
  intros (_ & Hsorted & Hshape). unfold totalLoss, ledgerSince.
  rewrite window_of_ledger.
  destruct (filter_sorted_suffix (now - 30 * DAY_MS) _ Hsorted) as [k Hk].
  rewrite Hk. rewrite sortByCreatedAt_sorted_id.
  2:{ rewrite <- (take_drop k (ledgerOf s pid)) in Hsorted.
      by apply StronglySorted_app_1_r in Hsorted. }
  destruct (drop k (ledgerOf s pid)) as [|t rest] eqn:Hdrop; [done|].
  destruct (ledgerOf s pid) as [|first l] eqn:Hledger; [by destruct k|].
  destruct Hshape as [Hchain Hlive].
  rewrite findLosses_chained; [done| |].
  - by eapply chained_drop.
  - rewrite Hlive. f_equal. symmetry. by eapply last_drop.
Qed.

(** X16. For a product whose transactions were all written by the stock
    route, in time order, and whose live quantity is what the last of them
    left, the potential-theft detector computes a total loss of 0 and adds
    nothing, whatever anomalies are stored. *)
Theorem consistent_ledger_no_theft (w : World) (now : Z) (pid : N) (product : Product)
    (anomalies : list Candidate) :
  consistent (store w) pid product →
  totalLoss (store w) now pid product = 0
  ∧ pushed anomalies (detectPotentialTheft now pid product anomalies) w = [].
Proof.
  intros Hcons. pose proof (totalLoss_consistent _ now _ _ Hcons) as Hzero.
  split; [done|].
  pose proof (pushed_reads _ _ _ _ (detectPotentialTheft_reads now pid product anomalies w))
    as [([H3 _] & _)|[_ ->]]; [lia|done].
Qed.

Lemma chained_snoc previous l t d :
  chained previous l →
  t_previousQuantity t
  = match l with [] => previous | _ => t_newQuantity (List.last l d) end →
  routeShaped t →
  chained previous (l ++ [t]).
Proof.
  revert previous. induction l as [|u l IH]; intros previous Hchain Hprev Hshape.
  - by repeat split.
  - destruct Hchain as (Hu & Hus & Hrest). simpl. repeat split; try done.
    apply IH; [done| |done]. rewrite Hprev. by destruct l.
Qed.

Lemma ledgerOf_append s pid products t anomalies alerts nextId :
  ledgerOf (mkStore products (st_transactions s ++ [t]) anomalies alerts nextId) pid
  = ledgerOf s pid ++ if decide (t_productId t = pid) then [t] else [].
Proof.
  unfold ledgerOf. cbn [st_transactions]. rewrite filter_app. by f_equal.
Qed.

(** X17. The stock route keeps a ledger consistent when no other request
    comes in between its reads and writes: applied at [now], not earlier
    than the product's transactions, to a product the Product schema admits
    and whose ledger is consistent, a change of a known type succeeds and
    the product's ledger is consistent afterwards; the ledgers of the other
    products stay consistent. *)
Theorem stock_change_keeps_consistent (w : World) (now : Z) (productId : N)
    (quantity : Z) (type : string) (reason userIdHeader : option string)
    (product : Product) :
  consistent (store w) productId product →
  admissible product →
  type ∈ TRANSACTION_TYPES →
  Forall (λ t, t_createdAt t ≤ now) (ledgerOf (store w) productId) →
  ∃ transaction product' message w',
    postStock now productId quantity type reason userIdHeader w
    = (Return (StockRecorded product' transaction message), w')
    ∧ consistent (store w') productId product'
    ∧ ∀ other p, other ≠ productId →
        consistent (store w) other p → consistent (store w') other p.
Proof.
  intros (Hp & Hsorted & Hshape) Hvalid Hty Hpast.
  apply productSchema_admissible in Hvalid.
  unfold postStock. db_unfold. simpl. rewrite Hp.
  unfold transactionSchema. simpl. rewrite bool_decide_eq_true_2 by done. simpl.
  rewrite productSchema_setQuantity by (done || lia). simpl.
  eexists _, _, _, _. split; [reflexivity|]. simpl.
  set (t := mkTransaction _ _ _ _ _ _ _ _ _).
  split.
  - unfold consistent. rewrite ledgerOf_append. cbn [st_products].
    rewrite lookup_insert_eq. rewrite decide_True by done.
    split; [done|]. split.
    { apply StronglySorted_snoc. split; [done|].
      eapply Forall_impl; [exact Hpast|]. intros u Hu. exact Hu. }
    destruct (ledgerOf (store w) productId) as [|first rest] eqn:Hledger.
    + simpl. by repeat split.
    + destruct Hshape as [Hchain Hlive].
      change ((first :: rest) ++ [t]) with (first :: (rest ++ [t])).
      split.
      * change (first :: (rest ++ [t])) with ((first :: rest) ++ [t]).
        apply (chained_snoc _ _ _ first); [done| |done].
        simpl t_previousQuantity. rewrite Hlive. by rewrite last_cons_shift.
      * rewrite List.last_last. done.
  - intros other p Hne (Hp' & Hsorted' & Hshape'). unfold consistent.
    rewrite ledgerOf_append. cbn [st_products].
    rewrite lookup_insert_ne by done. rewrite decide_False by done.
    rewrite app_nil_r. done.
Qed.

(** A product without a transaction is consistent. *)
Lemma consistent_fresh s pid product :
  st_products s !! pid = Some product → ledgerOf s pid = [] → consistent s pid product.
Proof. intros Hp Hl. unfold consistent. rewrite Hl. repeat split; [done|constructor]. Qed.

(** * Resolving, and detecting again *)

Lemma resolveAnomaly_anomalies t id s :
  st_anomalies (resolveAnomaly t id s) = markResolved t id <$> st_anomalies s.
Proof. done. Qed.

(** X18. Resolving the open [low_stock] anomaly of a product that is still
    at or below its minimum stock re-arms the rule: [detectLowStock] adds a
    new [low_stock] candidate for it at the next pass. *)
Theorem resolve_rearms_low_stock (s : Store) (qs : list Query) (t : Z) (id pid : N)
    (product : Product) (anomalies : list Candidate) :
  p_quantity product ≤ p_minimumStock product →
  (∀ a, a ∈ st_anomalies s → isOpen pid "low_stock" a → a_id a = id) →
  ∃ c, pushed anomalies (detectLowStock pid product anomalies)
         (mkWorld (resolveAnomaly t id s) qs) = [c]
       ∧ c_productId c = Some pid ∧ c_type c = "low_stock".
Proof.
  intros Hlow Honly.
  pose proof (pushed_reads _ _ _ _
    (detectLowStock_reads pid product anomalies (mkWorld (resolveAnomaly t id s) qs)))
    as Hnew.
  destruct (emitsIff_guard _ _ _ _ _ Hnew) as (c & -> & [? ?] & _); [|by eauto].
  split; [done|]. apply openCount_zero. cbn [store].
  rewrite resolveAnomaly_anomalies. intros a' Ha' Hopen.
  apply list_elem_of_fmap in Ha' as (a & -> & Ha).
  unfold markResolved in Hopen. case_bool_decide as Hid.
  - destruct Hopen as (_ & _ & Hres). discriminate Hres.
  - apply Hid. by apply Honly.
Qed.

(** X19. The resolve route keeps the anomalies collection in length and
    order; the documents with the given id become resolved at the given
    time, every other document is unchanged, and no product has more open
    anomalies of any type than before. *)
Theorem resolve_marks_only_target (s : Store) (t : Z) (id : N) :
  length (st_anomalies (resolveAnomaly t id s)) = length (st_anomalies s)
  ∧ (∀ i a, st_anomalies s !! i = Some a →
       ∃ a', st_anomalies (resolveAnomaly t id s) !! i = Some a'
             ∧ a_id a' = a_id a ∧ a_productId a' = a_productId a
             ∧ a_type a' = a_type a ∧ a_createdAt a' = a_createdAt a
             ∧ (a_id a = id → a_resolved a' = true ∧ a_resolvedAt a' = Some t)
             ∧ (a_id a ≠ id → a' = a))
  ∧ (∀ pid ty, openCount pid ty (resolveAnomaly t id s) ≤ openCount pid ty s)%nat.
Proof.
  rewrite resolveAnomaly_anomalies. split; [by rewrite length_fmap|]. split.
  - intros i a Ha. exists (markResolved t id a).
    rewrite list_lookup_fmap, Ha. split; [done|].
    unfold markResolved. case_bool_decide; repeat split; try done.
  - intros pid ty. unfold openCount. rewrite resolveAnomaly_anomalies.
    induction (st_anomalies s) as [|a l IH]; [done|].
    rewrite fmap_cons, !filter_cons.
    destruct (decide (isOpen pid ty (markResolved t id a))) as [Ho|Ho].
    + rewrite decide_True; [simpl; lia|].
      unfold markResolved in Ho. case_bool_decide; [|done].
      destruct Ho as (_ & _ & Hres). discriminate Hres.
    + destruct (decide (isOpen pid ty a)); simpl; lia.
Qed.

(** * The theft route *)

Lemma recommendations_fold recs l :
  foldl recommendationStep recs l = recs ++ foldl recommendationStep [] l.
Proof.
  revert recs. induction l as [|a l IH]; intros recs; [by rewrite app_nil_r|].
  simpl. rewrite IH, (IH (recommendationStep [] a)), app_assoc. f_equal.
  unfold recommendationStep.
  repeat match goal with |- context [if ?b then _ else _] => destruct b end;
    by rewrite ?app_nil_r.
Qed.

Lemma recommendations_cons a l :
  generateTheftRecommendations (a :: l)
  = recommendationStep [] a ++ generateTheftRecommendations l.
Proof. unfold generateTheftRecommendations. simpl. apply recommendations_fold. Qed.

(** X20. For anomalies of the four theft types the route filters on,
    [generateTheftRecommendations] returns one recommendation per anomaly,
    in order: [critical] and without product exactly for
    [organized_theft_pattern], [medium] exactly for [inventory_shrinkage],
    and with the anomaly's product for every type but the first. *)
Theorem recommendations_cover_theft_types (theftAnomalies : list Candidate) :
  Forall (λ a, c_type a ∈ REPORTED_THEFT_TYPES) theftAnomalies →
  length (generateTheftRecommendations theftAnomalies) = length theftAnomalies
  ∧ ∀ i a, theftAnomalies !! i = Some a →
      ∃ r, generateTheftRecommendations theftAnomalies !! i = Some r
           ∧ (r_priority r = "critical" ↔ c_type a = "organized_theft_pattern")
           ∧ (r_priority r = "medium" ↔ c_type a = "inventory_shrinkage")
           ∧ (c_type a ≠ "organized_theft_pattern" → r_product r = c_productId a)
           ∧ (c_type a = "organized_theft_pattern" → r_product r = None).
Proof.
  induction 1 as [|a l Ha _ [IHlen IH]]; [split; [done|by intros [|?] ?]|].
  rewrite recommendations_cons.
  unfold REPORTED_THEFT_TYPES in Ha. rewrite !elem_of_cons, elem_of_nil in Ha.
  assert (∃ r, recommendationStep [] a = [r]
               ∧ (r_priority r = "critical" ↔ c_type a = "organized_theft_pattern")
               ∧ (r_priority r = "medium" ↔ c_type a = "inventory_shrinkage")
               ∧ (c_type a ≠ "organized_theft_pattern" → r_product r = c_productId a)
               ∧ (c_type a = "organized_theft_pattern" → r_product r = None))
    as (r & -> & Hr).
  { unfold recommendationStep.
    destruct Ha as [Hty|[Hty|[Hty|[Hty|[]]]]]; rewrite Hty; simpl;
      eexists; (split; [reflexivity|]); simpl; repeat split; try done. }
  split; [simpl; by rewrite IHlen|].
  intros [|i] a' Hi; simpl in Hi.
  - injection Hi as <-. exists r. done.
  - by apply IH.
Qed.

Lemma detectAnomalies_reported tz now w :
  ∃ reported, (detectAnomalies tz now w).1 = Return reported
              ∧ Forall (λ c, anomalySchema c = true) reported.
Proof.
  destruct (detectAnomalies_cases tz now w) as [(Hr & Hv & _)|(Hr & _)].
  - eexists. split; [exact Hr|]. apply Forall_forall. intros c Hc.
    rewrite forallb_forall in Hv. apply Hv. by apply list_elem_of_In.
  - exists []. split; [done|constructor].
Qed.

Lemma valid_type c : anomalySchema c = true → c_type c ∈ ANOMALY_TYPES.
Proof.
  unfold anomalySchema. intros H. do 4 (apply andb_prop in H as [H _]).
  apply andb_prop in H as [_ H]. by apply bool_decide_eq_true in H.
Qed.

Lemma recommendations_all_high l :
  Forall (λ a, c_type a = "potential_theft" ∨ c_type a = "unauthorized_access_pattern") l →
  length (generateTheftRecommendations l) = length l
  ∧ Forall (λ r, r_priority r = "high") (generateTheftRecommendations l).
Proof.
  induction 1 as [|a l Ha _ [IHlen IH]]; [split; [done|constructor]|].
  rewrite recommendations_cons.
  assert (∃ r, recommendationStep [] a = [r] ∧ r_priority r = "high") as (r & -> & ?).
  { unfold recommendationStep. destruct Ha as [-> | ->]; simpl; eauto. }
  simpl. split; [by rewrite IHlen|by constructor].
Qed.

(** X21. [POST /api/ai/detect-theft] always answers with a report; it
    leaves the store as a detection pass followed by an alert pass leaves
    it. The theft anomalies it lists are of type [potential_theft] or
    [unauthorized_access_pattern] only, there are no more of them than
    anomalies detected, and it recommends one action per theft anomaly, all
    of priority [high]. *)
Theorem detect_theft_route_report (w : World) (tz now : Z) :
  ∃ report w',
    postDetectTheft tz now w = (Return report, w')
    ∧ store w' = store (generateTheftAlerts now (detectAnomalies tz now w).2).2
    ∧ tr_theftAnomaliesDetected report = length (tr_theftAnomalies report)
    ∧ (tr_theftAnomaliesDetected report ≤ tr_totalAnomaliesDetected report)%nat
    ∧ length (tr_recommendedActions report) = tr_theftAnomaliesDetected report
    ∧ Forall (λ a, c_type a = "potential_theft"
                   ∨ c_type a = "unauthorized_access_pattern")
        (tr_theftAnomalies report)
    ∧ Forall (λ r, r_priority r = "high") (tr_recommendedActions report).
Proof.
  destruct (detectAnomalies_reported tz now w) as (reported & Hr & Hvalid).
  unfold postDetectTheft, mbind, Db_bind, mret, Db_ret.
  destruct (detectAnomalies tz now w) as [out1 w1] eqn:H1. simpl in Hr. subst out1.
  rewrite (surjective_pairing (generateTheftAlerts now w1)).
  rewrite generateTheftAlerts_result.
  eexists _, _. split; [reflexivity|]. cbn [tr_theftAnomaliesDetected
    tr_totalAnomaliesDetected tr_theftAnomalies tr_recommendedActions snd].
  assert (Forall (λ a, c_type a = "potential_theft"
                       ∨ c_type a = "unauthorized_access_pattern")
            (filter (λ a, c_type a ∈ REPORTED_THEFT_TYPES) reported)) as Htypes.
  { apply Forall_forall. intros a Ha. apply list_elem_of_filter in Ha as [Hrep Ha].
    rewrite Forall_forall in Hvalid. apply Hvalid, valid_type in Ha.
    unfold REPORTED_THEFT_TYPES in Hrep. unfold ANOMALY_TYPES in Ha.
    rewrite !elem_of_cons, elem_of_nil in Hrep.
    rewrite !elem_of_cons, elem_of_nil in Ha.
    destruct Hrep as [?|[Hs|[?|[Ho|[]]]]]; auto; exfalso; rewrite ?Hs, ?Ho in Ha;
      repeat (destruct Ha as [Ha|Ha]; [discriminate Ha|]); done. }
  destruct (recommendations_all_high _ Htypes) as [Hlen Hhigh].
  split; [done|]. split; [done|]. split; [apply length_filter|]. auto.
Qed.

(** * Theft analytics *)

Lemma risk_fold (docs : list (Anomaly * option (N * Product))) (m : gmap N nat) (k : N) :
  foldl riskStep m docs !! k
  = let n := length (filter (λ a, fst <$> a.2 = Some k) docs) in
    if decide (n = 0%nat) then m !! k else Some (default 0%nat (m !! k) + n)%nat.
Proof.
  revert m. induction docs as [|doc docs IH]; intros m; [done|].
  simpl foldl. rewrite IH. clear IH. cbv zeta. rewrite filter_cons.
  unfold riskStep. destruct doc as [a [[pid p]|]]; simpl.
  - destruct (decide (Some pid = Some k)) as [[= ->]|Hne].
    + rewrite lookup_insert_eq. cbn [length default].
      rewrite (decide_False (P := S _ = 0%nat)) by lia.
      case_decide as Hz; [rewrite Hz|]; apply (f_equal Some); unfold id; lia.
    + rewrite lookup_insert_ne by congruence. done.
  - done.
Qed.

Lemma split_resolved {A} (P : A → Prop) `{∀ x, Decision (P x)} (l : list A) :
  length l = (length (filter P l) + length (filter (λ x, ¬ P x) l))%nat.
Proof.
  induction l as [|x l IH]; [done|]. rewrite !filter_cons.
  destruct (decide (P x)).
  - rewrite decide_False by tauto. simpl. lia.
  - rewrite decide_True by done. simpl. lia.
Qed.

(** X22. [GET /api/analytics/theft] only reads. Its total is the number of
    stored anomalies of a listed type created in the window, its active
    count is the number of unresolved ones among them, it shows at most ten
    recent incidents, and its high-risk list holds an entry for a product
    with a count exactly when that count is two or more and is the number
    of incidents in the window that point to that existing product. *)
Theorem theft_analytics_counts (w : World) (days now : Z) :
  ∃ report qs,
    getTheftAnalytics days now w = (Return report, mkWorld (store w) (queries w ++ qs))
    ∧ let docs := incidents (store w) (now - days * DAY_MS) in
      ta_totalIncidents report = length docs
      ∧ ta_resolvedIncidents report = length (filter (λ a, a_resolved a = true) docs)
      ∧ ta_activeIncidents report
        = Z.of_nat (length (filter (λ a, a_resolved a = false) docs))
      ∧ (length (ta_recentIncidents report) ≤ 10)%nat
      ∧ (∀ pid n, (∃ h, h ∈ ta_highRiskProducts report ∧ hr_productId h = pid
                        ∧ hr_incidentCount h = n)
                  ↔ (1 < n)%nat
                    ∧ n = length (filter (λ a, alertKey (store w) a = Some pid) docs)).
Proof.
  eexists _, [_]. split; [reflexivity|]. cbv zeta.
  cbn [ta_totalIncidents ta_resolvedIncidents ta_activeIncidents ta_recentIncidents
       ta_highRiskProducts].
  fold (incidents (store w) (now - days * DAY_MS)).
  set (docs := incidents (store w) (now - days * DAY_MS)).
  split; [by rewrite length_fmap|].
  assert (length (filter (λ a, a_resolved a.1 = true) (populate (store w) <$> docs))
          = length (filter (λ a, a_resolved a = true) docs)) as Hres.
  { by rewrite filter_fmap_comm, length_fmap. }
  split; [done|]. split.
  { rewrite Hres, length_fmap.
    rewrite (split_resolved (λ a, a_resolved a = true) docs).
    replace (filter (λ a, ¬ a_resolved a = true) docs)
      with (filter (λ a, a_resolved a = false) docs).
    - lia.
    - apply list_filter_iff. intros a. destruct (a_resolved a); split; done. }
  split; [rewrite length_take; lia|].
  assert (∀ pid, length (filter (λ a, fst <$> a.2 = Some pid) (populate (store w) <$> docs))
                 = length (filter (λ a, alertKey (store w) a = Some pid) docs)) as Hcount.
  { intros pid. by rewrite filter_fmap_comm, length_fmap. }
  intros pid n. rewrite <- Hcount. split.
  - intros (h & Hh & <- & <-).
    apply list_elem_of_bind in Hh as ([k c] & Hh & Hkc).
    apply elem_of_map_to_list in Hkc. rewrite risk_fold, lookup_empty in Hkc.
    cbv zeta in Hkc. unfold highRiskOf in Hh. simpl in Hh.
    destruct (Nat.ltb_spec 1 c) as [Hc|Hc]; [|by apply elem_of_nil in Hh].
    destruct (head _) as [a|]; [|by apply elem_of_nil in Hh].
    destruct (a.2) as [p|]; [|by apply elem_of_nil in Hh].
    apply list_elem_of_singleton in Hh as ->. simpl.
    case_decide; [done|]. injection Hkc as <-. simpl. split; lia.
  - intros [Hn ->].
    set (n := length (filter (λ a, fst <$> a.2 = Some pid) (populate (store w) <$> docs))) in *.
    destruct (filter (λ a, fst <$> a.2 = Some pid) (populate (store w) <$> docs))
      as [|a rest] eqn:Hf; [simpl in n; lia|].
    assert (a ∈ filter (λ a, fst <$> a.2 = Some pid) (populate (store w) <$> docs))
      as Ha by (rewrite Hf; by left).
    apply list_elem_of_filter in Ha as [Hkey _].
    destruct (a.2) as [p|] eqn:Hp; [|done].
    exists (mkHighRisk pid (p_name p.2) n (p_category p.2)). split; [|done].
    apply list_elem_of_bind. exists (pid, n). split.
    + unfold highRiskOf. simpl. destruct (Nat.ltb_spec 1 n); [|lia].
      rewrite Hf. simpl. rewrite Hp. by left.
    + apply elem_of_map_to_list. rewrite risk_fold, lookup_empty. cbv zeta.
      fold n. rewrite Hf. simpl. f_equal.
Qed.

(** * The earlier rule engine's pattern analysis *)

Lemma sum_abs_foldl (l : list Transaction) (acc : Z) :
  foldl (λ sum t, sum + Z.abs (t_quantity t)) acc l
  = acc + foldr (λ t sum, Z.abs (t_quantity t) + sum) 0 l.
Proof.
  revert acc. induction l as [|t l IH]; intros acc; simpl; [lia|].
  rewrite IH. lia.
Qed.

Lemma isLargeSale_spec (sales : list Transaction) (t : Transaction) :
  sales ≠ [] →
  isLargeSale (avgSaleQuantityOf sales) t
  = bool_decide (3 * foldr (λ t sum, Z.abs (t_quantity t) + sum) 0 sales
                 < Z.abs (t_quantity t) * Z.of_nat (length sales)).
Proof.
  intros Hne. apply eq_true_iff_eq. rewrite bool_decide_eq_true.
  unfold isLargeSale, avgSaleQuantityOf. cbv zeta.
  rewrite Qltb_lt, sum_abs_foldl, Z.add_0_l.
  set (total := foldr _ 0 sales).
  destruct sales as [|s sales]; [done|].
  rewrite length_cons, Nat2Z.inj_succ. unfold Z.succ.
  set (n := Z.of_nat (length sales)).
  assert (0 ≤ n) by (unfold n; lia).
  destruct (n + 1) as [|p|p] eqn:Hp; try lia.
  unfold Qlt, Qdiv, Qmult, Qinv. simpl. lia.
Qed.

Lemma large_sales_weight (n total : Z) (l : list Transaction) :
  (3 * total + 1)
    * Z.of_nat (length (List.filter
                          (λ t, bool_decide (3 * total < Z.abs (t_quantity t) * n)) l))
  ≤ n * foldr (λ t sum, Z.abs (t_quantity t) + sum) 0 l
    ∨ n < 0.
Proof.
  destruct (decide (n < 0)) as [|Hn]; [by right|left].
  induction l as [|t l IH]; [simpl; lia|].
  simpl. case_bool_decide; simpl length; nia.
Qed.

Lemma sum_abs_nonneg (l : list Transaction) :
  0 ≤ foldr (λ t sum, Z.abs (t_quantity t) + sum) 0 l.
Proof. induction l as [|t l IH]; simpl; lia. Qed.

Lemma foldl_max_elem (l : list Z) (x : Z) : foldl Z.max x l ∈ x :: l.
Proof.
  revert x. induction l as [|y l IH]; intros x; simpl; [by left|].
  specialize (IH (Z.max x y)). apply elem_of_cons in IH as [->|IH].
  - destruct (Z.max_spec x y) as [[_ ->]|[_ ->]]; [right; left|left].
  - by do 2 right.
Qed.

Lemma maxOf_elem (l : list Z) : l ≠ [] → maxOf l ∈ l.
Proof. destruct l as [|x l]; [done|]. intros _. apply foldl_max_elem. Qed.

(** X23. [analyzeTransactionPattern] of the earlier rule engine flags large
    sales only when fewer than a third of the sales are large, so never with
    fewer than four sales; the maximum it reports is the size of one of the
    sales and is positive. Otherwise it flags a high frequency exactly when
    there are more than ten transactions, and nothing with ten or fewer. *)
Theorem pattern_verdicts (transactions : list Transaction) :
  let sales := List.filter isSale transactions in
  match analyzeTransactionPattern transactions with
  | Some p =>
      (∃ k avg most,
          vd_metadata p = MetaLargeSales k avg most
          ∧ vd_severity p = "medium"
          ∧ (0 < k)%nat ∧ (3 * k < length sales)%nat
          ∧ ∃ t, t ∈ sales ∧ most = Z.abs (t_quantity t) ∧ 0 < most)
      ∨ (vd_metadata p = MetaFrequency (length transactions) "7 days"
         ∧ vd_severity p = "low"
         ∧ (10 < length transactions)%nat)
  | None => (length transactions ≤ 10)%nat
  end.
Proof.
  cbv zeta. unfold analyzeTransactionPattern.
  set (sales := List.filter isSale transactions).
  set (largeSales := List.filter (isLargeSale (avgSaleQuantityOf sales)) sales).
  destruct (Nat.ltb_spec 0 (length largeSales)) as [Hk|Hk].
  - left. eexists _, _, _. split; [reflexivity|]. split; [done|]. split; [done|].
    assert (sales ≠ []) as Hne.
    { intros Hs. unfold largeSales in Hk. rewrite Hs in Hk. simpl in Hk. lia. }
    set (total := foldr (λ t sum, Z.abs (t_quantity t) + sum) 0 sales).
    set (n := Z.of_nat (length sales)).
    assert (largeSales
            = List.filter (λ t, bool_decide (3 * total < Z.abs (t_quantity t) * n)) sales)
      as Hlarge.
    { apply List.filter_ext. intros t. by apply isLargeSale_spec. }
    pose proof (sum_abs_nonneg sales) as Htotal. fold total in Htotal.
    split.
    + destruct (large_sales_weight n total sales) as [Hw|Hn]; [|unfold n in Hn; lia].
      rewrite <- Hlarge in Hw. fold total in Hw. unfold n in Hw. nia.
    + assert ((λ t, Z.abs (t_quantity t)) <$> largeSales ≠ []) as Hmap.
      { destruct largeSales; [simpl in Hk; lia|done]. }
      apply maxOf_elem, list_elem_of_fmap in Hmap as (t & Hmost & Ht).
      exists t. apply list_elem_of_In in Ht. rewrite Hlarge in Ht.
      apply List.filter_In in Ht as [Ht Hbig]. apply bool_decide_eq_true in Hbig.
      split; [by apply list_elem_of_In|]. split; [done|].
      rewrite Hmost. unfold n in Hbig. nia.
  - destruct (Nat.ltb_spec 10 (length transactions)); [right; done|done].
Qed.

(** * The properties at concrete stores *)

Lemma low_stock_rule_witness :
  ∃ c, pushed [] (detectLowStock 1 rice []) (mkWorld riceStore []) = [c]
       ∧ c_type c = "low_stock" ∧ c_severity c = "high".
Proof.
  destruct (low_stock_rule (mkWorld riceStore []) 1 rice []) as [Hiff _].
  destruct (proj2 Hiff) as (c & Hc & _ & Hty & _ & Hhigh).
  { split; [by vm_compute|]. intros a Ha. by apply elem_of_nil in Ha. }
  exists c. split; [exact Hc|]. split; [exact Hty|]. apply Hhigh. by vm_compute.
Defined.

Lemma expiry_warning_rule_witness :
  ∃ c, pushed [] (detectExpiryWarnings NOW 1 rice []) (mkWorld riceStore []) = [c]
       ∧ c_type c = "expiry_warning" ∧ c_severity c = "medium".
Proof.
  destruct (expiry_warning_rule (mkWorld riceStore []) NOW 1 rice []) as [Hiff _].
  destruct (proj2 Hiff) as (c & expiryDate & Hc & _ & Hty & Hdate & _ & Hmedium).
  { split; [exists (NOW + 10 * DAY_MS); split; [done|by vm_compute]|].
    intros a Ha. by apply elem_of_nil in Ha. }
  exists c. split; [exact Hc|]. split; [exact Hty|]. apply Hmedium.
  injection Hdate as <-. by vm_compute.
Defined.

Lemma potential_theft_grading_witness :
  ∃ c, c ∈ pushed [] (detectPotentialTheft NOW 2 soap [])
             (mkWorld (shortStore [priorTheft]) [])
       ∧ c_severity c = "critical" ∧ anomalySchema c = true.
Proof.
  assert (∃ c, pushed [] (detectPotentialTheft NOW 2 soap [])
                 (mkWorld (shortStore [priorTheft]) []) = [c]) as [c Hc].
  { vm_compute. eexists. reflexivity. }
  exists c.
  assert (c ∈ pushed [] (detectPotentialTheft NOW 2 soap [])
                (mkWorld (shortStore [priorTheft]) [])) as Hin by (rewrite Hc; by left).
  split; [exact Hin|].
  destruct (potential_theft_grading (mkWorld (shortStore [priorTheft]) []) NOW 2 soap [] c Hin)
    as (Hcritical & _ & _ & _ & _ & Hschema).
  split; [apply Hcritical; by vm_compute|exact Hschema].
Defined.

Lemma organized_theft_threshold_witness :
  ∃ c, pushed [] (detectSystemwideTheftPatterns NOW []) (mkWorld heistStore []) = [c]
       ∧ c_type c = "organized_theft_pattern" ∧ anomalySchema c = false.
Proof.
  destruct (organized_theft_threshold (mkWorld heistStore []) NOW []) as (_ & Hmany & _).
  destruct Hmany as (c & totalValue & items & Hc & _ & Hty & _ & _ & _ & Hschema).
  { vm_compute. lia. }
  exists c. split; [exact Hc|]. split; [exact Hty|exact Hschema].
Defined.

Lemma access_anomaly_grading_witness :
  ∃ c, c ∈ pushed [] (detectUnauthorizedAccess 0 NOW 2 soap []) (mkWorld nightStore [])
       ∧ c_severity c = "high".
Proof.
  assert (∃ c, pushed [] (detectUnauthorizedAccess 0 NOW 2 soap [])
                 (mkWorld nightStore []) = [c]) as [c Hc].
  { vm_compute. eexists. reflexivity. }
  exists c.
  assert (c ∈ pushed [] (detectUnauthorizedAccess 0 NOW 2 soap []) (mkWorld nightStore []))
    as Hin by (rewrite Hc; by left).
  split; [exact Hin|].
  destruct (access_anomaly_grading (mkWorld nightStore []) 0 NOW 2 soap [] c Hin)
    as (Hhigh & _).
  apply Hhigh. vm_compute. lia.
Defined.

Lemma alert_pass_per_anomaly_witness :
  ∃ reported,
    (generateTheftAlerts NOW (mkWorld twoOpenStore [])).1 = Return reported
    ∧ length (filter (λ d, ad_productId d = Some 1%N) reported) = 2%nat.
Proof.
  destruct (alert_pass_per_anomaly (mkWorld twoOpenStore []) NOW)
    as (reported & Hrun & _ & Hcount).
  { repeat constructor; done. }
  exists reported. split; [exact Hrun|]. rewrite Hcount. by vm_compute.
Defined.

Lemma alert_cooldown_across_passes_witness :
  ∃ d d2 reported reported2,
    (generateTheftAlerts NOW (mkWorld staggeredStore [])).1 = Return reported
    ∧ d ∈ reported
    ∧ (generateTheftAlerts (NOW + HOUR_MS)
         (generateTheftAlerts NOW (mkWorld staggeredStore [])).2).1 = Return reported2
    ∧ d2 ∈ reported2
    ∧ ad_productId d2 ≠ ad_productId d.
Proof.
  set (d := securityAlertFor (populate staggeredStore riceLow)).
  set (d2 := securityAlertFor (populate staggeredStore soapLow)).
  assert ((generateTheftAlerts NOW (mkWorld staggeredStore [])).1 = Return [d]) as H1
    by (by vm_compute).
  assert ((generateTheftAlerts (NOW + HOUR_MS)
             (generateTheftAlerts NOW (mkWorld staggeredStore [])).2).1 = Return [d2]) as H2
    by (by vm_compute).
  exists d, d2, [d], [d2].
  split; [exact H1|]. split; [by left|]. split; [exact H2|]. split; [by left|].
  apply (alert_cooldown_across_passes (mkWorld staggeredStore []) NOW (NOW + HOUR_MS)
           d d2 [d] [d2]); [by vm_compute|exact H1|by left|exact H2|by left].
Defined.

Lemma stock_change_unknown_product_witness :
  postStock NOW 7 3 "sale" None None (mkWorld riceStore [])
  = (Return (ErrorJson 404 "Product not found"),
     mkWorld riceStore [QProductFindById 7]).
Proof.
  apply (stock_change_unknown_product (mkWorld riceStore []) NOW 7 3 "sale" None None).
  by vm_compute.
Defined.

Lemma stock_change_unknown_type_witness :
  postStock NOW 1 3 "theft" None None (mkWorld riceStore [])
  = (Return (ErrorJson 400 "Transaction validation failed"),
     mkWorld riceStore [QProductFindById 1; QTransactionSave]).
Proof.
  apply (stock_change_unknown_type (mkWorld riceStore []) NOW 1 3 "theft" None None rice).
  - by vm_compute.
  - unfold TRANSACTION_TYPES. rewrite !elem_of_cons, elem_of_nil.
    intros H. repeat (destruct H as [H|H]; [discriminate H|]). exact H.
Defined.

Lemma validated_stock_change_succeeds_witness :
  ∃ transaction product' message w',
    postStock NOW 1 3 "damage" (Some "  torn bag ") (Some "clerk") (mkWorld riceStore [])
    = (Return (StockRecorded product' transaction message), w')
    ∧ Z.abs (t_quantity transaction) = 3
    ∧ t_userId transaction = Some "clerk"
    ∧ st_products (store w') !! 1%N = Some product'.
Proof.
  destruct (validated_stock_change_succeeds (mkWorld riceStore []) NOW 1 3 "damage"
              (Some "  torn bag ") (Some "clerk") rice)
    as (t & p' & m & w' & Hrun & Habs & _ & _ & Huser & Hp & _);
    [by vm_compute|by vm_compute|repeat split; simpl; try lia; by vm_compute|].
  exists t, p', m, w'. split; [exact Hrun|]. split; [exact Habs|].
  split; [exact Huser|exact Hp].
Defined.

Lemma nightStore_consistent : consistent nightStore 2 soap.
Proof.
  split; [by vm_compute|]. split.
  - vm_compute. repeat constructor; discriminate.
  - vm_compute. repeat split.
Qed.

Lemma consistent_ledger_no_theft_witness :
  totalLoss nightStore NOW 2 soap = 0
  ∧ pushed [] (detectPotentialTheft NOW 2 soap []) (mkWorld nightStore []) = [].
Proof.
  apply (consistent_ledger_no_theft (mkWorld nightStore []) NOW 2 soap []).
  exact nightStore_consistent.
Defined.

Lemma stock_change_keeps_consistent_witness :
  ∃ transaction product' message w',
    postStock NOW 2 5 "sale" None None (mkWorld nightStore [])
    = (Return (StockRecorded product' transaction message), w')
    ∧ consistent (store w') 2 product'.
Proof.
  destruct (stock_change_keeps_consistent (mkWorld nightStore []) NOW 2 5 "sale" None None soap)
    as (t & p' & m & w' & Hrun & Hcons & _).
  - exact nightStore_consistent.
  - repeat split; simpl; try lia; by vm_compute.
  - unfold TRANSACTION_TYPES. rewrite !elem_of_cons. tauto.
  - apply (bool_decide_unpack _). by vm_compute.
  - exists t, p', m, w'. split; [exact Hrun|exact Hcons].
Defined.

Lemma resolve_rearms_low_stock_witness :
  ∃ c, pushed [] (detectLowStock 1 rice []) (mkWorld resolvedStore []) = [c]
       ∧ c_productId c = Some 1%N ∧ c_type c = "low_stock".
Proof.
  apply (resolve_rearms_low_stock (mkStore {[ 1%N := rice ]} [] [riceLow] [] 1000) []
           (NOW - 60000) 901 1 rice []).
  - by vm_compute.
  - intros a Ha _. apply list_elem_of_singleton in Ha. by rewrite Ha.
Defined.

Lemma recommendations_cover_theft_types_witness :
  length (generateTheftRecommendations
            [mkCandidate (Some 2%N) "potential_theft" "high" "Potential theft detected"
               (7 # 10) MetaEmpty;
             mkCandidate None "organized_theft_pattern" "critical" "Organized theft"
               (9 # 10) MetaEmpty])
  = 2%nat.
Proof.
  apply (recommendations_cover_theft_types
           [mkCandidate (Some 2%N) "potential_theft" "high" "Potential theft detected"
              (7 # 10) MetaEmpty;
            mkCandidate None "organized_theft_pattern" "critical" "Organized theft"
              (9 # 10) MetaEmpty]).
  unfold REPORTED_THEFT_TYPES. repeat constructor; simpl; rewrite !elem_of_cons; tauto.
Defined.

Lemma theft_analytics_counts_witness :
  ∃ report qs h,
    getTheftAnalytics 30 NOW (mkWorld twoOpenStore []) = (Return report, mkWorld twoOpenStore qs)
    ∧ ta_totalIncidents report = 2%nat
    ∧ ta_activeIncidents report = 2
    ∧ h ∈ ta_highRiskProducts report
    ∧ hr_productId h = 1%N ∧ hr_incidentCount h = 2%nat.
Proof.
  destruct (theft_analytics_counts (mkWorld twoOpenStore []) 30 NOW)
    as (report & qs & Hrun & Htotal & _ & Hactive & _ & Hrisk).
  destruct (proj2 (Hrisk 1%N 2%nat)) as (h & Hh & Hid & Hcount); [by vm_compute|].
  exists report, qs, h. split; [exact Hrun|]. split; [by rewrite Htotal|].
  split; [by rewrite Hactive|]. split; [exact Hh|]. split; [exact Hid|exact Hcount].
Defined.

Lemma pattern_verdicts_witness :
  ∃ p k avg most,
    analyzeTransactionPattern fourSales = Some p
    ∧ vd_metadata p = MetaLargeSales k avg most
    ∧ vd_severity p = "medium" ∧ (3 * k < 4)%nat ∧ 0 < most.
Proof.
  pose proof (pattern_verdicts fourSales) as H. cbv zeta in H.
  destruct (analyzeTransactionPattern fourSales) as [p|] eqn:Hp; [|by vm_compute in Hp].
  destruct H as [(k & avg & most & Hm & Hsev & _ & Hk & t & _ & _ & Hmost)|(_ & _ & Hlen)];
    [|simpl in Hlen; lia].
  exists p, k, avg, most. split; [done|]. split; [exact Hm|]. split; [exact Hsev|].
  split; [exact Hk|exact Hmost].
Defined.

Lemma stock_change_partial_write_witness :
  ∃ transaction w',
    postStock NOW 3 2 "sale" None None (mkWorld crateStore [])
    = (Return (ErrorJson 400 "Product validation failed"), w')
    ∧ st_transactions (store w') = [transaction]
    ∧ t_quantity transaction = -2
    ∧ st_products (store w') !! 3%N = Some crate.
Proof.
  destruct (stock_change_partial_write (mkWorld crateStore []) NOW 3 2 "sale" None None crate)
    as (t & w' & Hrun & Hledger & _ & Hq & _ & Hproducts).
  - by vm_compute.
  - unfold TRANSACTION_TYPES. rewrite !elem_of_cons. tauto.
  - right. left. vm_compute. lia.
  - exists t, w'. split; [exact Hrun|]. split; [exact Hledger|].
    split; [exact Hq|]. rewrite Hproducts. by vm_compute.
Defined.
